(** * VehicleStreamer: respawn scheduling, entity bookkeeping and queries

    A shallow embedding of the class [VehicleStreamer] (which extends
    [EntityStreamerGlobal]) and the properties of it that the
    specification relies on.

    Conventions of the embedding.
    - JavaScript objects used by identity ([Vehicle], [StoredVehicle],
      [Symbol]) are references (positive numbers); the objects live in
      the [World].
    - A JavaScript number that carries seconds or world units is a
      finite IEEE 754 double, carried by its value, an exact rational
      ([Q]); comparisons of doubles are comparisons of their values. The
      one product the class computes, [respawnDelay * timeMultipler],
      is rounded as the product of doubles is ([num_mul]), and its two
      factors are rationals that are doubles ([Double.t]). Ids, worlds
      and interiors are integers ([Z]).
    - A JavaScript [Map] that the code iterates over is a list of
      entries in insertion order ([JsMap]); a [Map] that is only looked
      up is a [gmap].
    - Calls into the engine and into per-descriptor hooks are recorded,
      in order, in the [trace] of the world.
    - An [async] method is split at its [await]: the part before it runs
      at the call, the part after it is a [Task] parked in [timers]. *)

From Stdlib Require Import QArith Qabs Qround Qpower.
From stdpp Require Import gmap strings list.

Local Open Scope Z_scope.

(** ** References *)

Definition VehRef := positive.
Definition StoredRef := positive.
Definition Token := positive.
Definition PinTag := positive.
Definition Hook := positive.
Definition Player := positive.

(** ** Numbers *)

Definition num_lt (a b : Q) : bool := negb (Qle_bool b a).
Definition num_gt (a b : Q) : bool := num_lt b a.
Definition num_le (a b : Q) : bool := Qle_bool a b.

(** [Number.MAX_SAFE_INTEGER], 2^53 - 1. *)
Definition MAX_SAFE_INTEGER : Q := inject_Z 9007199254740991.

(** *** Doubles

    The value of a finite double is m * 2^e for integers m and e with
    |m| < 2^53 and -1074 <= e <= 971. The result of an operation on
    doubles is the exact result rounded to the nearest such value, to
    the one with even m when two are equally near; a result that is
    nearer to zero than to the least double is zero (and a zero
    compares like any zero, whatever its sign). *)

Definition pow2 (k : Z) : Q := (2 ^ k)%Q.

(** For positive [q], the integer [k] with 2^k <= q < 2^(k+1): the
    position of the leading binary digit of [q]. *)
Definition floorLog2 (q : Q) : Z :=
  let k := Z.log2 (Qnum q) - Z.log2 (Zpos (Qden q)) in
  if Qle_bool (pow2 k) q then k else k - 1.

(** The nearest integer, the even one when two are equally near. *)
Definition roundHalfEven (q : Q) : Z :=
  let f := Qfloor q in
  match (q - inject_Z f ?= 1 # 2)%Q with
  | Lt => f
  | Gt => f + 1
  | Eq => if Z.even f then f else f + 1
  end.

(** The position of the last binary digit that a double keeps of a
    positive number: 52 below the leading digit, and never below
    -1074, the position of the last digit of the numbers next to
    zero. *)
Definition lastDigit (a : Q) : Z := Z.max (-1074) (floorLog2 a - 52).

(** [Infinity] is written 2^1024, the first power of two beyond the
    doubles: like [Infinity], it is greater than every double. *)
Definition INFINITY : Q := pow2 1024.

Definition roundPositive (a : Q) : Q :=
  let e := lastDigit a in
  let r := (inject_Z (roundHalfEven (a * pow2 (- e))) * pow2 e)%Q in
  if Qle_bool INFINITY r then INFINITY else r.

(** The double nearest to [q]. *)
Definition roundToDouble (q : Q) : Q :=
  let q := Qred q in
  match Qnum q with
  | Z0 => 0%Q
  | Zpos _ => roundPositive q
  | Zneg _ => (- roundPositive (- q))%Q
  end.

(** [q] is the value of a finite double. *)
Definition isDouble (q : Q) : bool :=
  Qeq_bool (roundToDouble q) q && num_lt (Qabs q) INFINITY.

Module Double.
Record t := mk { value : Q; finite : isDouble value = true }.

(** The literals [1] and [0.5]. *)
Definition one : t := mk 1 eq_refl.
Definition half : t := mk (1 # 2) eq_refl.
End Double.

Coercion Double.value : Double.t >-> Q.

(** [a * b] on doubles: the exact product, rounded. A product beyond
    the doubles is [INFINITY] or its negative, as it is [Infinity] or
    [-Infinity] in the source. *)
Definition num_mul (a b : Double.t) : Q := roundToDouble (a * b).

#[global] Arguments num_mul : simpl never.

(** [Number.MIN_VALUE], 2^-1074 (5e-324): the least positive double. *)
Definition MIN_VALUE : Q := pow2 (-1074).

(** ** Vectors *)

Module Vector.
Record t := mk { x : Q; y : Q; z : Q }.

Definition squaredDistanceTo (a b : t) : Q :=
  ((x a - x b) * (x a - x b)
   + (y a - y b) * (y a - y b)
   + (z a - z b) * (z a - z b))%Q.

(** Modelled from the spec: [Vector.closeTo] is not part of the
    sources at hand. The drift sweep treats a vehicle as moved when it
    is farther than the threshold from its canonical position, so two
    vectors are close when their Euclidean distance is at most
    [maxDistance]; for a non-negative [maxDistance] that is the
    comparison of the squares below. *)
Definition closeTo (a b : t) (maxDistance : Q) : bool :=
  num_le (squaredDistanceTo a b) (maxDistance * maxDistance)%Q.
End Vector.

(** ** Descriptors and live vehicles *)

Module StoredVehicle.
(** The fields of a [StoredVehicle] that the streamer reads. The
    cosmetic ones (colours, paintjob, number plate, siren) are only
    forwarded to the engine and are left out. *)
Record t := mk {
  modelId : Z;
  position : Vector.t;
  rotation : Q;
  interiorId : Z;
  virtualWorld : Z;
  respawnDelay : Double.t;
  deathFn : option Hook;
  respawnFn : option Hook;
  accessFn : option (Player → bool)
}.
End StoredVehicle.

Module Vehicle.
Record t := mk {
  modelId : Z;
  position : Vector.t;
  interiorId : Z;
  virtualWorld : Z;
  occupantCount : nat;
  connected : bool;
  trailer : option VehRef;
  parent : option VehRef
}.

(** A reference that denotes no object reads as a disconnected,
    empty vehicle; no reachable state looks one up. *)
Definition none : t :=
  mk 0 (Vector.mk 0 0 0) 0 0 0 false None None.
End Vehicle.

#[export] Instance vehicle_inhabited : Inhabited Vehicle.t :=
  populate Vehicle.none.

(** ** JavaScript [Map] in insertion order *)

Module JsMap.
Section Defs.
Context {K V : Type} `{EqDecision K}.

Fixpoint get (k : K) (m : list (K * V)) : option V :=
  match m with
  | [] => None
  | (k', v) :: m' => if decide (k' = k) then Some v else get k m'
  end.

Definition has (k : K) (m : list (K * V)) : bool :=
  match get k m with Some _ => true | None => false end.

(** [Map.prototype.set]: an existing key keeps its place, a new key
    goes last. *)
Fixpoint set (k : K) (v : V) (m : list (K * V)) : list (K * V) :=
  match m with
  | [] => [(k, v)]
  | (k', v') :: m' =>
      if decide (k' = k) then (k, v) :: m' else (k', v') :: set k v m'
  end.

Fixpoint delete (k : K) (m : list (K * V)) : list (K * V) :=
  match m with
  | [] => []
  | (k', v') :: m' =>
      if decide (k' = k) then delete k m' else (k', v') :: delete k m'
  end.

Definition keys (m : list (K * V)) : list K := m.*1.
Definition values (m : list (K * V)) : list V := m.*2.
End Defs.
End JsMap.

(** ** Tasks, timers and observable calls *)

(** What is parked behind an [await seconds(...)]. *)
Inductive Task :=
| RespawnTask (vehicle : VehRef) (token : Token)
| DriftSweepTask.

Record Timer := mkTimer { due : Q; task : Task }.

Inductive Event :=
| CallDeathFn (h : Hook) (vehicle : VehRef) (storedVehicle : StoredRef)
| CallRespawnFn (h : Hook) (vehicle : VehRef) (storedVehicle : StoredRef)
| CallRespawn (vehicle : VehRef)
| CallDispose (vehicle : VehRef)
| CallLockForPlayer (vehicle : VehRef) (player : Player)
| CallUnlockForPlayer (vehicle : VehRef) (player : Player).

(** How a method call ends. *)
Inductive Completion (A : Type) :=
| Return (a : A)
| Throw (message : string).
Arguments Return {A} a.
Arguments Throw {A} message.

(** ** The world: the server and the streamer instance *)

Record World := mkWorld {
  (* the server *)
  descriptors : StoredRef → StoredVehicle.t;
  players : list Player;
  heap : gmap VehRef Vehicle.t;
  nextVehicle : VehRef;
  nextToken : Token;
  now : Q;
  timers : list Timer;
  trace : list Event;
  (* EntityStreamerGlobal *)
  streamingDistance : Q;
  registered_ : list StoredRef;
  pinned_ : gset (StoredRef * PinTag);
  (* VehicleStreamer *)
  disposed_ : bool;
  vehicles_ : list (StoredRef * VehRef);
  storedVehicles_ : gmap VehRef StoredRef;
  respawnTokens_ : gmap VehRef Token
}.

Definition set_heap (f : gmap VehRef Vehicle.t → gmap VehRef Vehicle.t) (w : World) : World :=
  mkWorld (descriptors w) (players w) (f (heap w)) (nextVehicle w) (nextToken w)
          (now w) (timers w) (trace w) (streamingDistance w) (registered_ w)
          (pinned_ w) (disposed_ w) (vehicles_ w) (storedVehicles_ w)
          (respawnTokens_ w).

Definition set_nextVehicle (n : VehRef) (w : World) : World :=
  mkWorld (descriptors w) (players w) (heap w) n (nextToken w)
          (now w) (timers w) (trace w) (streamingDistance w) (registered_ w)
          (pinned_ w) (disposed_ w) (vehicles_ w) (storedVehicles_ w)
          (respawnTokens_ w).

Definition set_nextToken (n : Token) (w : World) : World :=
  mkWorld (descriptors w) (players w) (heap w) (nextVehicle w) n
          (now w) (timers w) (trace w) (streamingDistance w) (registered_ w)
          (pinned_ w) (disposed_ w) (vehicles_ w) (storedVehicles_ w)
          (respawnTokens_ w).

Definition set_now (t : Q) (w : World) : World :=
  mkWorld (descriptors w) (players w) (heap w) (nextVehicle w) (nextToken w)
          t (timers w) (trace w) (streamingDistance w) (registered_ w)
          (pinned_ w) (disposed_ w) (vehicles_ w) (storedVehicles_ w)
          (respawnTokens_ w).

Definition set_timers (f : list Timer → list Timer) (w : World) : World :=
  mkWorld (descriptors w) (players w) (heap w) (nextVehicle w) (nextToken w)
          (now w) (f (timers w)) (trace w) (streamingDistance w) (registered_ w)
          (pinned_ w) (disposed_ w) (vehicles_ w) (storedVehicles_ w)
          (respawnTokens_ w).

Definition emit (e : Event) (w : World) : World :=
  mkWorld (descriptors w) (players w) (heap w) (nextVehicle w) (nextToken w)
          (now w) (timers w) (trace w ++ [e]) (streamingDistance w) (registered_ w)
          (pinned_ w) (disposed_ w) (vehicles_ w) (storedVehicles_ w)
          (respawnTokens_ w).

Definition set_pinned (f : gset (StoredRef * PinTag) → gset (StoredRef * PinTag))
    (w : World) : World :=
  mkWorld (descriptors w) (players w) (heap w) (nextVehicle w) (nextToken w)
          (now w) (timers w) (trace w) (streamingDistance w) (registered_ w)
          (f (pinned_ w)) (disposed_ w) (vehicles_ w) (storedVehicles_ w)
          (respawnTokens_ w).

Definition set_disposed (b : bool) (w : World) : World :=
  mkWorld (descriptors w) (players w) (heap w) (nextVehicle w) (nextToken w)
          (now w) (timers w) (trace w) (streamingDistance w) (registered_ w)
          (pinned_ w) b (vehicles_ w) (storedVehicles_ w)
          (respawnTokens_ w).

Definition set_vehicles (f : list (StoredRef * VehRef) → list (StoredRef * VehRef))
    (w : World) : World :=
  mkWorld (descriptors w) (players w) (heap w) (nextVehicle w) (nextToken w)
          (now w) (timers w) (trace w) (streamingDistance w) (registered_ w)
          (pinned_ w) (disposed_ w) (f (vehicles_ w)) (storedVehicles_ w)
          (respawnTokens_ w).

Definition set_storedVehicles (f : gmap VehRef StoredRef → gmap VehRef StoredRef)
    (w : World) : World :=
  mkWorld (descriptors w) (players w) (heap w) (nextVehicle w) (nextToken w)
          (now w) (timers w) (trace w) (streamingDistance w) (registered_ w)
          (pinned_ w) (disposed_ w) (vehicles_ w) (f (storedVehicles_ w))
          (respawnTokens_ w).

Definition set_respawnTokens (f : gmap VehRef Token → gmap VehRef Token)
    (w : World) : World :=
  mkWorld (descriptors w) (players w) (heap w) (nextVehicle w) (nextToken w)
          (now w) (timers w) (trace w) (streamingDistance w) (registered_ w)
          (pinned_ w) (disposed_ w) (vehicles_ w) (storedVehicles_ w)
          (f (respawnTokens_ w)).

(** ** The engine side: [Vehicle] methods, [ScopedEntities], [seconds] *)

Definition vehicleAt (w : World) (vehicle : VehRef) : Vehicle.t :=
  heap w !!! vehicle.

Definition isConnected (w : World) (vehicle : VehRef) : bool :=
  Vehicle.connected (vehicleAt w vehicle).

(** Modelled from the spec: [Vehicle.isOccupied] is not part of the
    sources at hand; a live entity carries an occupancy count and is
    occupied when that count is positive. *)
Definition isOccupied (w : World) (vehicle : VehRef) : bool :=
  bool_decide (0 < Vehicle.occupantCount (vehicleAt w vehicle))%nat.

Definition respawn (vehicle : VehRef) (w : World) : World :=
  emit (CallRespawn vehicle) w.

Definition disconnect (o : Vehicle.t) : Vehicle.t :=
  Vehicle.mk (Vehicle.modelId o) (Vehicle.position o) (Vehicle.interiorId o)
             (Vehicle.virtualWorld o) (Vehicle.occupantCount o) false
             (Vehicle.trailer o) (Vehicle.parent o).

(** Modelled from the spec: [Vehicle.dispose] is not part of the sources
    at hand; destroying the live object clears its connected flag. *)
Definition disposeVehicle (vehicle : VehRef) (w : World) : World :=
  emit (CallDispose vehicle) (set_heap (alter disconnect vehicle) w).

Definition lockForPlayer (vehicle : VehRef) (player : Player) (w : World) : World :=
  emit (CallLockForPlayer vehicle player) w.

Definition unlockForPlayer (vehicle : VehRef) (player : Player) (w : World) : World :=
  emit (CallUnlockForPlayer vehicle player) w.

(** Modelled from the spec: [ScopedEntities.createVehicle] is not part
    of the sources at hand; it materializes a new live object, connected
    and empty, placed as the options say. A new object is a reference
    that was never handed out before. *)
Definition createVehicle (modelId : Z) (position : Vector.t)
    (interiorId virtualWorld : Z) (w : World) : VehRef * World :=
  let vehicle := nextVehicle w in
  let object :=
    Vehicle.mk modelId position interiorId virtualWorld 0 true None None in
  (vehicle,
   set_nextVehicle (Pos.succ vehicle) (set_heap (insert vehicle object) w)).

(** [await seconds(t)]: the rest of the method, [k], is parked until
    [t] seconds from now. *)
Definition seconds (t : Q) (k : Task) (w : World) : World :=
  set_timers (λ ts, ts ++ [mkTimer (now w + t)%Q k]) w.

(** [Symbol(...)]: a value different from every symbol made before. *)
Definition newSymbol (w : World) : Token * World :=
  (nextToken w, set_nextToken (Pos.succ (nextToken w)) w).

(** ** The superclass: pins and the spatial query *)

(** Modelled from the spec: [EntityStreamerGlobal.pin] is not part of
    the sources at hand. A pin is a (descriptor, tag) pair, pins are
    additive by tag. *)
Definition pin (storedVehicle : StoredRef) (type : PinTag) (w : World) : World :=
  set_pinned (λ ps, {[ (storedVehicle, type) ]} ∪ ps) w.

(** Modelled from the spec: [EntityStreamerGlobal.unpin] is not part of
    the sources at hand. Removing the pin of one tag does not remove the
    pins of other tags. *)
Definition unpin (storedVehicle : StoredRef) (type : PinTag) (w : World) : World :=
  set_pinned (λ ps, ps ∖ {[ (storedVehicle, type) ]}) w.

(** Modelled from the spec: [EntityStreamerGlobal.isPinned] is not part
    of the sources at hand. With a tag, the pin of that tag; without,
    a pin of any tag. *)
Definition isPinned (storedVehicle : StoredRef) (type : option PinTag)
    (w : World) : bool :=
  match type with
  | Some tag => bool_decide ((storedVehicle, tag) ∈ pinned_ w)
  | None =>
      bool_decide (Exists (λ p, p.1 = storedVehicle) (elements (pinned_ w)))
  end.

(** Modelled from the spec: the [query] of the superclass is not part
    of the sources at hand. It answers with the set of all registered
    descriptors within the streaming radius of the position. *)
Definition super_query (position : Vector.t) (w : World) : list StoredRef :=
  remove_dups
    (filter (λ storedVehicle,
               Vector.closeTo
                 (StoredVehicle.position (descriptors w storedVehicle))
                 position (streamingDistance w) = true)
            (registered_ w)).

(** ** VehicleStreamer *)

(** Pin that will be used to keep vehicles alive that have recently
    been used. *)
Definition RecentUsagePin : PinTag := 1%positive.

(** Time, in seconds, between detecting moved unoccupied vehicles. *)
Definition UnoccupiedVehicleStatusUpdateSec : Q := 45.

(** Units, in change of position, following which an unoccupied vehicle
    will be scheduled for respawn. *)
Definition UnoccupiedRespawnThreshold : Q := 3 # 2.

Definition streamedSize (w : World) : nat := length (vehicles_ w).

Definition getLiveVehicle (storedVehicle : StoredRef) (w : World) : option VehRef :=
  JsMap.get storedVehicle (vehicles_ w).

Definition getStoredVehicle (vehicle : VehRef) (w : World) : option StoredRef :=
  storedVehicles_ w !! vehicle.

(** [storedVehicle.deathFn(vehicle, storedVehicle)], when there is one. *)
Definition callDeathFn (vehicle : VehRef) (storedVehicle : StoredRef)
    (w : World) : World :=
  match StoredVehicle.deathFn (descriptors w storedVehicle) with
  | Some h => emit (CallDeathFn h vehicle storedVehicle) w
  | None => w
  end.

Definition respawnIfConnected (vehicle : VehRef) (w : World) : World :=
  if isConnected w vehicle then respawn vehicle w else w.

Record QueryResult := mkQueryResult {
  vehicles : nat;
  models : nat;
  closestVehicle : option VehRef
}.

Section Query.
(** [Vector.distanceTo] is not part of the sources at hand and the
    Euclidean distance is not rational-valued: the metric is a
    parameter. *)
Variable distanceTo : Vector.t → Vector.t → Q.

(** One turn of the loop over [this.vehicles_.values()]. *)
Definition closest_step (w : World) (position : Vector.t)
    (acc : option VehRef * Q) (vehicle : VehRef) : option VehRef * Q :=
  let squaredDistance :=
    distanceTo (Vehicle.position (vehicleAt w vehicle)) position in
  if num_gt squaredDistance acc.2 then acc
  else (Some vehicle, squaredDistance).

Definition query (position : Vector.t) (w : World) : QueryResult :=
  let storedVehicles := super_query position w in
  let models :=
    remove_dups
      ((λ storedVehicle, StoredVehicle.modelId (descriptors w storedVehicle))
         <$> storedVehicles) in
  let closest :=
    foldl (closest_step w position) (None, MAX_SAFE_INTEGER)
          (JsMap.values (vehicles_ w)) in
  mkQueryResult (length storedVehicles) (length models) closest.1.
End Query.

(** One turn of the loop of [respawnUnoccupiedVehicles]. *)
Definition respawnUnoccupied_step (w : World) (entry : StoredRef * VehRef) : World :=
  let '(storedVehicle, vehicle) := entry in
  if bool_decide (0 < Vehicle.occupantCount (vehicleAt w vehicle))%nat then w
  else
    let w := set_respawnTokens (delete vehicle) w in
    let w := callDeathFn vehicle storedVehicle w in
    respawnIfConnected vehicle w.

Definition respawnUnoccupiedVehicles (w : World) : World :=
  foldl respawnUnoccupied_step w (vehicles_ w).

Definition hasAccess (w : World) (storedVehicle : StoredRef) (player : Player) : bool :=
  match StoredVehicle.accessFn (descriptors w storedVehicle) with
  | None => true
  | Some f => f player
  end.

Definition synchronizeAccess_step (storedVehicle : StoredRef) (vehicle : VehRef)
    (w : World) (player : Player) : World :=
  if negb (hasAccess w storedVehicle player)
  then lockForPlayer vehicle player w
  else unlockForPlayer vehicle player w.

Definition synchronizeAccessForVehicle (storedVehicle : StoredRef) (w : World) : World :=
  match JsMap.get storedVehicle (vehicles_ w) with
  | None => w
  | Some vehicle =>
      foldl (synchronizeAccess_step storedVehicle vehicle) w (players w)
  end.

Definition synchronizeAccessForPlayer (player : Player) (w : World) : World :=
  foldl (λ w entry, synchronizeAccess_step entry.1 entry.2 w player)
        w (vehicles_ w).

Definition createEntity (storedVehicle : StoredRef) (w : World)
    : Completion VehRef * World :=
  if JsMap.has storedVehicle (vehicles_ w)
  then (Throw "Attempting to create a vehicle that already exists.", w)
  else
    let d := descriptors w storedVehicle in
    let '(vehicle, w) :=
      createVehicle (StoredVehicle.modelId d) (StoredVehicle.position d)
                    (StoredVehicle.interiorId d) (StoredVehicle.virtualWorld d) w in
    let w := set_vehicles (JsMap.set storedVehicle vehicle) w in
    let w := set_storedVehicles (insert vehicle storedVehicle) w in
    let w := synchronizeAccessForVehicle storedVehicle w in
    (Return vehicle, w).

Definition deleteEntity (storedVehicle : StoredRef) (w : World)
    : Completion unit * World :=
  match JsMap.get storedVehicle (vehicles_ w) with
  | None => (Throw "Attempting to delete an invalid vehicle.", w)
  | Some vehicle =>
      let w := set_vehicles (JsMap.delete storedVehicle) w in
      let w := set_storedVehicles (delete vehicle) w in
      let w := callDeathFn vehicle storedVehicle w in
      let w := if isConnected w vehicle then disposeVehicle vehicle w else w in
      (Return (), w)
  end.

(** *** Respawn scheduling *)

(** [scheduleVehicleForRespawn], up to its [await]. The optional third
    argument defaults to 1. Past the guard, the rest of the method is
    parked as [RespawnTask vehicle token]. *)
Definition scheduleVehicleForRespawn (vehicle : VehRef) (storedVehicle : StoredRef)
    (timeMultipler : option Double.t) (w : World) : World :=
  let respawnTime :=
    num_mul (StoredVehicle.respawnDelay (descriptors w storedVehicle))
            (default Double.one timeMultipler) in
  if num_lt respawnTime 0 (* no automated respawn *)
  then unpin storedVehicle RecentUsagePin w
  else
    let '(token, w) := newSymbol w in
    let w := set_respawnTokens (insert vehicle token) w in
    seconds respawnTime (RespawnTask vehicle token) w.

(** One link of the chain: the body of the [while (vehicle)] loop
    without the step to the trailer. *)
Definition respawnLink (vehicle : VehRef) (w : World) : World :=
  let w :=
    match storedVehicles_ w !! vehicle with
    | Some storedVehicle =>
        let w := unpin storedVehicle RecentUsagePin w in
        let w := set_respawnTokens (delete vehicle) w in
        callDeathFn vehicle storedVehicle w
    | None => w
    end in
  respawnIfConnected vehicle w.

(** [while (vehicle) { const trailer = vehicle.trailer; ...; vehicle =
    trailer; }]. The loop has no bound of its own; [None] is a loop
    that has not ended within [fuel] turns. *)
Fixpoint respawnChain (fuel : nat) (vehicle : option VehRef) (w : World)
    : option World :=
  match vehicle with
  | None => Some w
  | Some v =>
      match fuel with
      | O => None
      | S fuel' =>
          let trailer := Vehicle.trailer (vehicleAt w v) in
          respawnChain fuel' trailer (respawnLink v w)
      end
  end.

(** [scheduleVehicleForRespawn], from its [await] on: what runs when
    the timer fires. *)
Definition scheduleVehicleForRespawn_resume (fuel : nat) (vehicle : VehRef)
    (token : Token) (w : World) : option World :=
  if negb (isConnected w vehicle)
     || negb (bool_decide (respawnTokens_ w !! vehicle = Some token))
  then Some w (* the vehicle has been removed, or the respawn token expired *)
  else respawnChain fuel (Some vehicle) w.

(** *** The drift sweep *)

(** Whether the live vehicle is still roughly where its descriptor
    says. *)
Definition stillInPlace (w : World) (storedVehicle : StoredRef) (vehicle : VehRef) : bool :=
  let d := descriptors w storedVehicle in
  let o := vehicleAt w vehicle in
  Vector.closeTo (Vehicle.position o) (StoredVehicle.position d)
                 UnoccupiedRespawnThreshold
  && bool_decide (Vehicle.virtualWorld o = StoredVehicle.virtualWorld d)
  && bool_decide (Vehicle.interiorId o = StoredVehicle.interiorId d).

(** One turn of the [for] loop of [processUnoccupiedVehicleUpdates]. *)
Definition driftSweep_step (w : World) (entry : StoredRef * VehRef) : World :=
  let '(storedVehicle, vehicle) := entry in
  if isOccupied w vehicle then w
  else if bool_decide (is_Some (respawnTokens_ w !! vehicle)) then w
  else if stillInPlace w storedVehicle vehicle then w
  else scheduleVehicleForRespawn vehicle storedVehicle (Some Double.half) w.

Definition driftSweep (w : World) : World :=
  foldl driftSweep_step w (vehicles_ w).

(** [processUnoccupiedVehicleUpdates] from the head of its [while]
    loop to the [await] at the end of the body; the next turn is parked
    as [DriftSweepTask]. *)
Definition processUnoccupiedVehicleUpdates (w : World) : World :=
  if disposed_ w then w
  else seconds UnoccupiedVehicleStatusUpdateSec DriftSweepTask (driftSweep w).

(** *** Observers *)

Definition onPlayerEnterVehicle (player : option Player) (vehicle : VehRef)
    (w : World) : World :=
  match storedVehicles_ w !! vehicle with
  | None => w (* the vehicle is not part of this streamer *)
  | Some storedVehicle =>
      let w := pin storedVehicle RecentUsagePin w in
      set_respawnTokens (delete vehicle) w
  end.

Fixpoint onTrailerAttached (fuel : nat) (vehicle : option VehRef) (trailer : VehRef)
    (w : World) : option World :=
  match vehicle with
  | None => Some w
  | Some v =>
      match fuel with
      | O => None
      | S fuel' =>
          match storedVehicles_ w !! v with
          | Some storedVehicle =>
              if isPinned storedVehicle None w
              then Some (onPlayerEnterVehicle None trailer w)
              else onTrailerAttached fuel' (Vehicle.parent (vehicleAt w v)) trailer w
          | None =>
              onTrailerAttached fuel' (Vehicle.parent (vehicleAt w v)) trailer w
          end
      end
  end.

Definition onPlayerLeaveVehicle (player : option Player) (vehicle : VehRef)
    (w : World) : World :=
  match storedVehicles_ w !! vehicle with
  | None => w (* the vehicle is not part of this streamer *)
  | Some storedVehicle =>
      if bool_decide (1 < Vehicle.occupantCount (vehicleAt w vehicle))%nat
      then w (* there are still players left in the vehicle *)
      else scheduleVehicleForRespawn vehicle storedVehicle None w
  end.

Definition onTrailerDetached (vehicle trailer : VehRef) (w : World) : World :=
  onPlayerLeaveVehicle None trailer w.

Definition resetPlacement (d : StoredVehicle.t) (o : Vehicle.t) : Vehicle.t :=
  Vehicle.mk (Vehicle.modelId o) (Vehicle.position o)
             (StoredVehicle.interiorId d) (StoredVehicle.virtualWorld d)
             (Vehicle.occupantCount o) (Vehicle.connected o)
             (Vehicle.trailer o) (Vehicle.parent o).

Definition onVehicleSpawn (vehicle : VehRef) (w : World) : World :=
  match storedVehicles_ w !! vehicle with
  | None => w
  | Some storedVehicle =>
      let d := descriptors w storedVehicle in
      let w := set_heap (alter (resetPlacement d) vehicle) w in
      match StoredVehicle.respawnFn d with
      | Some h => emit (CallRespawnFn h vehicle storedVehicle) w
      | None => w
      end
  end.

Definition onVehicleDeath (vehicle : VehRef) (w : World) : World :=
  match storedVehicles_ w !! vehicle with
  | None => w
  | Some storedVehicle =>
      if bool_decide (0 < Vehicle.occupantCount (vehicleAt w vehicle))%nat
      then w
      else scheduleVehicleForRespawn vehicle storedVehicle (Some Double.half) w
  end.

(** *** Timers *)

(** What a parked task does when it is resumed. *)
Definition resume (fuel : nat) (k : Task) (w : World) : option World :=
  match k with
  | RespawnTask vehicle token =>
      scheduleVehicleForRespawn_resume fuel vehicle token w
  | DriftSweepTask => Some (processUnoccupiedVehicleUpdates w)
  end.

(** The [i]-th pending timer elapses: the clock is at its due time and
    its task runs. *)
Definition fireTimer (fuel : nat) (i : nat) (w : World) : option World :=
  match timers w !! i with
  | None => Some w
  | Some t =>
      resume fuel (task t)
             (set_now (due t) (set_timers (λ ts, take i ts ++ drop (S i) ts) w))
  end.

(** *** Construction *)

(** The state right after [new VehicleStreamer(...)] on a server with
    the given descriptors, players and clock: the maps are empty and
    the first drift sweep has run up to its [await]. *)
Definition newVehicleStreamer (descriptors : StoredRef → StoredVehicle.t)
    (players : list Player) (now streamingDistance : Q) : World :=
  processUnoccupiedVehicleUpdates
    (mkWorld descriptors players ∅ 1%positive 1%positive now [] []
             streamingDistance [] ∅ false [] ∅ ∅).

(** *** Sequences of materializations and dematerializations *)

Inductive EntityOp :=
| CreateEntity (storedVehicle : StoredRef)
| DeleteEntity (storedVehicle : StoredRef).

Definition applyEntityOp (w : World) (op : EntityOp) : World :=
  match op with
  | CreateEntity storedVehicle => (createEntity storedVehicle w).2
  | DeleteEntity storedVehicle => (deleteEntity storedVehicle w).2
  end.

Definition applyEntityOps (ops : list EntityOp) (w : World) : World :=
  foldl applyEntityOp w ops.

(** [dispose]: the streamer's own state. The calls that leave the class
    ([removeObserver], [this.entities_.dispose()], [super.dispose()])
    go to code outside the sources at hand and are not followed. *)
Definition dispose (w : World) : World :=
  let w := set_disposed true w in
  let w := set_respawnTokens (λ _, ∅) w in
  let w := set_vehicles (λ _, []) w in
  set_storedVehicles (λ _, ∅) w.


(** ** Bookkeeping invariant of the two entity maps *)

(** The entries of [vehicles_] have distinct keys (it is a [Map]), the
    two maps mirror each other, and every live vehicle is an object that
    has been created already. *)
Record consistent (w : World) : Prop := mkConsistent {
  consistent_keys : NoDup (JsMap.keys (vehicles_ w));
  consistent_inverse :
    ∀ storedVehicle vehicle,
      JsMap.get storedVehicle (vehicles_ w) = Some vehicle
      ↔ storedVehicles_ w !! vehicle = Some storedVehicle;
  consistent_allocated :
    ∀ vehicle storedVehicle,
      storedVehicles_ w !! vehicle = Some storedVehicle →
      (vehicle < nextVehicle w)%positive
}.

(** Two worlds that differ in their trace at most. *)
Definition sameButTrace (w w' : World) : Prop :=
  descriptors w' = descriptors w ∧ players w' = players w
  ∧ heap w' = heap w ∧ nextVehicle w' = nextVehicle w
  ∧ nextToken w' = nextToken w ∧ now w' = now w ∧ timers w' = timers w
  ∧ streamingDistance w' = streamingDistance w
  ∧ registered_ w' = registered_ w ∧ pinned_ w' = pinned_ w
  ∧ disposed_ w' = disposed_ w ∧ vehicles_ w' = vehicles_ w
  ∧ storedVehicles_ w' = storedVehicles_ w
  ∧ respawnTokens_ w' = respawnTokens_ w.

(** ** Vocabulary of the respawn cascade *)

(** [chain] is the sequence of links visited from [vehicle] along the
    [trailer] references, up to the link that tows nothing. *)
Fixpoint trailerChain (w : World) (vehicle : option VehRef) (chain : list VehRef)
    : bool :=
  match vehicle, chain with
  | None, [] => true
  | Some v, link :: rest =>
      bool_decide (v = link)
      && trailerChain w (Vehicle.trailer (vehicleAt w v)) rest
  | _, _ => false
  end.

(** The call of the death hook of a descriptor, when it has one. *)
Definition deathEvents (w : World) (vehicle : VehRef) (storedVehicle : StoredRef)
    : list Event :=
  match StoredVehicle.deathFn (descriptors w storedVehicle) with
  | Some h => [CallDeathFn h vehicle storedVehicle]
  | None => []
  end.

(** The respawn of a vehicle, when it is connected. *)
Definition respawnEvents (w : World) (vehicle : VehRef) : list Event :=
  if isConnected w vehicle then [CallRespawn vehicle] else [].

(** The calls made for one link of a cascade: the death hook of its
    descriptor if the streamer manages the link, then its respawn. *)
Definition linkEvents (w : World) (vehicle : VehRef) : list Event :=
  match storedVehicles_ w !! vehicle with
  | Some storedVehicle => deathEvents w vehicle storedVehicle
  | None => []
  end ++ respawnEvents w vehicle.

(** What a cascade over [chain] from [w] leaves behind in [w']. *)
Definition cascaded (w : World) (chain : list VehRef) (w' : World) : Prop :=
  trace w' = trace w ++ concat (linkEvents w <$> chain)
  ∧ (∀ link storedVehicle,
       link ∈ chain → storedVehicles_ w !! link = Some storedVehicle →
       isPinned storedVehicle (Some RecentUsagePin) w' = false
       ∧ respawnTokens_ w' !! link = None)
  ∧ (∀ p, p ∈ pinned_ w' → p ∈ pinned_ w)
  ∧ (∀ p, p ∈ pinned_ w →
       (p.2 ≠ RecentUsagePin
        ∨ ∀ link, link ∈ chain → storedVehicles_ w !! link ≠ Some p.1) →
       p ∈ pinned_ w')
  ∧ (∀ other,
       (other ∉ chain ∨ storedVehicles_ w !! other = None) →
       respawnTokens_ w' !! other = respawnTokens_ w !! other)
  ∧ descriptors w' = descriptors w ∧ heap w' = heap w
  ∧ vehicles_ w' = vehicles_ w ∧ storedVehicles_ w' = storedVehicles_ w
  ∧ timers w' = timers w.


(** The calls [respawnUnoccupiedVehicles] makes for one entry of
    [vehicles_]: none for an occupied vehicle, else the death hook of
    the descriptor and the respawn. *)
Definition unoccupiedEvents (w : World) (entry : StoredRef * VehRef) : list Event :=
  if bool_decide (0 < Vehicle.occupantCount (vehicleAt w entry.2))%nat then []
  else deathEvents w entry.2 entry.1 ++ respawnEvents w entry.2.

(** ** Vocabulary of scheduling *)

(** Between [w] and [w'], a respawn of [vehicle] has been scheduled
    [delay] seconds ahead: the vehicle carries a token and a task for
    that vehicle and that token is parked, due [delay] seconds after
    the clock of [w]. *)
Definition respawnScheduled (w w' : World) (vehicle : VehRef) (delay : Q) : Prop :=
  ∃ token t,
    respawnTokens_ w' !! vehicle = Some token
    ∧ t ∈ timers w'
    ∧ task t = RespawnTask vehicle token
    ∧ (due t == now w + delay)%Q.

(** The observers hear of a player leaving while the player still
    counts as an occupant: the occupants that remain are the others. *)
Definition occupantsAfterLeave (w : World) (vehicle : VehRef) : nat :=
  (Vehicle.occupantCount (vehicleAt w vehicle) - 1)%nat.

(** The test of the drift sweep: the live vehicle is unoccupied, has no
    respawn token and is not where its descriptor says. *)
Definition needsDriftRespawn (w : World) (storedVehicle : StoredRef)
    (vehicle : VehRef) : bool :=
  negb (isOccupied w vehicle)
  && negb (bool_decide (is_Some (respawnTokens_ w !! vehicle)))
  && negb (stillInPlace w storedVehicle vehicle).



(** ** Concrete worlds *)

(** A descriptor that is never respawned automatically, with a death
    hook. *)
Definition neverDescriptor : StoredVehicle.t :=
  StoredVehicle.mk 411 (Vector.mk 0 0 0) 0 0 0 (Double.mk (-1) eq_refl)
                   (Some 7%positive) None None.

(** A streamer with one descriptor, [neverDescriptor], that is live as
    vehicle 1 and pinned as recently used; the vehicle has the given
    occupants and stands at the given position; no timer is pending. *)
Definition neverWorld (occupants : nat) (position : Vector.t) : World :=
  mkWorld (λ _, neverDescriptor) [9%positive]
          {[ 1%positive := Vehicle.mk 411 position 0 0 occupants true None None ]}
          2%positive 1%positive 0 [] []
          300 [1%positive] {[ (1%positive, RecentUsagePin) ]}
          false [(1%positive, 1%positive)] {[ 1%positive := 1%positive ]} ∅.

(** A descriptor with a respawn delay of 30 seconds and a death hook. *)
Definition timedDescriptor : StoredVehicle.t :=
  StoredVehicle.mk 520 (Vector.mk 0 0 0) 0 0 0 (Double.mk 30 eq_refl)
                   (Some 7%positive) None None.

(** A streamer with two descriptors of [timedDescriptor], live as
    vehicles 1 and 2; vehicle 1 tows vehicle 2, has the given occupants
    and stands at the given position; both descriptors are pinned as
    recently used and vehicle 1 carries the given token, if any; no
    timer is pending. *)
Definition timedWorld (occupants : nat) (position : Vector.t)
    (token : option Token) : World :=
  mkWorld (λ _, timedDescriptor) [9%positive]
          {[ 1%positive :=
               Vehicle.mk 520 position 0 0 occupants true (Some 2%positive) None;
             2%positive :=
               Vehicle.mk 520 (Vector.mk 0 0 0) 0 0 0 true None (Some 1%positive) ]}
          3%positive 5%positive 0 [] []
          300 [1%positive; 2%positive]
          {[ (1%positive, RecentUsagePin); (2%positive, RecentUsagePin) ]}
          false [(1%positive, 1%positive); (2%positive, 2%positive)]
          {[ 1%positive := 1%positive; 2%positive := 2%positive ]}
          (match token with
           | Some t => {[ 1%positive := t ]}
           | None => ∅
           end).

(** A metric for concrete queries: the sum of the coordinate
    differences. For two vectors that differ in one coordinate only it
    is their Euclidean distance. *)
Definition axisDistance (a b : Vector.t) : Q :=
  (Qabs (Vector.x a - Vector.x b) + Qabs (Vector.y a - Vector.y b)
   + Qabs (Vector.z a - Vector.z b))%Q.

(** A position 10^16 units out on the x axis. *)
Definition farPosition : Vector.t :=
  Vector.mk 10000000000000000 0 0.

(** The distance the query measures for a live vehicle. *)
Definition vehicleDistance (distanceTo : Vector.t → Vector.t → Q) (w : World)
    (position : Vector.t) (vehicle : VehRef) : Q :=
  distanceTo (Vehicle.position (vehicleAt w vehicle)) position.

(** Two live vehicles at the origin, nothing scheduled. *)
Definition farWorld : World := timedWorld 0 (Vector.mk 0 0 0) None.

(** Vehicle 1 stands 10 units from its canonical position, empty and
    without a token. *)
Definition driftedWorld : World := timedWorld 0 (Vector.mk 10 0 0) None.




(** Vehicle 1 is in place and its only occupant is about to leave. *)
Definition leavingWorld : World := timedWorld 1 (Vector.mk 0 0 0) None.

(** The same for the descriptor that is never respawned. *)
Definition leavingNeverWorld : World := neverWorld 1 (Vector.mk 0 0 0).

(** Vehicle 1 is empty and carries token 4. *)
Definition pendingWorld : World :=
  timedWorld 0 (Vector.mk 0 0 0) (Some 4%positive).

(** ** Histories *)

(** What can happen to a running streamer between two moments: a call
    of one of its methods, one of the events it observes, a timer that
    elapses, or activity of the engine that changes the live vehicles
    or the clock. *)
Inductive Action :=
| DoCreateEntity (storedVehicle : StoredRef)
| DoDeleteEntity (storedVehicle : StoredRef)
| DoRespawnUnoccupiedVehicles
| DoSynchronizeAccessForVehicle (storedVehicle : StoredRef)
| DoSynchronizeAccessForPlayer (player : Player)
| DoScheduleVehicleForRespawn (vehicle : VehRef) (storedVehicle : StoredRef)
    (timeMultipler : option Double.t)
| OnPlayerEnterVehicle (player : option Player) (vehicle : VehRef)
| OnPlayerLeaveVehicle (player : option Player) (vehicle : VehRef)
| OnTrailerAttached (vehicle trailer : VehRef)
| OnTrailerDetached (vehicle trailer : VehRef)
| OnVehicleSpawn (vehicle : VehRef)
| OnVehicleDeath (vehicle : VehRef)
| TimerElapses (i : nat)
| DoDispose
| EngineActivity (heap' : gmap VehRef Vehicle.t) (now' : Q).

(** The world after an action; [None] when a loop of the action has not
    ended within [fuel] turns. *)
Definition perform (fuel : nat) (a : Action) (w : World) : option World :=
  match a with
  | DoCreateEntity storedVehicle => Some (createEntity storedVehicle w).2
  | DoDeleteEntity storedVehicle => Some (deleteEntity storedVehicle w).2
  | DoRespawnUnoccupiedVehicles => Some (respawnUnoccupiedVehicles w)
  | DoSynchronizeAccessForVehicle storedVehicle =>
      Some (synchronizeAccessForVehicle storedVehicle w)
  | DoSynchronizeAccessForPlayer player =>
      Some (synchronizeAccessForPlayer player w)
  | DoScheduleVehicleForRespawn vehicle storedVehicle timeMultipler =>
      Some (scheduleVehicleForRespawn vehicle storedVehicle timeMultipler w)
  | OnPlayerEnterVehicle player vehicle =>
      Some (onPlayerEnterVehicle player vehicle w)
  | OnPlayerLeaveVehicle player vehicle =>
      Some (onPlayerLeaveVehicle player vehicle w)
  | OnTrailerAttached vehicle trailer =>
      onTrailerAttached fuel (Some vehicle) trailer w
  | OnTrailerDetached vehicle trailer =>
      Some (onTrailerDetached vehicle trailer w)
  | OnVehicleSpawn vehicle => Some (onVehicleSpawn vehicle w)
  | OnVehicleDeath vehicle => Some (onVehicleDeath vehicle w)
  | TimerElapses i => fireTimer fuel i w
  | DoDispose => Some (dispose w)
  | EngineActivity heap' now' => Some (set_now now' (set_heap (λ _, heap') w))
  end.

Fixpoint performAll (fuel : nat) (history : list Action) (w : World)
    : option World :=
  match history with
  | [] => Some w
  | a :: rest =>
      match perform fuel a w with
      | Some w' => performAll fuel rest w'
      | None => None
      end
  end.

(** From [w] to [w'] no symbol was taken back: the counter has not gone
    down and a token found in [w'] was there in [w] already or was made
    since. *)
Definition tokensEvolve (w w' : World) : Prop :=
  (nextToken w ≤ nextToken w')%positive
  ∧ ∀ vehicle token,
      respawnTokens_ w' !! vehicle = Some token →
      respawnTokens_ w !! vehicle = Some token
      ∨ (nextToken w ≤ token)%positive.

(** The only occupant of vehicle 1 of [leavingWorld] has left, which
    parked a respawn with token 5, and a player has entered again. *)
Definition reenteredWorld : World :=
  onPlayerEnterVehicle (Some 9%positive) 1%positive
    (onPlayerLeaveVehicle (Some 9%positive) 1%positive leavingWorld).

(** From [w] to [w'] the two entity maps and the supply of vehicle
    objects are the same. *)
Definition mapsKept (w w' : World) : Prop :=
  vehicles_ w' = vehicles_ w
  ∧ storedVehicles_ w' = storedVehicles_ w
  ∧ nextVehicle w' = nextVehicle w.

(** * Pickup

    The class [Pickup]: an object of the world that the server creates
    and destroys by id, with a respawn of its own. *)

Definition Manager := positive.

Module Pickup.
Record t := mk {
  manager_ : option Manager;
  modelId_ : Z;
  type_ : Z;
  position_ : Vector.t;
  virtualWorld_ : Z;
  respawnDelay_ : Q;
  respawning_ : bool;
  (* [null], or what [CreatePickup] answered *)
  id_ : option Z
}.
End Pickup.

(** What a pickup does to the outside: calls of the server through
    [pawnInvoke], notifications of its manager, lines on the console. *)
Inductive PickupCall :=
| InvokeCreatePickup (modelId type : Z) (position : Vector.t) (virtualWorld : Z)
| InvokeDestroyPickup (id : option Z)
| DidRecreatePickup (manager : Manager)
| DidDisposePickup (manager : Manager)
| LogFailedToCreate (modelId : Z).

(** A pickup and the calls it has made so far. *)
Record PickupState := mkPickupState {
  pickup : Pickup.t;
  calls : list PickupCall
}.

(** Methods of the pickup: they read and write the object, make calls
    and may throw; what was done before a throw stays done. *)
Definition PickupM (A : Type) : Type := PickupState → Completion A * PickupState.

#[export] Instance pickupM_ret : MRet PickupM := λ A a s, (Return a, s).

#[export] Instance pickupM_bind : MBind PickupM := λ A B f c s,
  match c s with
  | (Return a, s') => f a s'
  | (Throw message, s') => (Throw message, s')
  end.

Definition getPickup : PickupM Pickup.t := λ s, (Return (pickup s), s).

Definition putPickup (p : Pickup.t) : PickupM unit :=
  λ s, (Return (), mkPickupState p (calls s)).

Definition call (c : PickupCall) : PickupM unit :=
  λ s, (Return (), mkPickupState (pickup s) (calls s ++ [c])).

Definition throw {A : Type} (message : string) : PickupM A :=
  λ s, (Throw message, s).

Definition set_id (id : option Z) (p : Pickup.t) : Pickup.t :=
  Pickup.mk (Pickup.manager_ p) (Pickup.modelId_ p) (Pickup.type_ p)
            (Pickup.position_ p) (Pickup.virtualWorld_ p)
            (Pickup.respawnDelay_ p) (Pickup.respawning_ p) id.

Definition set_respawning (b : bool) (p : Pickup.t) : Pickup.t :=
  Pickup.mk (Pickup.manager_ p) (Pickup.modelId_ p) (Pickup.type_ p)
            (Pickup.position_ p) (Pickup.virtualWorld_ p)
            (Pickup.respawnDelay_ p) b (Pickup.id_ p).

Definition set_manager (m : option Manager) (p : Pickup.t) : Pickup.t :=
  Pickup.mk m (Pickup.modelId_ p) (Pickup.type_ p)
            (Pickup.position_ p) (Pickup.virtualWorld_ p)
            (Pickup.respawnDelay_ p) (Pickup.respawning_ p) (Pickup.id_ p).

(** [pawnInvoke('CreatePickup', ...)] with the fields of the pickup;
    [created] is the id the server answers with, -1 when it fails. *)
Definition invokeCreatePickup (created : Z) : PickupM Z :=
  p ← getPickup;
  call (InvokeCreatePickup (Pickup.modelId_ p) (Pickup.type_ p)
                           (Pickup.position_ p) (Pickup.virtualWorld_ p));;
  mret created.

(** [new Pickup(manager, modelId, type, position, virtualWorld,
    respawnDelay)], where the server answers [created]. *)
Definition newPickup (manager : Manager) (modelId type : Z) (position : Vector.t)
    (virtualWorld : Z) (respawnDelay : Q) (created : Z) : PickupState :=
  let p := Pickup.mk (Some manager) modelId type position virtualWorld
                     respawnDelay false (Some created) in
  mkPickupState p
    ([InvokeCreatePickup modelId type position virtualWorld]
     ++ if bool_decide (created = -1) then [LogFailedToCreate modelId] else []).

(** [isConnected() { return this.id_ !== null || this.respawning_; }] *)
Definition pickupIsConnected (p : Pickup.t) : bool :=
  bool_decide (Pickup.id_ p ≠ None) || Pickup.respawning_ p.

Definition pickupIsRespawning (p : Pickup.t) : bool := Pickup.respawning_ p.

(** [scheduleRespawn], up to its [await seconds(this.respawnDelay_)]. *)
Definition scheduleRespawn : PickupM unit :=
  p ← getPickup;
  call (InvokeDestroyPickup (Pickup.id_ p));;
  putPickup (set_id None (set_respawning true p)).

(** [scheduleRespawn], from its [await] on; the server answers
    [created] if it is asked to create the pickup. In the branch of a
    failed creation the message is built from [modelId], a name that
    neither the method nor the class nor the file binds: evaluating it
    throws before anything is logged. A call of a method of
    [this.manager_] throws when the manager is [null]. *)
Definition scheduleRespawn_resume (created : Z) : PickupM unit :=
  p ← getPickup;
  if negb (pickupIsConnected p)
  then mret () (* the pickup has been disposed of since *)
  else
    putPickup (set_respawning false p);;
    id ← invokeCreatePickup created;
    p ← getPickup;
    putPickup (set_id (Some id) p);;
    if bool_decide (id = -1)
    then throw "ReferenceError"
    else
      p ← getPickup;
      match Pickup.manager_ p with
      | Some manager => call (DidRecreatePickup manager)
      | None => throw "TypeError"
      end.

(** [dispose]. *)
Definition disposePickup : PickupM unit :=
  p ← getPickup;
  (if negb (Pickup.respawning_ p)
   then
     call (InvokeDestroyPickup (Pickup.id_ p));;
     match Pickup.manager_ p with
     | Some manager => call (DidDisposePickup manager)
     | None => throw "TypeError"
     end
   else mret ());;
  p ← getPickup;
  putPickup (set_id None (set_respawning false (set_manager None p))).

(** What can be done with a pickup: the three entry points, with the
    answer of the server where one is asked for. *)
Inductive PickupOp :=
| PickupScheduleRespawn
| PickupResume (created : Z)
| PickupDispose.

Definition pickupPerform (op : PickupOp) : PickupM unit :=
  match op with
  | PickupScheduleRespawn => scheduleRespawn
  | PickupResume created => scheduleRespawn_resume created
  | PickupDispose => disposePickup
  end.

(** A run of operations; one that throws does not stop the ones after
    it, which start from the state at the throw. *)
Definition pickupRun (ops : list PickupOp) (s : PickupState) : PickupState :=
  foldl (λ s op, (pickupPerform op s).2) s ops.

(** * More vocabulary for the vehicle streamer *)

(** Every object of the heap is one that has been handed out: the
    references from [nextVehicle] on denote no object yet. *)
Definition allocated (w : World) : Prop :=
  ∀ vehicle, is_Some (heap w !! vehicle) → (vehicle < nextVehicle w)%positive.

(** The call [synchronizeAccessFor...] makes for one player and one
    live vehicle: the vehicle is unlocked for a player who has access
    and locked for one who has not. *)
Definition accessCall (w : World) (storedVehicle : StoredRef) (vehicle : VehRef)
    (player : Player) : Event :=
  if hasAccess w storedVehicle player
  then CallUnlockForPlayer vehicle player
  else CallLockForPlayer vehicle player.

(** [chain] is the sequence of vehicles visited from [vehicle] along
    the [parent] references, up to the one that has no parent. *)
Fixpoint parentChain (w : World) (vehicle : option VehRef) (chain : list VehRef)
    : bool :=
  match vehicle, chain with
  | None, [] => true
  | Some v, link :: rest =>
      bool_decide (v = link)
      && parentChain w (Vehicle.parent (vehicleAt w v)) rest
  | _, _ => false
  end.

(** The vehicle is managed by the streamer and its descriptor carries
    a pin of some tag. *)
Definition inUse (w : World) (vehicle : VehRef) : bool :=
  match storedVehicles_ w !! vehicle with
  | Some storedVehicle => isPinned storedVehicle None w
  | None => false
  end.

(** The [n]-th vehicle behind [vehicle] along the [trailer]
    references, if the chain is that long. *)
Fixpoint nthTrailer (w : World) (n : nat) (vehicle : VehRef) : option VehRef :=
  match n with
  | O => Some vehicle
  | S n' =>
      match Vehicle.trailer (vehicleAt w vehicle) with
      | Some trailer => nthTrailer w n' trailer
      | None => None
      end
  end.

#[export] Instance task_eq_dec : EqDecision Task.
Proof. solve_decision. Defined.

(** How many turns of the drift sweep are parked. *)
Definition sweepsParked (w : World) : nat :=
  length (filter (λ t, task t = DriftSweepTask) (timers w)).

(** The calls of the respawn hook of a descriptor, when it has one. *)
Definition respawnFnEvents (w : World) (vehicle : VehRef) (storedVehicle : StoredRef)
    : list Event :=
  match StoredVehicle.respawnFn (descriptors w storedVehicle) with
  | Some h => [CallRespawnFn h vehicle storedVehicle]
  | None => []
  end.

(** From [w] to [w'] as many turns of the drift sweep are parked and
    the streamer is as disposed as it was. *)
Definition sweepKept (w w' : World) : Prop :=
  sweepsParked w' = sweepsParked w ∧ disposed_ w' = disposed_ w.

(** The tokens in use are symbols that have been made, and no two
    parked respawns captured the same one. *)
Definition tokensParkedOnce (w : World) : Prop :=
  (∀ vehicle token,
     respawnTokens_ w !! vehicle = Some token → (token < nextToken w)%positive)
  ∧ (∀ t vehicle token,
       t ∈ timers w → task t = RespawnTask vehicle token →
       (token < nextToken w)%positive)
  ∧ (∀ i j ti tj vehicle1 vehicle2 token,
       timers w !! i = Some ti → timers w !! j = Some tj →
       task ti = RespawnTask vehicle1 token →
       task tj = RespawnTask vehicle2 token →
       i = j).

(** ** More concrete worlds *)

(** [pendingWorld] with the trailers in a loop: vehicle 1 tows vehicle
    2 and vehicle 2 tows vehicle 1. *)
Definition loopWorld : World :=
  set_heap
    (insert 2%positive
       (Vehicle.mk 520 (Vector.mk 0 0 0) 0 0 0 true (Some 1%positive)
                   (Some 1%positive)))
    pendingWorld.

(** [leavingWorld] with vehicle 1 towing nothing: its only occupant is
    about to leave. *)
Definition soloWorld : World :=
  set_heap
    (insert 1%positive
       (Vehicle.mk 520 (Vector.mk 0 0 0) 0 0 1 true None None))
    leavingWorld.

(** A streamer is constructed, the vehicle of descriptor 1 is created,
    a last occupant leaves it, a second vehicle is created, and the first
    timer (the drift sweep) elapses. *)
Definition sampleHistory : list Action :=
  [DoCreateEntity 1%positive;
   OnPlayerLeaveVehicle (Some 9%positive) 1%positive;
   DoCreateEntity 2%positive;
   TimerElapses 0].

Definition sampleStart : World :=
  newVehicleStreamer (λ _, timedDescriptor) [9%positive] 0 300.

Definition sampleWorld : World :=
  default sampleStart (performAll 2 sampleHistory sampleStart).

(** A pickup of manager 1 that the server created with id 77. *)
Definition samplePickup : PickupState :=
  newPickup 1%positive 1240 1 (Vector.mk 0 0 0) 0 30 77.
(** * Properties *)

(** ** Facts about [JsMap] *)

Section JsMapFacts.
Context {K V : Type} `{EqDecision K}.
Implicit Types (k : K) (v : V) (m : list (K * V)).

Lemma jsmap_get_set_eq k v m : JsMap.get k (JsMap.set k v m) = Some v.
Proof.
  induction m as [|[k' v'] m IH]; simpl.
  - by rewrite decide_True.
  - destruct (decide (k' = k)) as [->|Hne]; simpl.
    + by rewrite decide_True.
    + by rewrite decide_False.
Qed.

Lemma jsmap_get_set_ne k k' v m :
  k ≠ k' → JsMap.get k' (JsMap.set k v m) = JsMap.get k' m.
Proof.
  intros Hne. induction m as [|[k0 v0] m IH]; simpl.
  - by rewrite decide_False.
  - destruct (decide (k0 = k)) as [->|Hk0]; simpl.
    + by rewrite !decide_False.
    + destruct (decide (k0 = k')); [done | apply IH].
Qed.

Lemma jsmap_get_delete_eq k m : JsMap.get k (JsMap.delete k m) = None.
Proof.
  induction m as [|[k' v'] m IH]; simpl; [done|].
  destruct (decide (k' = k)); simpl; [done|]. by rewrite decide_False.
Qed.

Lemma jsmap_get_delete_ne k k' m :
  k ≠ k' → JsMap.get k' (JsMap.delete k m) = JsMap.get k' m.
Proof.
  intros Hne. induction m as [|[k0 v0] m IH]; simpl; [done|].
  destruct (decide (k0 = k)) as [->|Hk0]; simpl.
  - by rewrite decide_False.
  - destruct (decide (k0 = k')); [done | apply IH].
Qed.

Lemma jsmap_get_None_keys k m : JsMap.get k m = None ↔ k ∉ JsMap.keys m.
Proof.
  unfold JsMap.keys. induction m as [|[k' v'] m IH]; simpl.
  - split; [intros _; apply not_elem_of_nil | done].
  - rewrite not_elem_of_cons. destruct (decide (k' = k)) as [->|Hne].
    + split; [done | by intros [? _]].
    + rewrite IH. split; [intros Hk; split; [congruence | exact Hk] | by intros [_ Hk]].
Qed.

Lemma jsmap_get_Some_elem k v m : JsMap.get k m = Some v → (k, v) ∈ m.
Proof.
  induction m as [|[k' v'] m IH]; simpl; [done|].
  destruct (decide (k' = k)) as [->|Hne].
  - intros [= ->]. apply list_elem_of_here.
  - intros Hg. apply list_elem_of_further, IH, Hg.
Qed.

Lemma jsmap_elem_get k v m :
  NoDup (JsMap.keys m) → (k, v) ∈ m → JsMap.get k m = Some v.
Proof.
  unfold JsMap.keys. induction m as [|[k' v'] m IH]; simpl.
  - intros _ Hin. by apply elem_of_nil in Hin.
  - rewrite NoDup_cons. intros [Hk' Hnd] Hin.
    apply elem_of_cons in Hin as [[= -> ->]|Hin].
    + by rewrite decide_True.
    + rewrite decide_False; [by apply IH|].
      intros ->. apply Hk'. apply list_elem_of_fmap. by exists (k, v).
Qed.

Lemma jsmap_keys_set_new k v m :
  JsMap.get k m = None → JsMap.set k v m = m ++ [(k, v)].
Proof.
  induction m as [|[k' v'] m IH]; simpl; [done|].
  destruct (decide (k' = k)); [done|]. intros Hg. by rewrite IH.
Qed.

Lemma jsmap_delete_filter k m :
  JsMap.delete k m = filter (λ e, e.1 ≠ k) m.
Proof.
  induction m as [|[k' v'] m IH]; simpl; [done|].
  destruct (decide (k' = k)) as [->|Hne].
  - rewrite filter_cons_False; [done | simpl; by intros ?].
  - rewrite filter_cons_True; [by rewrite IH | done].
Qed.
End JsMapFacts.

(** ** Arithmetic used by the respawn guard *)

Lemma num_lt_true (a b : Q) : num_lt a b = true ↔ (a < b)%Q.
Proof.
  unfold num_lt. rewrite negb_true_iff.
  destruct (Qle_bool b a) eqn:E.
  - apply Qle_bool_iff in E. split; [done|]. intros Hlt.
    exfalso. apply (Qlt_not_le _ _ Hlt E).
  - split; [intros _ | done]. apply Qnot_le_lt. intros Hle.
    apply Qle_bool_iff in Hle. congruence.
Qed.

Lemma num_lt_false (a b : Q) : num_lt a b = false ↔ (b <= a)%Q.
Proof.
  unfold num_lt. rewrite negb_false_iff. apply Qle_bool_iff.
Qed.

(** *** Rounding to a double *)

Lemma pow2_pos (k : Z) : (0 < pow2 k)%Q.
Proof. by apply Qpower_0_lt. Qed.

Lemma pow2_add (a b : Z) : (pow2 (a + b) == pow2 a * pow2 b)%Q.
Proof. unfold pow2. by apply Qpower_plus. Qed.

Lemma pow2_le (a b : Z) : a <= b → (pow2 a <= pow2 b)%Q.
Proof. intros H. by apply Qpower_le_compat_l. Qed.

Lemma pow2_lt (a b : Z) : a < b → (pow2 a < pow2 b)%Q.
Proof. intros H. by apply Qpower_lt_compat_l. Qed.

Lemma pow2_inject (k : Z) : 0 <= k → (pow2 k == inject_Z (2 ^ k))%Q.
Proof. intros H. unfold pow2. by rewrite Zpower_Qpower. Qed.

Lemma floorLog2_le (q : Q) : (0 < q)%Q → (pow2 (floorLog2 q) <= q)%Q.
Proof.
  intros Hq. unfold floorLog2.
  set (k := Z.log2 (Qnum q) - Z.log2 (Z.pos (Qden q))).
  destruct (Qle_bool (pow2 k) q) eqn:E; [by apply Qle_bool_iff|].
  destruct q as [n d]. simpl in k.
  assert (Hn : 0 < n) by (unfold Qlt in Hq; simpl in Hq; lia).
  pose proof (Z.log2_spec n Hn) as [Hln _].
  pose proof (Z.log2_spec (Z.pos d) (Pos2Z.is_pos d)) as [_ Hld].
  pose proof (Z.log2_nonneg n) as Hln0.
  pose proof (Z.log2_nonneg (Z.pos d)) as Hld0.
  replace (k - 1) with (Z.log2 n + - Z.succ (Z.log2 (Z.pos d)))
    by (unfold k; simpl; lia).
  rewrite pow2_add. unfold pow2 at 2. rewrite Qpower_opp.
  fold (pow2 (Z.succ (Z.log2 (Z.pos d)))).
  rewrite !pow2_inject by lia.
  set (A := 2 ^ Z.log2 n) in *. set (B := 2 ^ Z.succ (Z.log2 (Z.pos d))) in *.
  assert (HB : 0 < B) by lia.
  assert (HA : 0 < A) by (subst A; by apply Z.pow_pos_nonneg).
  destruct B as [|B|B]; try lia.
  unfold Qle, Qmult, Qinv. simpl. nia.
Qed.

Lemma floorLog2_lt (q : Q) : (0 < q)%Q → (q < pow2 (floorLog2 q + 1))%Q.
Proof.
  intros Hq. unfold floorLog2.
  set (k := Z.log2 (Qnum q) - Z.log2 (Z.pos (Qden q))).
  destruct (Qle_bool (pow2 k) q) eqn:E.
  - destruct q as [n d]. simpl in k.
    assert (Hn : 0 < n) by (unfold Qlt in Hq; simpl in Hq; lia).
    pose proof (Z.log2_spec n Hn) as [_ Hln].
    pose proof (Z.log2_spec (Z.pos d) (Pos2Z.is_pos d)) as [Hld _].
    pose proof (Z.log2_nonneg n) as Hln0.
    pose proof (Z.log2_nonneg (Z.pos d)) as Hld0.
    replace (k + 1) with (Z.succ (Z.log2 n) + - Z.log2 (Z.pos d))
      by (unfold k; simpl; lia).
    rewrite pow2_add. unfold pow2 at 2. rewrite Qpower_opp.
    fold (pow2 (Z.log2 (Z.pos d))).
    rewrite !pow2_inject by lia.
    set (A := 2 ^ Z.succ (Z.log2 n)) in *. set (B := 2 ^ Z.log2 (Z.pos d)) in *.
    assert (HB : 0 < B) by (subst B; by apply Z.pow_pos_nonneg).
    destruct B as [|B|B]; try lia.
    unfold Qlt, Qmult, Qinv. simpl. nia.
  - replace (k - 1 + 1) with k by lia. apply Qnot_le_lt. intros Hle.
    apply Qle_bool_iff in Hle. congruence.
Qed.

Lemma roundHalfEven_nonneg (y : Q) : (0 <= y)%Q → 0 <= roundHalfEven y.
Proof.
  intros Hy. unfold roundHalfEven.
  assert (Hf : 0 <= Qfloor y).
  { change 0 with (Qfloor 0). by apply Qfloor_resp_le. }
  destruct (y - inject_Z (Qfloor y) ?= 1 # 2)%Q;
    [destruct (Z.even (Qfloor y))|..]; lia.
Qed.

Lemma roundHalfEven_pos (y : Q) :
  (0 <= y)%Q → 0 < roundHalfEven y ↔ (1 # 2 < y)%Q.
Proof.
  intros Hy. unfold roundHalfEven.
  pose proof (Qfloor_le y) as Hlo.
  assert (Hf : 0 <= Qfloor y).
  { change 0 with (Qfloor 0). by apply Qfloor_resp_le. }
  set (f := Qfloor y) in *.
  destruct (Z.eq_dec f 0) as [Hz|Hnz].
  - rewrite Hz. clear Hlo.
    assert (Heq : (y - inject_Z 0 == y)%Q) by (unfold inject_Z; ring).
    rewrite Heq.
    destruct (y ?= 1 # 2)%Q eqn:E; simpl.
    + apply Qeq_alt in E. rewrite E.
      split; intros H; [lia | exfalso; exact (Qlt_irrefl _ H)].
    + apply Qlt_alt in E. split; [lia|]. intros H.
      exfalso. exact (Qlt_irrefl y (Qlt_trans _ _ _ E H)).
    + apply Qgt_alt in E. split; [done | lia].
  - assert (H1 : (1 # 2 < y)%Q).
    { eapply Qlt_le_trans; [|exact Hlo].
      unfold Qlt, inject_Z. simpl. lia. }
    split; [done|]. intros _.
    destruct (y - inject_Z f ?= 1 # 2)%Q; [destruct (Z.even f)|..]; lia.
Qed.

(** A positive number is rounded to zero when it is at most half the
    least positive double, and to a positive number otherwise. *)
Lemma roundPositive_pos (a : Q) :
  (0 < a)%Q → (0 < roundPositive a)%Q ↔ (pow2 (-1075) < a)%Q.
Proof.
  intros Ha. unfold roundPositive.
  set (e := lastDigit a).
  set (m := roundHalfEven (a * pow2 (- e))).
  assert (Hy : (0 <= a * pow2 (- e))%Q).
  { apply Qmult_le_0_compat; [by apply Qlt_le_weak|].
    apply Qlt_le_weak, pow2_pos. }
  assert (Hm : 0 < m ↔ (pow2 (e - 1) < a)%Q).
  { subst m. rewrite (roundHalfEven_pos _ Hy).
    assert (Hsplit : (a == a * pow2 (- e) * pow2 e)%Q).
    { rewrite <- Qmult_assoc, <- pow2_add.
      replace (- e + e) with 0 by lia. unfold pow2. simpl. ring. }
    assert (Hhalf : (pow2 (e - 1) == (1 # 2) * pow2 e)%Q).
    { replace (e - 1) with (-1 + e) by lia. rewrite pow2_add. reflexivity. }
    rewrite Hhalf. rewrite Hsplit at 2.
    rewrite Qmult_lt_r by apply pow2_pos. done. }
  assert (Hr : (0 < inject_Z m * pow2 e)%Q ↔ 0 < m).
  { split.
    - intros H. destruct (Z_lt_le_dec 0 m) as [|Hle]; [done|]. exfalso.
      apply (Qlt_irrefl 0). eapply Qlt_le_trans; [exact H|].
      rewrite <- (Qmult_0_l (pow2 e)). apply Qmult_le_compat_r.
      + unfold Qle, inject_Z. simpl. lia.
      + apply Qlt_le_weak, pow2_pos.
    - intros H. apply Qmult_lt_0_compat; [|apply pow2_pos].
      unfold Qlt, inject_Z. simpl. lia. }
  assert (Hgoal : (0 < inject_Z m * pow2 e)%Q ↔ (pow2 (-1075) < a)%Q).
  { rewrite Hr, Hm. subst e. unfold lastDigit.
    destruct (Z.max_spec (-1074) (floorLog2 a - 52)) as [[Hlt ->]|[Hge ->]].
    - pose proof (floorLog2_le a Ha) as Hlo.
      assert (H1 : (pow2 (floorLog2 a - 52 - 1) < a)%Q).
      { eapply Qlt_le_trans; [|exact Hlo]. apply pow2_lt. lia. }
      assert (H2 : (pow2 (-1075) < a)%Q).
      { eapply Qlt_le_trans; [|exact Hlo]. apply pow2_lt. lia. }
      done.
    - done. }
  destruct (Qle_bool INFINITY (inject_Z m * pow2 e)) eqn:E; [|done].
  apply Qle_bool_iff in E. rewrite <- Hgoal. split; intros _.
  - eapply Qlt_le_trans; [apply (pow2_pos 1024) | exact E].
  - apply pow2_pos.
Qed.

Lemma roundPositive_nonneg (a : Q) : (0 < a)%Q → (0 <= roundPositive a)%Q.
Proof.
  intros Ha. unfold roundPositive.
  destruct (Qle_bool _ _); [apply Qlt_le_weak, pow2_pos|].
  apply Qmult_le_0_compat; [|apply Qlt_le_weak, pow2_pos].
  assert (H : 0 <= roundHalfEven (a * pow2 (- lastDigit a))).
  { apply roundHalfEven_nonneg, Qmult_le_0_compat; [by apply Qlt_le_weak|].
    apply Qlt_le_weak, pow2_pos. }
  unfold Qle, inject_Z. simpl. lia.
Qed.

(** A positive number is rounded to zero or to at least the least
    positive double. *)
Lemma roundPositive_least (a : Q) :
  (0 < a)%Q → (roundPositive a == 0)%Q ∨ (MIN_VALUE <= roundPositive a)%Q.
Proof.
  intros Ha. unfold roundPositive, MIN_VALUE.
  set (e := lastDigit a).
  assert (He : -1074 <= e) by (subst e; unfold lastDigit; lia).
  assert (Hm : 0 <= roundHalfEven (a * pow2 (- e))).
  { apply roundHalfEven_nonneg, Qmult_le_0_compat; [by apply Qlt_le_weak|].
    apply Qlt_le_weak, pow2_pos. }
  set (m := roundHalfEven (a * pow2 (- e))) in *.
  destruct (Qle_bool INFINITY (inject_Z m * pow2 e)).
  - right. apply pow2_le. lia.
  - destruct (Z.eq_dec m 0) as [->|Hnz].
    + left. apply Qmult_0_l.
    + right. eapply Qle_trans; [apply (pow2_le _ e He)|].
      rewrite <- (Qmult_1_l (pow2 e)) at 1. apply Qmult_le_compat_r.
      * unfold Qle, inject_Z. simpl. lia.
      * apply Qlt_le_weak, pow2_pos.
Qed.

Lemma roundToDouble_proper (x y : Q) :
  (x == y)%Q → roundToDouble x = roundToDouble y.
Proof. intros H. unfold roundToDouble. by rewrite (Qred_complete x y H). Qed.

(** The rounded number is negative exactly when the number is below
    minus half the least positive double: a negative number nearer to
    zero is rounded to zero. *)
Lemma roundToDouble_negative (x : Q) :
  (roundToDouble x < 0)%Q ↔ (x < - pow2 (-1075))%Q.
Proof.
  unfold roundToDouble. cbv zeta.
  assert (Hx : (x < - pow2 (-1075))%Q ↔ (Qred x < - pow2 (-1075))%Q)
    by (by rewrite (Qred_correct x)).
  rewrite Hx. generalize (Qred x). clear x Hx. intros [n d].
  assert (Hneg : (- pow2 (-1075) < 0)%Q).
  { apply (Qopp_lt_compat 0). apply pow2_pos. }
  destruct n as [|n|n]; simpl.
  - split; [intros H; by apply Qlt_irrefl in H|].
    intros H. exfalso. apply (Qlt_irrefl (0 # d)).
    eapply Qlt_trans; [exact H|]. exact Hneg.
  - assert (Hpos : (0 < Z.pos n # d)%Q) by done.
    split.
    + intros H. exfalso. apply (Qlt_irrefl 0).
      eapply Qle_lt_trans; [apply (roundPositive_nonneg _ Hpos) | exact H].
    + intros H. exfalso. apply (Qlt_irrefl 0).
      eapply Qlt_trans; [exact Hpos|]. eapply Qlt_trans; [exact H | exact Hneg].
  - assert (Hpos : (0 < - (Z.neg n # d))%Q) by done.
    pose proof (roundPositive_pos _ Hpos) as Hiff.
    split.
    + intros H. apply (Qopp_lt_compat _ 0) in H.
      rewrite Qopp_involutive in H. change (- 0)%Q with 0%Q in H.
      apply Hiff in H. apply Qopp_lt_compat in H.
      by rewrite Qopp_involutive in H.
    + intros H. apply Qopp_lt_compat in H. rewrite Qopp_involutive in H.
      apply Hiff in H. apply (Qopp_lt_compat 0) in H. exact H.
Qed.

Lemma double_rounds_to_itself (d : Double.t) : (roundToDouble d == d)%Q.
Proof.
  destruct d as [q Hq]. simpl. unfold isDouble in Hq.
  apply andb_true_iff in Hq as [Hq _]. by apply Qeq_bool_iff.
Qed.


Lemma double_negative_greatest (d : Double.t) : (d < 0)%Q → (d <= - MIN_VALUE)%Q.
Proof.
  intros Hd. pose proof (double_rounds_to_itself d) as Hr.
  unfold roundToDouble in Hr. cbv zeta in Hr.
  pose proof (Qred_correct d) as Hred.
  destruct (Qred d) as [n q] eqn:E. simpl in Hr.
  assert (Hneg : (n # q < 0)%Q) by (by rewrite Hred).
  destruct n as [|n|n]; try (by exfalso; revert Hneg; unfold Qlt; simpl; lia).
  assert (Hpos : (0 < - (Z.neg n # q))%Q) by done.
  destruct (roundPositive_least _ Hpos) as [Hz | Hle].
  - exfalso. rewrite Hz in Hr. rewrite <- Hr in Hd. by apply Qlt_irrefl in Hd.
  - rewrite <- Hr. by apply Qopp_le_compat in Hle.
Qed.

Lemma half_MIN_VALUE : (MIN_VALUE / 2 == pow2 (-1075))%Q.
Proof.
  unfold MIN_VALUE. replace (-1075) with (-1074 + -1) by lia.
  rewrite pow2_add. reflexivity.
Qed.

(** *** The product of two doubles *)

(** Multiplying by 1 is exact. *)
Lemma num_mul_one (d : Double.t) : (num_mul d Double.one == d)%Q.
Proof.
  unfold num_mul. rewrite (roundToDouble_proper _ d).
  - apply double_rounds_to_itself.
  - simpl. ring.
Qed.

(** The product is negative, as a double, when the exact product is
    below minus half of [MIN_VALUE]; a negative product nearer to zero
    is a zero. *)
Lemma respawnTime_negative (delay m : Double.t) :
  num_lt (num_mul delay m) 0 = true ↔ (delay * m < - (MIN_VALUE / 2))%Q.
Proof.
  rewrite num_lt_true, half_MIN_VALUE. apply roundToDouble_negative.
Qed.

Lemma respawnTime_nonnegative (delay m : Double.t) :
  (0 <= delay)%Q → (0 <= m)%Q → num_lt (num_mul delay m) 0 = false.
Proof.
  intros Hd Hm. destruct (num_lt (num_mul delay m) 0) eqn:E; [|done].
  apply respawnTime_negative in E. exfalso.
  apply (Qlt_irrefl 0). eapply Qle_lt_trans; [apply (Qmult_le_0_compat _ _ Hd Hm)|].
  eapply Qlt_trans; [exact E|]. rewrite half_MIN_VALUE.
  apply (Qopp_lt_compat 0), pow2_pos.
Qed.


(** The product at some known values: 0.1 * 3 is 0.30000000000000004,
    half of 30 is 15, half of [- MIN_VALUE] is a zero, -1 times
    [MIN_VALUE] is [- MIN_VALUE], and a tenth is no double. *)
Example num_mul_samples :
  (num_mul (Double.mk (3602879701896397 # 36028797018963968) eq_refl)
           (Double.mk 3 eq_refl)
   == 5404319552844596 # 18014398509481984)%Q
  ∧ (num_mul (Double.mk 30 eq_refl) Double.half == 15)%Q
  ∧ (num_mul (Double.mk (- MIN_VALUE) eq_refl) Double.half == 0)%Q
  ∧ (num_mul (Double.mk (-1) eq_refl) (Double.mk MIN_VALUE eq_refl)
     == - MIN_VALUE)%Q
  ∧ isDouble (1 # 10) = false.
Proof. split_and!; by vm_compute. Qed.

(** With the default multiplier every negative delay gives a negative
    product. *)
Lemma full_negative (delay : Double.t) :
  num_lt (num_mul delay Double.one) 0 = true ↔ (delay < 0)%Q.
Proof. by rewrite num_lt_true, num_mul_one. Qed.

(** ** Stale respawns *)

Lemma resume_stale (fuel : nat) (vehicle : VehRef) (token : Token) (w : World) :
  isConnected w vehicle = false ∨ respawnTokens_ w !! vehicle ≠ Some token →
  scheduleVehicleForRespawn_resume fuel vehicle token w = Some w.
Proof.
  intros H. unfold scheduleVehicleForRespawn_resume.
  destruct H as [-> | Hne]; [done|].
  rewrite (bool_decide_eq_false_2 _ Hne). by rewrite orb_true_r.
Qed.

(** ** Contract violations *)

(** C8. Creating the vehicle of a descriptor that already has a live
    vehicle throws, deleting the vehicle of a descriptor that has none
    throws, and the world at the throw is the world at the call. *)
Theorem entity_contract_violations_throw (storedVehicle : StoredRef) (w : World) :
  (is_Some (getLiveVehicle storedVehicle w) →
   createEntity storedVehicle w
   = (Throw "Attempting to create a vehicle that already exists.", w))
  ∧ (getLiveVehicle storedVehicle w = None →
     deleteEntity storedVehicle w
     = (Throw "Attempting to delete an invalid vehicle.", w)).
Proof.
  unfold getLiveVehicle, createEntity, deleteEntity, JsMap.has. split.
  - intros [vehicle ->]. reflexivity.
  - intros ->. reflexivity.
Qed.

(** ** The "never" sentinel *)


(** ** Entering a vehicle *)

(** C5. When a player enters a vehicle that the streamer manages, the
    descriptor gets the recently-used pin and the vehicle loses its
    respawn token, so every respawn still parked for the vehicle does
    nothing when it is resumed; nothing else changes. For a vehicle the
    streamer does not manage the world stays as it is. *)
Theorem enter_vehicle_pins_and_cancels (player : option Player)
    (vehicle : VehRef) (w : World) :
  (∀ storedVehicle, getStoredVehicle vehicle w = Some storedVehicle →
     let w' := onPlayerEnterVehicle player vehicle w in
     isPinned storedVehicle (Some RecentUsagePin) w' = true
     ∧ pinned_ w' = {[ (storedVehicle, RecentUsagePin) ]} ∪ pinned_ w
     ∧ respawnTokens_ w' !! vehicle = None
     ∧ (∀ other, other ≠ vehicle →
          respawnTokens_ w' !! other = respawnTokens_ w !! other)
     ∧ (∀ fuel token,
          scheduleVehicleForRespawn_resume fuel vehicle token w' = Some w')
     ∧ timers w' = timers w ∧ trace w' = trace w ∧ heap w' = heap w
     ∧ vehicles_ w' = vehicles_ w ∧ storedVehicles_ w' = storedVehicles_ w)
  ∧ (getStoredVehicle vehicle w = None →
     onPlayerEnterVehicle player vehicle w = w).
Proof.
  unfold getStoredVehicle, onPlayerEnterVehicle. split.
  - intros storedVehicle ->. simpl.
    assert (Hnone : delete vehicle (respawnTokens_ w) !! vehicle = None)
      by apply lookup_delete_eq.
    repeat split; try reflexivity; try exact Hnone.
    + apply bool_decide_eq_true_2. simpl.
      apply elem_of_union_l. by apply elem_of_singleton.
    + intros other Hne. by apply lookup_delete_ne.
    + intros fuel token. apply resume_stale. right. simpl. by rewrite Hnone.
  - intros ->. reflexivity.
Qed.

(** ** The entity maps *)

Ltac frame_destruct H :=
  let Hdescr := fresh "Hdescr" in let Hplayers := fresh "Hplayers" in
  let Hheap := fresh "Hheap" in let HnextV := fresh "HnextV" in
  let HnextT := fresh "HnextT" in let Hnow := fresh "Hnow" in
  let Htimers := fresh "Htimers" in let Hdist := fresh "Hdist" in
  let Hreg := fresh "Hreg" in let Hpinned := fresh "Hpinned" in
  let Hdisposed := fresh "Hdisposed" in let Hveh := fresh "Hveh" in
  let Hstored := fresh "Hstored" in let Htokens := fresh "Htokens" in
  destruct H as (Hdescr & Hplayers & Hheap & HnextV & HnextT & Hnow
                 & Htimers & Hdist & Hreg & Hpinned & Hdisposed & Hveh
                 & Hstored & Htokens).

Lemma sameButTrace_refl (w : World) : sameButTrace w w.
Proof. by repeat split. Qed.

Lemma sameButTrace_trans (w1 w2 w3 : World) :
  sameButTrace w1 w2 → sameButTrace w2 w3 → sameButTrace w1 w3.
Proof.
  intros H12 H23. frame_destruct H12. frame_destruct H23.
  repeat split; congruence.
Qed.

Lemma sameButTrace_emit (e : Event) (w : World) : sameButTrace w (emit e w).
Proof. by repeat split. Qed.

Lemma synchronizeAccess_step_frame (storedVehicle : StoredRef) (vehicle : VehRef)
    (w : World) (player : Player) :
  sameButTrace w (synchronizeAccess_step storedVehicle vehicle w player).
Proof.
  unfold synchronizeAccess_step, lockForPlayer, unlockForPlayer.
  destruct (negb _); apply sameButTrace_emit.
Qed.

Lemma synchronizeAccessForVehicle_frame (storedVehicle : StoredRef) (w : World) :
  sameButTrace w (synchronizeAccessForVehicle storedVehicle w).
Proof.
  unfold synchronizeAccessForVehicle.
  destruct (JsMap.get _ _) as [vehicle|]; [|apply sameButTrace_refl].
  generalize (players w). intros ps. revert w.
  induction ps as [|p ps IH]; intros w; simpl; [apply sameButTrace_refl|].
  eapply sameButTrace_trans; [|apply IH].
  apply synchronizeAccess_step_frame.
Qed.

Lemma callDeathFn_frame (vehicle : VehRef) (storedVehicle : StoredRef) (w : World) :
  sameButTrace w (callDeathFn vehicle storedVehicle w).
Proof.
  unfold callDeathFn. destruct (StoredVehicle.deathFn _);
    [apply sameButTrace_emit | apply sameButTrace_refl].
Qed.

Lemma consistent_sameButTrace (w w' : World) :
  sameButTrace w w' → consistent w → consistent w'.
Proof.
  intros H [Hk Hi Ha]. frame_destruct H.
  split.
  - congruence.
  - intros sv v. rewrite Hveh, Hstored. apply Hi.
  - intros v sv. rewrite Hstored, HnextV. apply Ha.
Qed.

Lemma newVehicleStreamer_consistent (descr : StoredRef → StoredVehicle.t)
    (ps : list Player) (t dist : Q) :
  consistent (newVehicleStreamer descr ps t dist).
Proof.
  split; simpl.
  - apply NoDup_nil_2.
  - intros sv v. by rewrite lookup_empty.
  - intros v sv. by rewrite lookup_empty.
Qed.

Lemma createEntity_consistent (storedVehicle : StoredRef) (w : World) :
  consistent w → consistent (createEntity storedVehicle w).2.
Proof.
  intros Hc. unfold createEntity, JsMap.has.
  destruct (JsMap.get storedVehicle (vehicles_ w)) as [old|] eqn:Hget; [done|].
  simpl. eapply consistent_sameButTrace;
    [apply synchronizeAccessForVehicle_frame|].
  destruct Hc as [Hk Hi Ha].
  assert (Hfresh : storedVehicles_ w !! nextVehicle w = None).
  { destruct (storedVehicles_ w !! nextVehicle w) as [sv|] eqn:E; [|done].
    apply Ha in E. lia. }
  split; simpl.
  - rewrite (jsmap_keys_set_new _ _ _ Hget). unfold JsMap.keys in *.
    rewrite fmap_app. simpl. apply NoDup_app. split; [done|]. split.
    + intros k Hin Hin'. apply list_elem_of_singleton in Hin' as ->.
      by apply jsmap_get_None_keys in Hget.
    + apply NoDup_singleton.
  - intros sv v. destruct (decide (storedVehicle = sv)) as [->|Hsv].
    + rewrite jsmap_get_set_eq.
      destruct (decide (nextVehicle w = v)) as [->|Hv].
      * by rewrite lookup_insert_eq.
      * rewrite lookup_insert_ne by done. split; [congruence|].
        intros Hs. apply Hi in Hs. congruence.
    + rewrite jsmap_get_set_ne by done.
      destruct (decide (nextVehicle w = v)) as [<-|Hv].
      * rewrite lookup_insert_eq. split; [|congruence].
        intros Hg. apply Hi in Hg. congruence.
      * rewrite lookup_insert_ne by done. apply Hi.
  - intros v sv. destruct (decide (nextVehicle w = v)) as [<-|Hv].
    + intros _. lia.
    + rewrite lookup_insert_ne by done. intros Hs. apply Ha in Hs. lia.
Qed.

Lemma deleteEntity_consistent (storedVehicle : StoredRef) (w : World) :
  consistent w → consistent (deleteEntity storedVehicle w).2.
Proof.
  intros Hc. unfold deleteEntity.
  destruct (JsMap.get storedVehicle (vehicles_ w)) as [vehicle|] eqn:Hget; [|done].
  simpl. destruct Hc as [Hk Hi Ha].
  set (w1 := set_storedVehicles (delete vehicle)
               (set_vehicles (JsMap.delete storedVehicle) w)).
  assert (Hc1 : consistent w1).
  { split; simpl.
    - rewrite jsmap_delete_filter. unfold JsMap.keys in *.
      refine (sublist_NoDup _ _ Hk _).
      apply fmap_sublist, sublist_filter.
    - intros sv v. destruct (decide (storedVehicle = sv)) as [->|Hsv].
      + rewrite jsmap_get_delete_eq. split; [done|].
        intros Hs. apply lookup_delete_Some in Hs as [Hne Hs].
        apply Hi in Hs. congruence.
      + rewrite jsmap_get_delete_ne by done.
        destruct (decide (vehicle = v)) as [->|Hv].
        * rewrite lookup_delete_eq. split; [|done].
          intros Hg. apply Hi in Hg. apply Hi in Hget. congruence.
        * rewrite lookup_delete_ne by done. apply Hi.
    - intros v sv Hs. apply lookup_delete_Some in Hs as [_ Hs].
      by apply Ha in Hs. }
  assert (Hc2 : consistent (callDeathFn vehicle storedVehicle w1)).
  { eapply consistent_sameButTrace; [apply callDeathFn_frame | exact Hc1]. }
  destruct (isConnected _ vehicle); [|exact Hc2].
  destruct Hc2 as [Hk2 Hi2 Ha2].
  split; simpl; [done | done | done].
Qed.

Lemma applyEntityOps_consistent (ops : list EntityOp) (w : World) :
  consistent w → consistent (applyEntityOps ops w).
Proof.
  revert w. induction ops as [|op ops IH]; intros w Hc; [done|].
  simpl. apply IH. destruct op; simpl.
  - by apply createEntity_consistent.
  - by apply deleteEntity_consistent.
Qed.

Lemma consistent_partial_bijection (w : World) :
  consistent w →
  (∀ storedVehicle vehicle,
     getLiveVehicle storedVehicle w = Some vehicle
     ↔ getStoredVehicle vehicle w = Some storedVehicle)
  ∧ (∀ storedVehicle1 storedVehicle2 vehicle,
       getLiveVehicle storedVehicle1 w = Some vehicle →
       getLiveVehicle storedVehicle2 w = Some vehicle →
       storedVehicle1 = storedVehicle2)
  ∧ (∀ storedVehicle vehicle1 vehicle2,
       (storedVehicle, vehicle1) ∈ vehicles_ w →
       (storedVehicle, vehicle2) ∈ vehicles_ w →
       vehicle1 = vehicle2)
  ∧ (∀ vehicle1 vehicle2 storedVehicle,
       getStoredVehicle vehicle1 w = Some storedVehicle →
       getStoredVehicle vehicle2 w = Some storedVehicle →
       vehicle1 = vehicle2).
Proof.
  intros [Hk Hi Ha]. unfold getLiveVehicle, getStoredVehicle.
  split; [exact Hi|]. split; [|split].
  - intros sv1 sv2 v H1 H2. apply Hi in H1, H2. congruence.
  - intros sv v1 v2 H1 H2.
    apply (jsmap_elem_get _ _ _ Hk) in H1, H2. congruence.
  - intros v1 v2 sv H1 H2. apply Hi in H1, H2. congruence.
Qed.

(** C2. Start from a freshly constructed streamer and run any sequence
    of [createEntity] and [deleteEntity] calls (a call that throws
    leaves the world as it found it). Then the two maps are inverse to
    each other: a descriptor maps to a live vehicle exactly when that
    vehicle maps back to the descriptor; no two descriptors share a
    live vehicle, and no descriptor has two live vehicles, in either
    map. *)
Theorem entity_maps_are_mutual_inverses (descr : StoredRef → StoredVehicle.t)
    (ps : list Player) (t dist : Q) (ops : list EntityOp) :
  let w := applyEntityOps ops (newVehicleStreamer descr ps t dist) in
  (∀ storedVehicle vehicle,
     getLiveVehicle storedVehicle w = Some vehicle
     ↔ getStoredVehicle vehicle w = Some storedVehicle)
  ∧ (∀ storedVehicle1 storedVehicle2 vehicle,
       getLiveVehicle storedVehicle1 w = Some vehicle →
       getLiveVehicle storedVehicle2 w = Some vehicle →
       storedVehicle1 = storedVehicle2)
  ∧ (∀ storedVehicle vehicle1 vehicle2,
       (storedVehicle, vehicle1) ∈ vehicles_ w →
       (storedVehicle, vehicle2) ∈ vehicles_ w →
       vehicle1 = vehicle2)
  ∧ (∀ vehicle1 vehicle2 storedVehicle,
       getStoredVehicle vehicle1 w = Some storedVehicle →
       getStoredVehicle vehicle2 w = Some storedVehicle →
       vehicle1 = vehicle2).
Proof.
  intros w. apply consistent_partial_bijection.
  apply applyEntityOps_consistent, newVehicleStreamer_consistent.
Qed.

(** ** The respawn cascade *)

Lemma respawnLink_spec (vehicle : VehRef) (w : World) :
  let w' := respawnLink vehicle w in
  descriptors w' = descriptors w ∧ heap w' = heap w
  ∧ vehicles_ w' = vehicles_ w ∧ storedVehicles_ w' = storedVehicles_ w
  ∧ timers w' = timers w ∧ nextToken w' = nextToken w
  ∧ trace w' = trace w ++ linkEvents w vehicle
  ∧ pinned_ w'
    = match storedVehicles_ w !! vehicle with
      | Some storedVehicle => pinned_ w ∖ {[ (storedVehicle, RecentUsagePin) ]}
      | None => pinned_ w
      end
  ∧ respawnTokens_ w'
    = match storedVehicles_ w !! vehicle with
      | Some _ => delete vehicle (respawnTokens_ w)
      | None => respawnTokens_ w
      end.
Proof.
  unfold respawnLink, linkEvents, deathEvents, respawnEvents, callDeathFn,
    respawnIfConnected, respawn, isConnected, vehicleAt.
  destruct (storedVehicles_ w !! vehicle) as [sv|]; simpl.
  - destruct (StoredVehicle.deathFn (descriptors w sv)) as [h|]; simpl;
      destruct (Vehicle.connected (heap w !!! vehicle)); simpl;
      repeat split; try reflexivity;
      rewrite <- ?app_assoc, ?app_nil_r; reflexivity.
  - destruct (Vehicle.connected (heap w !!! vehicle)); simpl;
      repeat split; try reflexivity; by rewrite app_nil_r.
Qed.

Lemma trailerChain_heap (w w' : World) (start : option VehRef) (chain : list VehRef) :
  heap w' = heap w → trailerChain w' start chain = trailerChain w start chain.
Proof.
  intros Hh. revert start.
  induction chain as [|link rest IH]; intros [v|]; simpl; try done.
  unfold vehicleAt. rewrite Hh. by rewrite IH.
Qed.

Lemma linkEvents_frame (w w' : World) (vehicle : VehRef) :
  descriptors w' = descriptors w → heap w' = heap w →
  storedVehicles_ w' = storedVehicles_ w →
  linkEvents w' vehicle = linkEvents w vehicle.
Proof.
  intros Hd Hh Hs.
  unfold linkEvents, deathEvents, respawnEvents, isConnected, vehicleAt.
  by rewrite Hd, Hh, Hs.
Qed.

Lemma respawnChain_spec (chain : list VehRef) :
  ∀ (fuel : nat) (start : option VehRef) (w : World),
    trailerChain w start chain = true → (length chain ≤ fuel)%nat →
    ∃ w', respawnChain fuel start w = Some w' ∧ cascaded w chain w'.
Proof.
  induction chain as [|link rest IH]; intros fuel start w Hchain Hfuel.
  - destruct start as [v|]; [done|]. exists w. split; [by destruct fuel|].
    unfold cascaded. simpl. rewrite app_nil_r. split_and!; try done.
    intros link sv Hin. by apply elem_of_nil in Hin.
  - destruct start as [v|]; [|done]. simpl in Hchain.
    apply andb_true_iff in Hchain as [Hv Hrest].
    apply bool_decide_eq_true_1 in Hv as <-.
    destruct fuel as [|fuel]; [simpl in Hfuel; lia|]. simpl in Hfuel.
    pose proof (respawnLink_spec v w) as Hlink. simpl in Hlink.
    destruct Hlink as (Hd1 & Hh1 & Hv1 & Hs1 & Ht1 & _ & Htr1 & Hp1 & Hk1).
    destruct (IH fuel (Vehicle.trailer (vehicleAt w v)) (respawnLink v w))
      as (w' & Hrun & Hpost).
    { by rewrite (trailerChain_heap _ _ _ _ Hh1). }
    { lia. }
    exists w'. split; [exact Hrun|].
    destruct Hpost as (Htr & Hman & Hsub & Hkeep & Hoth & Hd & Hh & Hvs & Hs & Ht).
    unfold cascaded. split_and!; try congruence.
    + rewrite Htr, Htr1. simpl. rewrite <- app_assoc. f_equal. f_equal.
      f_equal. apply list_fmap_ext. intros _ u _.
      by apply linkEvents_frame.
    + intros link sv Hin Hsv. apply elem_of_cons in Hin as [->|Hin].
      * split.
        -- apply bool_decide_eq_false_2. intros Hpin. apply Hsub in Hpin.
           rewrite Hp1, Hsv in Hpin.
           apply elem_of_difference in Hpin as [_ Hn]. apply Hn.
           by apply elem_of_singleton.
        -- destruct (decide (v ∈ rest)) as [Hin|Hnin].
           ++ apply (Hman v sv Hin). by rewrite Hs1.
           ++ rewrite (Hoth v (or_introl Hnin)), Hk1, Hsv.
              apply lookup_delete_eq.
      * apply (Hman link sv Hin). by rewrite Hs1.
    + intros p Hp. apply Hsub in Hp. rewrite Hp1 in Hp.
      destruct (storedVehicles_ w !! v); [|done].
      by apply elem_of_difference in Hp as [? _].
    + intros p Hp Hcond. apply Hkeep.
      * rewrite Hp1. destruct (storedVehicles_ w !! v) as [sv|] eqn:Esv; [|done].
        apply elem_of_difference. split; [done|].
        rewrite elem_of_singleton. intros ->. simpl in Hcond.
        destruct Hcond as [Hc|Hc]; [done|].
        apply (Hc v); [apply list_elem_of_here | done].
      * destruct Hcond as [Hc|Hc]; [by left|]. right.
        intros u Hu. rewrite Hs1. apply Hc. by apply list_elem_of_further.
    + intros other Hcond.
      assert (Hrest' : other ∉ rest
                       ∨ storedVehicles_ (respawnLink v w) !! other = None).
      { destruct Hcond as [Hc|Hc]; [left | right; by rewrite Hs1].
        intros Hin. apply Hc. by apply list_elem_of_further. }
      rewrite (Hoth other Hrest'), Hk1.
      destruct (storedVehicles_ w !! v) as [sv|] eqn:Esv; [|done].
      apply lookup_delete_ne. intros <-.
      destruct Hcond as [Hc|Hc]; [|congruence].
      apply Hc, list_elem_of_here.
Qed.

(** C7. A respawn fires for a connected vehicle whose token is still
    the captured one, and [chain] is the vehicle followed by its
    trailer, the trailer of that trailer, and so on. Then the loop ends
    (given turns for every link) and, link by link in chain order, it
    has called the death hook of each managed link that has one and
    then respawned the link if connected; every managed link has lost
    the recently-used pin of its descriptor and its respawn token; no
    other pin and no other token has changed, nor have the maps, the
    vehicles or the timers. *)
Theorem respawn_cascades_through_trailers (fuel : nat) (vehicle : VehRef)
    (token : Token) (w : World) (chain : list VehRef) :
  isConnected w vehicle = true →
  respawnTokens_ w !! vehicle = Some token →
  trailerChain w (Some vehicle) chain = true →
  (length chain ≤ fuel)%nat →
  ∃ w', scheduleVehicleForRespawn_resume fuel vehicle token w = Some w'
    ∧ trace w' = trace w ++ concat (linkEvents w <$> chain)
    ∧ (∀ link storedVehicle,
         link ∈ chain → storedVehicles_ w !! link = Some storedVehicle →
         isPinned storedVehicle (Some RecentUsagePin) w' = false
         ∧ respawnTokens_ w' !! link = None)
    ∧ (∀ p, p ∈ pinned_ w' → p ∈ pinned_ w)
    ∧ (∀ p, p ∈ pinned_ w →
         (p.2 ≠ RecentUsagePin
          ∨ ∀ link, link ∈ chain → storedVehicles_ w !! link ≠ Some p.1) →
         p ∈ pinned_ w')
    ∧ (∀ other,
         (other ∉ chain ∨ storedVehicles_ w !! other = None) →
         respawnTokens_ w' !! other = respawnTokens_ w !! other)
    ∧ descriptors w' = descriptors w ∧ heap w' = heap w
    ∧ vehicles_ w' = vehicles_ w ∧ storedVehicles_ w' = storedVehicles_ w
    ∧ timers w' = timers w.
Proof.
  intros Hconn Htok Hchain Hfuel.
  unfold scheduleVehicleForRespawn_resume.
  rewrite Hconn, (bool_decide_eq_true_2 _ Htok). simpl negb. simpl orb.
  apply (respawnChain_spec chain fuel (Some vehicle) w Hchain Hfuel).
Qed.

(** ** Forced respawn of the unoccupied vehicles *)

Lemma respawnUnoccupied_step_spec (w : World) (entry : StoredRef * VehRef) :
  let w' := respawnUnoccupied_step w entry in
  descriptors w' = descriptors w ∧ heap w' = heap w
  ∧ vehicles_ w' = vehicles_ w ∧ storedVehicles_ w' = storedVehicles_ w
  ∧ timers w' = timers w ∧ nextToken w' = nextToken w
  ∧ pinned_ w' = pinned_ w
  ∧ trace w' = trace w ++ unoccupiedEvents w entry
  ∧ respawnTokens_ w'
    = if bool_decide (0 < Vehicle.occupantCount (vehicleAt w entry.2))%nat
      then respawnTokens_ w else delete entry.2 (respawnTokens_ w).
Proof.
  destruct entry as [sv v].
  unfold respawnUnoccupied_step, unoccupiedEvents, deathEvents, respawnEvents,
    callDeathFn, respawnIfConnected, respawn, isConnected, vehicleAt. simpl.
  destruct (bool_decide (0 < _)%nat); simpl.
  { split_and!; try reflexivity. by rewrite app_nil_r. }
  destruct (StoredVehicle.deathFn (descriptors w sv)) as [h|]; simpl;
    destruct (Vehicle.connected (heap w !!! v)); simpl;
    split_and!; try reflexivity;
    rewrite <- ?app_assoc, ?app_nil_r; reflexivity.
Qed.

Lemma unoccupiedEvents_frame (w w' : World) (entry : StoredRef * VehRef) :
  descriptors w' = descriptors w → heap w' = heap w →
  unoccupiedEvents w' entry = unoccupiedEvents w entry.
Proof.
  intros Hd Hh.
  unfold unoccupiedEvents, deathEvents, respawnEvents, isConnected, vehicleAt.
  by rewrite Hd, Hh.
Qed.

Lemma respawnUnoccupied_fold_spec (l : list (StoredRef * VehRef)) :
  ∀ w : World,
    let w' := foldl respawnUnoccupied_step w l in
    descriptors w' = descriptors w ∧ heap w' = heap w
    ∧ vehicles_ w' = vehicles_ w ∧ storedVehicles_ w' = storedVehicles_ w
    ∧ timers w' = timers w ∧ nextToken w' = nextToken w
    ∧ pinned_ w' = pinned_ w
    ∧ trace w' = trace w ++ concat (unoccupiedEvents w <$> l)
    ∧ (∀ storedVehicle vehicle,
         (storedVehicle, vehicle) ∈ l →
         Vehicle.occupantCount (vehicleAt w vehicle) = 0%nat →
         respawnTokens_ w' !! vehicle = None)
    ∧ (∀ vehicle,
         (∀ storedVehicle, (storedVehicle, vehicle) ∈ l →
            (0 < Vehicle.occupantCount (vehicleAt w vehicle))%nat) →
         respawnTokens_ w' !! vehicle = respawnTokens_ w !! vehicle).
Proof.
  induction l as [|e l IH]; intros w; simpl.
  - rewrite app_nil_r. split_and!; try done.
    intros sv v Hin. by apply elem_of_nil in Hin.
  - pose proof (respawnUnoccupied_step_spec w e) as Hstep. simpl in Hstep.
    destruct Hstep as (Hd1 & Hh1 & Hv1 & Hs1 & Ht1 & Hn1 & Hp1 & Htr1 & Hk1).
    specialize (IH (respawnUnoccupied_step w e)). simpl in IH.
    destruct IH as (Hd & Hh & Hv & Hs & Ht & Hn & Hp & Htr & Hzero & Hocc).
    assert (Hcount : ∀ v, Vehicle.occupantCount
                            (vehicleAt (respawnUnoccupied_step w e) v)
                          = Vehicle.occupantCount (vehicleAt w v)).
    { intros v. unfold vehicleAt. by rewrite Hh1. }
    split_and!; try congruence.
    + rewrite Htr, Htr1, <- app_assoc. f_equal. f_equal. f_equal.
      apply list_fmap_ext. intros _ u _. by apply unoccupiedEvents_frame.
    + intros sv v Hin Hz.
      destruct (decide (v ∈ l.*2)) as [Hl|Hl].
      * apply list_elem_of_fmap in Hl as ([sv' v'] & Heq & Hl).
        simpl in Heq. subst v'.
        apply (Hzero sv' v Hl). by rewrite Hcount.
      * rewrite Hocc.
        -- apply elem_of_cons in Hin as [<-|Hin].
           ++ rewrite Hk1. simpl. rewrite bool_decide_eq_false_2 by lia.
              apply lookup_delete_eq.
           ++ exfalso. apply Hl. apply list_elem_of_fmap. by exists (sv, v).
        -- intros sv' Hin'. exfalso. apply Hl.
           apply list_elem_of_fmap. by exists (sv', v).
    + intros v Hall. rewrite Hocc.
      * rewrite Hk1. destruct e as [sv0 v0]. simpl.
        destruct (decide (v0 = v)) as [->|Hne].
        -- rewrite bool_decide_eq_true_2; [done|].
           apply (Hall sv0), list_elem_of_here.
        -- destruct (bool_decide _); [done|]. by apply lookup_delete_ne.
      * intros sv' Hin'. rewrite Hcount.
        apply (Hall sv'). by apply list_elem_of_further.
Qed.

(** C10. [respawnUnoccupiedVehicles] walks the live vehicles in map
    order. For each one without occupants it deletes the respawn token,
    calls the death hook of the descriptor if there is one and respawns
    the vehicle if it is connected. It leaves the pins as they are, so
    whatever was pinned stays pinned; a vehicle with occupants keeps its
    token and has no call made for it; vehicles, maps and timers do not
    change. *)
Theorem respawnUnoccupiedVehicles_effects (w : World) :
  let w' := respawnUnoccupiedVehicles w in
  pinned_ w' = pinned_ w
  ∧ (∀ storedVehicle tag,
       isPinned storedVehicle tag w' = isPinned storedVehicle tag w)
  ∧ trace w' = trace w ++ concat (unoccupiedEvents w <$> vehicles_ w)
  ∧ (∀ storedVehicle vehicle,
       (storedVehicle, vehicle) ∈ vehicles_ w →
       Vehicle.occupantCount (vehicleAt w vehicle) = 0%nat →
       respawnTokens_ w' !! vehicle = None)
  ∧ (∀ vehicle,
       (∀ storedVehicle, (storedVehicle, vehicle) ∈ vehicles_ w →
          (0 < Vehicle.occupantCount (vehicleAt w vehicle))%nat) →
       respawnTokens_ w' !! vehicle = respawnTokens_ w !! vehicle)
  ∧ (∀ entry,
       (0 < Vehicle.occupantCount (vehicleAt w entry.2))%nat →
       unoccupiedEvents w entry = [])
  ∧ heap w' = heap w ∧ vehicles_ w' = vehicles_ w
  ∧ storedVehicles_ w' = storedVehicles_ w ∧ timers w' = timers w.
Proof.
  intros w'. subst w'. unfold respawnUnoccupiedVehicles.
  pose proof (respawnUnoccupied_fold_spec (vehicles_ w) w) as H. simpl in H.
  destruct H as (Hd & Hh & Hv & Hs & Ht & Hn & Hp & Htr & Hzero & Hocc).
  split_and!; try done.
  - intros sv tag. unfold isPinned. by rewrite Hp.
  - intros entry Hpos. unfold unoccupiedEvents.
    by rewrite bool_decide_eq_true_2.
Qed.

(** ** Scheduling a respawn *)

Lemma scheduleVehicleForRespawn_never (vehicle : VehRef)
    (storedVehicle : StoredRef) (timeMultipler : option Double.t) (w : World) :
  num_lt (num_mul (StoredVehicle.respawnDelay (descriptors w storedVehicle))
                  (default Double.one timeMultipler)) 0 = true →
  scheduleVehicleForRespawn vehicle storedVehicle timeMultipler w
  = unpin storedVehicle RecentUsagePin w.
Proof. intros H. unfold scheduleVehicleForRespawn. by rewrite H. Qed.

Lemma scheduleVehicleForRespawn_timed (vehicle : VehRef)
    (storedVehicle : StoredRef) (timeMultipler : option Double.t) (w : World) :
  num_lt (num_mul (StoredVehicle.respawnDelay (descriptors w storedVehicle))
                  (default Double.one timeMultipler)) 0 = false →
  let w' := scheduleVehicleForRespawn vehicle storedVehicle timeMultipler w in
  respawnTokens_ w' = <[vehicle := nextToken w]> (respawnTokens_ w)
  ∧ nextToken w' = Pos.succ (nextToken w)
  ∧ timers w'
    = timers w
      ++ [mkTimer (now w + num_mul (StoredVehicle.respawnDelay
                                      (descriptors w storedVehicle))
                                   (default Double.one timeMultipler))%Q
                  (RespawnTask vehicle (nextToken w))]
  ∧ pinned_ w' = pinned_ w ∧ trace w' = trace w ∧ heap w' = heap w
  ∧ descriptors w' = descriptors w ∧ now w' = now w
  ∧ vehicles_ w' = vehicles_ w ∧ storedVehicles_ w' = storedVehicles_ w
  ∧ disposed_ w' = disposed_ w.
Proof.
  intros H. unfold scheduleVehicleForRespawn. rewrite H. simpl.
  by split_and!.
Qed.

(** With the halved multiplier the product is negative for the delays
    below [- MIN_VALUE]: every negative double but [- MIN_VALUE], half
    of which is rounded to zero. *)
Lemma halved_negative (delay : Double.t) :
  num_lt (num_mul delay Double.half) 0 = true ↔ (delay < - MIN_VALUE)%Q.
Proof.
  rewrite respawnTime_negative.
  assert (Heq : (- (MIN_VALUE / 2) == (- MIN_VALUE) * (1 # 2))%Q).
  { unfold Qdiv. change (/ 2)%Q with (1 # 2)%Q. ring. }
  rewrite Heq. simpl. by apply Qmult_lt_r.
Qed.

Lemma halved_nonnegative (delay : Double.t) :
  num_lt (num_mul delay Double.half) 0 = false ↔ (- MIN_VALUE <= delay)%Q.
Proof.
  split.
  - intros H. apply Qnot_lt_le. intros Hlt.
    apply halved_negative in Hlt. congruence.
  - intros H. destruct (num_lt (num_mul delay Double.half) 0) eqn:E; [|done].
    apply halved_negative in E. exfalso. by apply (Qlt_not_le _ _ E).
Qed.

Lemma halved_negative_double (delay : Double.t) :
  (delay < - MIN_VALUE)%Q ↔ (delay < 0)%Q ∧ ¬ (delay == - MIN_VALUE)%Q.
Proof.
  assert (Hneg : (- MIN_VALUE < 0)%Q) by apply (Qopp_lt_compat 0), pow2_pos.
  split.
  - intros H. split; [by eapply Qlt_trans|]. intros Heq.
    rewrite Heq in H. by apply Qlt_irrefl in H.
  - intros [Hlt Hne]. pose proof (double_negative_greatest delay Hlt) as Hle.
    apply Qle_lt_or_eq in Hle as [|]; done.
Qed.

(** ** Leaving a vehicle *)

(** C6, as amended. A player leaves a vehicle that the streamer
    manages. If no occupant remains and the respawn delay of the
    descriptor is not negative, a fresh token is given to the vehicle
    and one task for it is parked, due exactly the respawn delay
    (multiplier 1) after now; pins and trace do not change. If occupants
    remain, the world stays as it is. *)
Theorem leave_vehicle_schedules_at_full_delay (player : option Player)
    (vehicle : VehRef) (storedVehicle : StoredRef) (w : World) :
  getStoredVehicle vehicle w = Some storedVehicle →
  let delay := StoredVehicle.respawnDelay (descriptors w storedVehicle) in
  let w' := onPlayerLeaveVehicle player vehicle w in
  (occupantsAfterLeave w vehicle = 0%nat → (0 <= delay)%Q →
     respawnScheduled w w' vehicle delay
     ∧ respawnTokens_ w' = <[vehicle := nextToken w]> (respawnTokens_ w)
     ∧ (∃ t, timers w' = timers w ++ [t]
             ∧ task t = RespawnTask vehicle (nextToken w)
             ∧ (due t == now w + delay)%Q)
     ∧ pinned_ w' = pinned_ w ∧ trace w' = trace w)
  ∧ ((0 < occupantsAfterLeave w vehicle)%nat → w' = w).
Proof.
  intros Hsv delay w'. subst w'.
  unfold getStoredVehicle in Hsv.
  unfold occupantsAfterLeave, onPlayerLeaveVehicle. rewrite Hsv. split.
  - intros Hzero Hdelay.
    rewrite bool_decide_eq_false_2 by lia.
    assert (Hguard : num_lt (num_mul delay (default Double.one None)) 0 = false).
    { apply respawnTime_nonnegative; [done|]. unfold Qle. simpl. lia. }
    pose proof (scheduleVehicleForRespawn_timed vehicle storedVehicle None w
                  Hguard) as Hs. simpl in Hs.
    destruct Hs as (Htok & _ & Htim & Hpin & Htr & _).
    assert (Hdue : (now w + num_mul delay Double.one == now w + delay)%Q)
      by (by rewrite num_mul_one).
    split_and!; try done.
    + eexists _, _. split_and!.
      * rewrite Htok. apply lookup_insert_eq.
      * rewrite Htim. apply elem_of_app. right. apply list_elem_of_here.
      * reflexivity.
      * exact Hdue.
    + eexists. split_and!; [exact Htim | reflexivity | exact Hdue].
  - intros Hpos. by rewrite bool_decide_eq_true_2 by lia.
Qed.

(** ** The drift sweep *)

Lemma driftSweep_step_unfold (w : World) (storedVehicle : StoredRef)
    (vehicle : VehRef) :
  driftSweep_step w (storedVehicle, vehicle)
  = if needsDriftRespawn w storedVehicle vehicle
    then scheduleVehicleForRespawn vehicle storedVehicle (Some Double.half) w
    else w.
Proof.
  unfold driftSweep_step, needsDriftRespawn.
  destruct (isOccupied w vehicle); [done|].
  destruct (bool_decide (is_Some _)); [done|].
  by destruct (stillInPlace w storedVehicle vehicle).
Qed.







Lemma consistent_values_nodup (w : World) :
  consistent w → NoDup (JsMap.values (vehicles_ w)).
Proof.
  intros [Hk Hi Ha]. unfold JsMap.values, JsMap.keys in *.
  apply NoDup_fmap_2_strong; [|by apply NoDup_fmap_1 in Hk].
  intros [sv1 v1] [sv2 v2] H1 H2. simpl. intros <-.
  apply (jsmap_elem_get _ _ _ Hk) in H1, H2.
  apply Hi in H1, H2. congruence.
Qed.

(** The test of the sweep, spelled out: no occupant, no token, and the
    live position more than the threshold away from the canonical one
    or a different virtual world or interior. *)
Lemma needsDriftRespawn_iff (w : World) (storedVehicle : StoredRef)
    (vehicle : VehRef) :
  let d := descriptors w storedVehicle in
  let o := vehicleAt w vehicle in
  needsDriftRespawn w storedVehicle vehicle = true
  ↔ Vehicle.occupantCount o = 0%nat
    ∧ respawnTokens_ w !! vehicle = None
    ∧ ((UnoccupiedRespawnThreshold * UnoccupiedRespawnThreshold
        < Vector.squaredDistanceTo (Vehicle.position o) (StoredVehicle.position d))%Q
       ∨ Vehicle.virtualWorld o ≠ StoredVehicle.virtualWorld d
       ∨ Vehicle.interiorId o ≠ StoredVehicle.interiorId d).
Proof.
  intros d o. unfold needsDriftRespawn, isOccupied, stillInPlace, Vector.closeTo.
  fold d o. rewrite !andb_true_iff, !negb_true_iff.
  rewrite !bool_decide_eq_false, !andb_false_iff, !bool_decide_eq_false.
  unfold num_le. rewrite <- (negb_involutive (Qle_bool _ _)), negb_false_iff.
  change (negb (Qle_bool ?a ?b)) with (num_lt b a). rewrite num_lt_true.
  rewrite <- eq_None_not_Some. split.
  - intros [[Hocc Htok] Hmoved]. split_and!; [lia | done | tauto].
  - intros (Hocc & Htok & Hmoved). split_and!; [lia | done | tauto].
Qed.


(** ** The query *)

Section QueryFacts.
Variable distanceTo : Vector.t → Vector.t → Q.
Variable w : World.
Variable position : Vector.t.

Lemma closest_fold_spec (vs : list VehRef) :
  ∀ acc : option VehRef * Q,
    let r := foldl (closest_step distanceTo w position) acc vs in
    (r.2 <= acc.2)%Q
    ∧ (∀ v, v ∈ vs → (r.2 <= vehicleDistance distanceTo w position v)%Q)
    ∧ ((r = acc ∧ ∀ v, v ∈ vs → (acc.2 < vehicleDistance distanceTo w position v)%Q)
       ∨ ∃ v, v ∈ vs ∧ r.1 = Some v ∧ r.2 = vehicleDistance distanceTo w position v).
Proof.
  induction vs as [|v0 vs IH]; intros acc; simpl.
  - split_and!; [apply Qle_refl | |].
    + intros v Hin. by apply elem_of_nil in Hin.
    + left. split; [done|]. intros v Hin. by apply elem_of_nil in Hin.
  - specialize (IH (closest_step distanceTo w position acc v0)).
    simpl in IH. destruct IH as (Hle & Hmin & Hwho).
    unfold closest_step in Hle, Hmin, Hwho |- *.
    change (distanceTo (Vehicle.position (vehicleAt w v0)) position)
      with (vehicleDistance distanceTo w position v0) in *.
    unfold num_gt in *.
    destruct (num_lt acc.2 (vehicleDistance distanceTo w position v0)) eqn:Hcmp.
    + apply num_lt_true in Hcmp. split_and!; [done | |].
      * intros v Hin. apply elem_of_cons in Hin as [-> | Hin];
          [|by apply Hmin].
        eapply Qle_trans; [exact Hle|]. by apply Qlt_le_weak.
      * destruct Hwho as [[Heq Hfar] | (v & Hin & Hv & Hd)].
        -- left. split; [done|]. intros v Hin.
           apply elem_of_cons in Hin as [-> | Hin]; [done | by apply Hfar].
        -- right. exists v. split_and!; try done.
           by apply list_elem_of_further.
    + apply num_lt_false in Hcmp. simpl in Hle. split_and!.
      * eapply Qle_trans; [exact Hle | exact Hcmp].
      * intros v Hin. apply elem_of_cons in Hin as [-> | Hin];
          [done | by apply Hmin].
      * right. destruct Hwho as [[Heq Hfar] | (v & Hin & Hv & Hd)].
        -- exists v0. rewrite Heq. split_and!; try done.
           apply list_elem_of_here.
        -- exists v. split_and!; try done. by apply list_elem_of_further.
Qed.

(** When some live vehicle is within [MAX_SAFE_INTEGER] of the
    position, the answer is a live vehicle that no live vehicle is
    closer than. *)
Lemma query_closest_minimal :
  (∃ v, v ∈ JsMap.values (vehicles_ w) ∧ (vehicleDistance distanceTo w position v <= MAX_SAFE_INTEGER)%Q) →
  ∃ v, closestVehicle (query distanceTo position w) = Some v
       ∧ v ∈ JsMap.values (vehicles_ w)
       ∧ ∀ u, u ∈ JsMap.values (vehicles_ w) → (vehicleDistance distanceTo w position v <= vehicleDistance distanceTo w position u)%Q.
Proof.
  intros (v0 & Hin0 & Hnear). unfold query. simpl.
  destruct (closest_fold_spec (JsMap.values (vehicles_ w))
              (None, MAX_SAFE_INTEGER)) as (_ & Hmin & Hwho).
  destruct Hwho as [[_ Hfar] | (v & Hin & Hv & Hd)].
  - exfalso. apply (Qlt_not_le _ _ (Hfar v0 Hin0) Hnear).
  - exists v. split_and!; try done.
    intros u Hu. rewrite <- Hd. by apply Hmin.
Qed.

(** When every live vehicle is farther than [MAX_SAFE_INTEGER] from
    the position, or none is live, the answer is no vehicle. *)
Lemma query_closest_none :
  (∀ v, v ∈ JsMap.values (vehicles_ w) → (MAX_SAFE_INTEGER < vehicleDistance distanceTo w position v)%Q) →
  closestVehicle (query distanceTo position w) = None.
Proof.
  intros Hfar. unfold query. simpl.
  destruct (closest_fold_spec (JsMap.values (vehicles_ w))
              (None, MAX_SAFE_INTEGER)) as (Hle & _ & Hwho).
  destruct Hwho as [[-> _] | (v & Hin & Hv & Hd)]; [done|].
  exfalso. apply (Qlt_not_le _ _ (Hfar v Hin)).
  rewrite <- Hd. exact Hle.
Qed.

(** The two counts are sizes of sets: no descriptor and no model is
    counted twice, and the descriptors counted are the registered ones
    within the streaming radius. *)
Lemma query_counts :
  vehicles (query distanceTo position w) = length (super_query position w)
  ∧ NoDup (super_query position w)
  ∧ (∀ storedVehicle,
       storedVehicle ∈ super_query position w
       ↔ storedVehicle ∈ registered_ w
         ∧ Vector.closeTo (StoredVehicle.position (descriptors w storedVehicle))
                          position (streamingDistance w) = true)
  ∧ ∃ modelIds : list Z,
      models (query distanceTo position w) = length modelIds
      ∧ NoDup modelIds
      ∧ ∀ m, m ∈ modelIds
             ↔ ∃ storedVehicle,
                 storedVehicle ∈ super_query position w
                 ∧ m = StoredVehicle.modelId (descriptors w storedVehicle).
Proof.
  unfold query, super_query. simpl. split_and!.
  - done.
  - apply NoDup_remove_dups.
  - intros sv. rewrite elem_of_remove_dups, list_elem_of_filter. tauto.
  - eexists. split_and!; [done | apply NoDup_remove_dups |].
    intros m. rewrite elem_of_remove_dups, list_elem_of_fmap.
    split; intros (sv & H1 & H2); exists sv; done.
Qed.
End QueryFacts.

(** ** Tokens along a history *)

Lemma tokensEvolve_refl (w : World) : tokensEvolve w w.
Proof. split; [lia | by left]. Qed.

Lemma tokensEvolve_trans (w1 w2 w3 : World) :
  tokensEvolve w1 w2 → tokensEvolve w2 w3 → tokensEvolve w1 w3.
Proof.
  intros [Hn12 Ht12] [Hn23 Ht23]. split; [lia|].
  intros v t H3. destruct (Ht23 v t H3) as [H2 | Hnew]; [|right; lia].
  by apply Ht12.
Qed.

Lemma tokensEvolve_fields (w w' : World) :
  nextToken w' = nextToken w → respawnTokens_ w' = respawnTokens_ w →
  tokensEvolve w w'.
Proof. intros Hn Ht. split; [lia|]. intros v t. rewrite Ht. by left. Qed.

Lemma tokensEvolve_delete (w w' : World) (vehicle : VehRef) :
  nextToken w' = nextToken w →
  respawnTokens_ w' = delete vehicle (respawnTokens_ w) →
  tokensEvolve w w'.
Proof.
  intros Hn Ht. split; [lia|]. intros v t. rewrite Ht.
  intros H. apply lookup_delete_Some in H as [_ H]. by left.
Qed.

Lemma tokensEvolve_sameButTrace (w w' : World) :
  sameButTrace w w' → tokensEvolve w w'.
Proof. intros H. frame_destruct H. by apply tokensEvolve_fields. Qed.

Lemma scheduleVehicleForRespawn_evolves (vehicle : VehRef)
    (storedVehicle : StoredRef) (timeMultipler : option Double.t) (w : World) :
  tokensEvolve w (scheduleVehicleForRespawn vehicle storedVehicle timeMultipler w).
Proof.
  destruct (num_lt (num_mul (StoredVehicle.respawnDelay
                               (descriptors w storedVehicle))
                            (default Double.one timeMultipler)) 0) eqn:Hguard.
  - rewrite (scheduleVehicleForRespawn_never _ _ _ _ Hguard).
    by apply tokensEvolve_fields.
  - pose proof (scheduleVehicleForRespawn_timed vehicle storedVehicle
                  timeMultipler w Hguard) as Hs. cbv zeta in Hs.
    destruct Hs as (Htok & Hnext & _). split; [lia|].
    intros v t. rewrite Htok, lookup_insert.
    case_decide; [intros [= <-]; right; lia | by left].
Qed.

Lemma createEntity_evolves (storedVehicle : StoredRef) (w : World) :
  tokensEvolve w (createEntity storedVehicle w).2.
Proof.
  unfold createEntity. destruct (JsMap.has _ _); [apply tokensEvolve_refl|].
  simpl. eapply tokensEvolve_trans;
    [|apply tokensEvolve_sameButTrace, synchronizeAccessForVehicle_frame].
  by apply tokensEvolve_fields.
Qed.

Lemma deleteEntity_evolves (storedVehicle : StoredRef) (w : World) :
  tokensEvolve w (deleteEntity storedVehicle w).2.
Proof.
  unfold deleteEntity.
  destruct (JsMap.get _ _) as [vehicle|]; [|apply tokensEvolve_refl]. simpl.
  set (w1 := set_storedVehicles _ _).
  assert (H1 : tokensEvolve w (callDeathFn vehicle storedVehicle w1)).
  { eapply tokensEvolve_trans;
      [|apply tokensEvolve_sameButTrace, callDeathFn_frame].
    by apply tokensEvolve_fields. }
  destruct (isConnected _ vehicle); [|exact H1].
  eapply tokensEvolve_trans; [exact H1|]. by apply tokensEvolve_fields.
Qed.

Lemma respawnUnoccupiedVehicles_evolves (w : World) :
  tokensEvolve w (respawnUnoccupiedVehicles w).
Proof.
  unfold respawnUnoccupiedVehicles. generalize (vehicles_ w). intros l.
  revert w. induction l as [|e l IH]; intros w; [apply tokensEvolve_refl|].
  simpl. eapply tokensEvolve_trans; [|apply IH].
  pose proof (respawnUnoccupied_step_spec w e) as Hs. cbv zeta in Hs.
  destruct Hs as (_ & _ & _ & _ & _ & Hn & _ & _ & Ht).
  destruct (bool_decide _);
    [by apply tokensEvolve_fields | by eapply tokensEvolve_delete].
Qed.

Lemma synchronizeAccessForPlayer_evolves (player : Player) (w : World) :
  tokensEvolve w (synchronizeAccessForPlayer player w).
Proof.
  unfold synchronizeAccessForPlayer. generalize (vehicles_ w). intros l.
  revert w. induction l as [|e l IH]; intros w; [apply tokensEvolve_refl|].
  simpl. eapply tokensEvolve_trans; [|apply IH].
  apply tokensEvolve_sameButTrace, synchronizeAccess_step_frame.
Qed.

Lemma onPlayerEnterVehicle_evolves (player : option Player) (vehicle : VehRef)
    (w : World) :
  tokensEvolve w (onPlayerEnterVehicle player vehicle w).
Proof.
  unfold onPlayerEnterVehicle.
  destruct (storedVehicles_ w !! vehicle); [|apply tokensEvolve_refl].
  by eapply tokensEvolve_delete.
Qed.

Lemma onTrailerAttached_evolves (fuel : nat) (trailer : VehRef) (w w' : World) :
  ∀ vehicle, onTrailerAttached fuel vehicle trailer w = Some w' →
             tokensEvolve w w'.
Proof.
  induction fuel as [|fuel IH]; intros [v|]; simpl; try done.
  - intros [= <-]. apply tokensEvolve_refl.
  - destruct (storedVehicles_ w !! v) as [sv|]; [|apply IH].
    destruct (bool_decide _); [|apply IH].
    intros [= <-]. apply onPlayerEnterVehicle_evolves.
  - intros [= <-]. apply tokensEvolve_refl.
Qed.

Lemma onPlayerLeaveVehicle_evolves (player : option Player) (vehicle : VehRef)
    (w : World) :
  tokensEvolve w (onPlayerLeaveVehicle player vehicle w).
Proof.
  unfold onPlayerLeaveVehicle.
  destruct (storedVehicles_ w !! vehicle); [|apply tokensEvolve_refl].
  destruct (bool_decide _);
    [apply tokensEvolve_refl | apply scheduleVehicleForRespawn_evolves].
Qed.

Lemma onVehicleSpawn_evolves (vehicle : VehRef) (w : World) :
  tokensEvolve w (onVehicleSpawn vehicle w).
Proof.
  unfold onVehicleSpawn.
  destruct (storedVehicles_ w !! vehicle) as [sv|]; [|apply tokensEvolve_refl].
  destruct (StoredVehicle.respawnFn _); by apply tokensEvolve_fields.
Qed.

Lemma onVehicleDeath_evolves (vehicle : VehRef) (w : World) :
  tokensEvolve w (onVehicleDeath vehicle w).
Proof.
  unfold onVehicleDeath.
  destruct (storedVehicles_ w !! vehicle); [|apply tokensEvolve_refl].
  destruct (bool_decide _);
    [apply tokensEvolve_refl | apply scheduleVehicleForRespawn_evolves].
Qed.

Lemma respawnLink_evolves (vehicle : VehRef) (w : World) :
  tokensEvolve w (respawnLink vehicle w).
Proof.
  pose proof (respawnLink_spec vehicle w) as Hs. cbv zeta in Hs.
  destruct Hs as (_ & _ & _ & _ & _ & Hn & _ & _ & Ht).
  destruct (storedVehicles_ w !! vehicle);
    [by eapply tokensEvolve_delete | by apply tokensEvolve_fields].
Qed.

Lemma respawnChain_evolves (fuel : nat) :
  ∀ (start : option VehRef) (w w' : World),
    respawnChain fuel start w = Some w' → tokensEvolve w w'.
Proof.
  induction fuel as [|fuel IH]; intros [v|] w w'; simpl; try done.
  - intros [= <-]. apply tokensEvolve_refl.
  - intros H. eapply tokensEvolve_trans; [apply respawnLink_evolves|].
    by eapply IH.
  - intros [= <-]. apply tokensEvolve_refl.
Qed.

Lemma driftSweep_evolves (w : World) : tokensEvolve w (driftSweep w).
Proof.
  unfold driftSweep. generalize (vehicles_ w). intros l.
  revert w. induction l as [|[sv v] l IH]; intros w; [apply tokensEvolve_refl|].
  change (foldl driftSweep_step w ((sv, v) :: l))
    with (foldl driftSweep_step (driftSweep_step w (sv, v)) l).
  eapply tokensEvolve_trans; [|apply IH].
  rewrite driftSweep_step_unfold. destruct (needsDriftRespawn w sv v);
    [apply scheduleVehicleForRespawn_evolves | apply tokensEvolve_refl].
Qed.

Lemma resume_evolves (fuel : nat) (k : Task) (w w' : World) :
  resume fuel k w = Some w' → tokensEvolve w w'.
Proof.
  destruct k as [vehicle token|]; simpl.
  - unfold scheduleVehicleForRespawn_resume. destruct (_ || _).
    + intros [= <-]. apply tokensEvolve_refl.
    + apply respawnChain_evolves.
  - intros [= <-]. unfold processUnoccupiedVehicleUpdates.
    destruct (disposed_ w); [apply tokensEvolve_refl|].
    eapply tokensEvolve_trans; [apply driftSweep_evolves|].
    by apply tokensEvolve_fields.
Qed.

Lemma perform_evolves (fuel : nat) (a : Action) (w w' : World) :
  perform fuel a w = Some w' → tokensEvolve w w'.
Proof.
  destruct a; simpl; try (intros [= <-]).
  - apply createEntity_evolves.
  - apply deleteEntity_evolves.
  - apply respawnUnoccupiedVehicles_evolves.
  - apply tokensEvolve_sameButTrace, synchronizeAccessForVehicle_frame.
  - apply synchronizeAccessForPlayer_evolves.
  - apply scheduleVehicleForRespawn_evolves.
  - apply onPlayerEnterVehicle_evolves.
  - apply onPlayerLeaveVehicle_evolves.
  - apply onTrailerAttached_evolves.
  - apply onPlayerLeaveVehicle_evolves.
  - apply onVehicleSpawn_evolves.
  - apply onVehicleDeath_evolves.
  - unfold fireTimer. destruct (timers w !! i) as [t|].
    + intros H. apply resume_evolves in H.
      eapply tokensEvolve_trans; [|exact H]. by apply tokensEvolve_fields.
    + intros [= <-]. apply tokensEvolve_refl.
  - split; [simpl; lia|]. intros v t. simpl. by rewrite lookup_empty.
  - by apply tokensEvolve_fields.
Qed.

Lemma performAll_evolves (fuel : nat) (history : list Action) :
  ∀ w w', performAll fuel history w = Some w' → tokensEvolve w w'.
Proof.
  induction history as [|a rest IH]; intros w w'; simpl.
  - intros [= <-]. apply tokensEvolve_refl.
  - destruct (perform fuel a w) as [w1|] eqn:Ha; [|done].
    intros H. eapply tokensEvolve_trans; [by eapply perform_evolves|].
    by apply IH.
Qed.

(** A token that has been made and is not the token of the vehicle
    never becomes its token again. *)
Lemma superseded_stays (w w' : World) (vehicle : VehRef) (token : Token) :
  tokensEvolve w w' → (token < nextToken w)%positive →
  respawnTokens_ w !! vehicle ≠ Some token →
  respawnTokens_ w' !! vehicle ≠ Some token.
Proof.
  intros [_ Hev] Hmade Hnot H'.
  destruct (Hev vehicle token H') as [H | Hnew]; [done | lia].
Qed.

(** C1. A respawn was scheduled for [vehicle] and captured [token].
    When its timer fires in a world where the token of the vehicle has
    been cleared, or replaced by another one, or where the vehicle is no
    longer connected, the resumed method returns at once and the world
    is the one it found: no pin is removed, no token changes, no death
    hook is called and no vehicle is respawned. Moreover, once the
    token, made earlier, has stopped being the token of the vehicle at
    some moment [w0], it stays so whatever the streamer, its observers,
    its timers and the engine do until the timer fires. *)
Theorem stale_respawn_has_no_effect (fuel : nat) (vehicle : VehRef)
    (token : Token) (w : World) :
  (respawnTokens_ w !! vehicle = None
   ∨ (∃ token', respawnTokens_ w !! vehicle = Some token' ∧ token' ≠ token)
   ∨ isConnected w vehicle = false →
   scheduleVehicleForRespawn_resume fuel vehicle token w = Some w)
  ∧ (∀ (w0 : World) (fuel0 : nat) (history : list Action),
       (token < nextToken w0)%positive →
       respawnTokens_ w0 !! vehicle ≠ Some token →
       performAll fuel0 history w0 = Some w →
       scheduleVehicleForRespawn_resume fuel vehicle token w = Some w).
Proof.
  split.
  - intros [Hnone | [(token' & Hsome & Hne) | Hdis]]; apply resume_stale.
    + right. by rewrite Hnone.
    + right. rewrite Hsome. congruence.
    + by left.
  - intros w0 fuel0 history Hmade Hnot Hrun. apply resume_stale. right.
    apply (superseded_stays w0 w); [|done|done].
    by eapply performAll_evolves.
Qed.

(** ** The entity maps along a history *)

Lemma mapsKept_refl (w : World) : mapsKept w w.
Proof. by split_and!. Qed.

Lemma mapsKept_trans (w1 w2 w3 : World) :
  mapsKept w1 w2 → mapsKept w2 w3 → mapsKept w1 w3.
Proof. intros (? & ? & ?) (? & ? & ?). split_and!; congruence. Qed.

Lemma mapsKept_sameButTrace (w w' : World) : sameButTrace w w' → mapsKept w w'.
Proof. intros H. frame_destruct H. by split_and!. Qed.

Lemma consistent_mapsKept (w w' : World) :
  mapsKept w w' → consistent w → consistent w'.
Proof.
  intros (Hv & Hs & Hn) [Hk Hi Ha]. split.
  - by rewrite Hv.
  - intros sv v. rewrite Hv, Hs. apply Hi.
  - intros v sv. rewrite Hs, Hn. apply Ha.
Qed.

Lemma mapsKept_foldl {A : Type} (step : World → A → World) (l : list A) :
  (∀ w a, mapsKept w (step w a)) → ∀ w, mapsKept w (foldl step w l).
Proof.
  intros Hstep. induction l as [|a l IH]; intros w; [apply mapsKept_refl|].
  simpl. eapply mapsKept_trans; [apply Hstep | apply IH].
Qed.

Lemma scheduleVehicleForRespawn_mapsKept (vehicle : VehRef)
    (storedVehicle : StoredRef) (timeMultipler : option Double.t) (w : World) :
  mapsKept w (scheduleVehicleForRespawn vehicle storedVehicle timeMultipler w).
Proof.
  unfold scheduleVehicleForRespawn. destruct (num_lt _ _); by split_and!.
Qed.

Lemma respawnLink_mapsKept (vehicle : VehRef) (w : World) :
  mapsKept w (respawnLink vehicle w).
Proof.
  unfold respawnLink, callDeathFn, respawnIfConnected, respawn.
  destruct (storedVehicles_ w !! vehicle) as [sv|];
    [destruct (StoredVehicle.deathFn _)|];
    destruct (isConnected _ vehicle); by split_and!.
Qed.

Lemma respawnChain_mapsKept (fuel : nat) :
  ∀ (start : option VehRef) (w w' : World),
    respawnChain fuel start w = Some w' → mapsKept w w'.
Proof.
  induction fuel as [|fuel IH]; intros [v|] w w'; simpl; try done.
  - intros [= <-]. apply mapsKept_refl.
  - intros H. eapply mapsKept_trans; [apply respawnLink_mapsKept|].
    by eapply IH.
  - intros [= <-]. apply mapsKept_refl.
Qed.

Lemma respawnUnoccupied_step_mapsKept (w : World) (entry : StoredRef * VehRef) :
  mapsKept w (respawnUnoccupied_step w entry).
Proof.
  destruct entry as [sv v].
  unfold respawnUnoccupied_step, callDeathFn, respawnIfConnected, respawn.
  destruct (bool_decide _); [apply mapsKept_refl|].
  destruct (StoredVehicle.deathFn _); destruct (isConnected _ v);
    by split_and!.
Qed.

Lemma driftSweep_step_mapsKept (w : World) (entry : StoredRef * VehRef) :
  mapsKept w (driftSweep_step w entry).
Proof.
  destruct entry as [sv v]. rewrite driftSweep_step_unfold.
  destruct (needsDriftRespawn w sv v);
    [apply scheduleVehicleForRespawn_mapsKept | apply mapsKept_refl].
Qed.

Lemma onPlayerEnterVehicle_mapsKept (player : option Player) (vehicle : VehRef)
    (w : World) :
  mapsKept w (onPlayerEnterVehicle player vehicle w).
Proof.
  unfold onPlayerEnterVehicle.
  destruct (storedVehicles_ w !! vehicle); by split_and!.
Qed.

Lemma onPlayerLeaveVehicle_mapsKept (player : option Player) (vehicle : VehRef)
    (w : World) :
  mapsKept w (onPlayerLeaveVehicle player vehicle w).
Proof.
  unfold onPlayerLeaveVehicle.
  destruct (storedVehicles_ w !! vehicle); [|apply mapsKept_refl].
  destruct (bool_decide _);
    [apply mapsKept_refl | apply scheduleVehicleForRespawn_mapsKept].
Qed.

Lemma onTrailerAttached_mapsKept (fuel : nat) (trailer : VehRef) (w w' : World) :
  ∀ vehicle, onTrailerAttached fuel vehicle trailer w = Some w' →
             mapsKept w w'.
Proof.
  induction fuel as [|fuel IH]; intros [v|]; simpl; try done.
  - intros [= <-]. apply mapsKept_refl.
  - destruct (storedVehicles_ w !! v) as [sv|]; [|apply IH].
    destruct (bool_decide _); [|apply IH].
    intros [= <-]. apply onPlayerEnterVehicle_mapsKept.
  - intros [= <-]. apply mapsKept_refl.
Qed.

Lemma resume_mapsKept (fuel : nat) (k : Task) (w w' : World) :
  resume fuel k w = Some w' → mapsKept w w'.
Proof.
  destruct k as [vehicle token|]; simpl.
  - unfold scheduleVehicleForRespawn_resume. destruct (_ || _).
    + intros [= <-]. apply mapsKept_refl.
    + apply respawnChain_mapsKept.
  - intros [= <-]. unfold processUnoccupiedVehicleUpdates.
    destruct (disposed_ w); [apply mapsKept_refl|].
    apply (mapsKept_trans _ (driftSweep w)); [|by split_and!].
    unfold driftSweep. apply mapsKept_foldl, driftSweep_step_mapsKept.
Qed.

Lemma perform_consistent (fuel : nat) (a : Action) (w w' : World) :
  consistent w → perform fuel a w = Some w' → consistent w'.
Proof.
  intros Hc. destruct a; simpl; try (intros [= <-]).
  - by apply createEntity_consistent.
  - by apply deleteEntity_consistent.
  - eapply consistent_mapsKept; [|exact Hc].
    unfold respawnUnoccupiedVehicles.
    apply mapsKept_foldl, respawnUnoccupied_step_mapsKept.
  - eapply consistent_sameButTrace; [|exact Hc].
    apply synchronizeAccessForVehicle_frame.
  - eapply consistent_mapsKept; [|exact Hc].
    unfold synchronizeAccessForPlayer. apply mapsKept_foldl. intros w0 e.
    apply mapsKept_sameButTrace, synchronizeAccess_step_frame.
  - eapply consistent_mapsKept; [|exact Hc].
    apply scheduleVehicleForRespawn_mapsKept.
  - eapply consistent_mapsKept; [|exact Hc].
    apply onPlayerEnterVehicle_mapsKept.
  - eapply consistent_mapsKept; [|exact Hc].
    apply onPlayerLeaveVehicle_mapsKept.
  - intros H. eapply consistent_mapsKept; [|exact Hc].
    by eapply onTrailerAttached_mapsKept.
  - eapply consistent_mapsKept; [|exact Hc].
    apply onPlayerLeaveVehicle_mapsKept.
  - eapply consistent_mapsKept; [|exact Hc]. unfold onVehicleSpawn.
    destruct (storedVehicles_ w !! vehicle) as [sv|]; [|apply mapsKept_refl].
    destruct (StoredVehicle.respawnFn _); by split_and!.
  - eapply consistent_mapsKept; [|exact Hc]. unfold onVehicleDeath.
    destruct (storedVehicles_ w !! vehicle); [|apply mapsKept_refl].
    destruct (bool_decide _);
      [apply mapsKept_refl | apply scheduleVehicleForRespawn_mapsKept].
  - unfold fireTimer. destruct (timers w !! i) as [t|].
    + intros H. apply resume_mapsKept in H.
      eapply consistent_mapsKept; [exact H|].
      eapply consistent_mapsKept; [|exact Hc]. by split_and!.
    + by intros [= <-].
  - split; simpl.
    + apply NoDup_nil_2.
    + intros sv v. by rewrite lookup_empty.
    + intros v sv. by rewrite lookup_empty.
  - eapply consistent_mapsKept; [|exact Hc]. by split_and!.
Qed.

(** The maps of a streamer stay consistent whatever happens to it. *)
Lemma performAll_consistent (fuel : nat) (history : list Action) :
  ∀ w w', consistent w → performAll fuel history w = Some w' → consistent w'.
Proof.
  induction history as [|a rest IH]; intros w w' Hc; simpl.
  - by intros [= <-].
  - destruct (perform fuel a w) as [w1|] eqn:Ha; [|done].
    apply IH. by eapply perform_consistent.
Qed.

(** ** Concrete worlds *)

Lemma timedWorld_consistent (occupants : nat) (position : Vector.t)
    (token : option Token) :
  consistent (timedWorld occupants position token).
Proof.
  split; simpl.
  - apply NoDup_cons. split; [|apply NoDup_singleton].
    intros Hin. by apply list_elem_of_singleton in Hin.
  - intros sv v. rewrite lookup_insert, lookup_singleton.
    repeat case_decide; subst; split; intros Heq; try done;
      injection Heq as Heq; subst; done.
  - intros v sv. rewrite lookup_insert, lookup_singleton.
    repeat case_decide; subst; intros Heq; try done; lia.
Qed.




(** C6, the claim as stated fails: the only occupant leaves the live
    vehicle of a descriptor that is never respawned, the streamer
    manages the vehicle, and no respawn is scheduled for it. *)
Lemma leave_never_descriptor_counterexample :
  getStoredVehicle 1%positive leavingNeverWorld = Some 1%positive
  ∧ occupantsAfterLeave leavingNeverWorld 1%positive = 0%nat
  ∧ ¬ respawnScheduled leavingNeverWorld
        (onPlayerLeaveVehicle (Some 9%positive) 1%positive leavingNeverWorld)
        1%positive
        (StoredVehicle.respawnDelay (descriptors leavingNeverWorld 1%positive)).
Proof.
  split_and!.
  - reflexivity.
  - reflexivity.
  - intros (token & t & Htok & _). vm_compute in Htok. discriminate.
Qed.

(** C9, at the failing input: two vehicles are live and connected, the
    position is 10^16 units from both, further than
    [Number.MAX_SAFE_INTEGER], and the query answers that there is no
    closest vehicle. *)
Theorem query_misses_vehicles_beyond_max_safe_integer :
  JsMap.values (vehicles_ farWorld) = [1%positive; 2%positive]
  ∧ isConnected farWorld 1%positive = true
  ∧ isConnected farWorld 2%positive = true
  ∧ (vehicleDistance axisDistance farWorld farPosition 1%positive
     == 10000000000000000)%Q
  ∧ (vehicleDistance axisDistance farWorld farPosition 2%positive
     == 10000000000000000)%Q
  ∧ (MAX_SAFE_INTEGER < 10000000000000000)%Q
  ∧ closestVehicle (query axisDistance farPosition farWorld) = None.
Proof. split_and!; reflexivity. Qed.

(** Scheduling again supersedes: after a second scheduling for the same
    vehicle the task of the first one finds another token and does
    nothing. *)
Lemma reschedule_supersedes (fuel : nat) (vehicle : VehRef)
    (storedVehicle : StoredRef) (m1 m2 : option Double.t) (w : World) :
  let delay := StoredVehicle.respawnDelay (descriptors w storedVehicle) in
  num_lt (num_mul delay (default Double.one m1)) 0 = false →
  num_lt (num_mul delay (default Double.one m2)) 0 = false →
  let w1 := scheduleVehicleForRespawn vehicle storedVehicle m1 w in
  let w2 := scheduleVehicleForRespawn vehicle storedVehicle m2 w1 in
  respawnTokens_ w1 !! vehicle = Some (nextToken w)
  ∧ scheduleVehicleForRespawn_resume fuel vehicle (nextToken w) w2 = Some w2.
Proof.
  intros delay H1 H2 w1 w2.
  pose proof (scheduleVehicleForRespawn_timed vehicle storedVehicle m1 w H1) as Hs1.
  cbv zeta in Hs1. fold w1 in Hs1.
  destruct Hs1 as (Htok1 & Hnext1 & _ & _ & _ & _ & Hd1 & _).
  assert (H2' : num_lt (num_mul (StoredVehicle.respawnDelay
                                   (descriptors w1 storedVehicle))
                                (default Double.one m2)) 0 = false)
    by (by rewrite Hd1).
  pose proof (scheduleVehicleForRespawn_timed vehicle storedVehicle m2 w1 H2') as Hs2.
  cbv zeta in Hs2. fold w2 in Hs2. destruct Hs2 as (Htok2 & _).
  split.
  - rewrite Htok1. apply lookup_insert_eq.
  - apply resume_stale. right. rewrite Htok2, lookup_insert_eq, Hnext1.
    intros [= H]. lia.
Qed.

(** ** The theorems at concrete worlds *)

(** Descriptor 1 of [pendingWorld] is live, descriptor 3 is not. *)
Lemma entity_contract_violations_throw_witness :
  is_Some (getLiveVehicle 1%positive pendingWorld)
  ∧ getLiveVehicle 3%positive pendingWorld = None
  ∧ createEntity 1%positive pendingWorld
    = (Throw "Attempting to create a vehicle that already exists.", pendingWorld)
  ∧ deleteEntity 3%positive pendingWorld
    = (Throw "Attempting to delete an invalid vehicle.", pendingWorld).
Proof.
  assert (H1 : is_Some (getLiveVehicle 1%positive pendingWorld))
    by (exists 1%positive; reflexivity).
  assert (H3 : getLiveVehicle 3%positive pendingWorld = None) by reflexivity.
  split; [exact H1|]. split; [exact H3|]. split.
  - exact (proj1 (entity_contract_violations_throw 1%positive pendingWorld) H1).
  - exact (proj2 (entity_contract_violations_throw 3%positive pendingWorld) H3).
Defined.


(** A player enters vehicle 1 of [pendingWorld]: descriptor 1 is
    pinned, the token is gone and the task that captured it does
    nothing. *)
Lemma enter_vehicle_pins_and_cancels_witness :
  getStoredVehicle 1%positive pendingWorld = Some 1%positive
  ∧ getStoredVehicle 7%positive pendingWorld = None
  ∧ respawnTokens_ (onPlayerEnterVehicle (Some 9%positive) 1%positive pendingWorld)
      !! 1%positive = None
  ∧ scheduleVehicleForRespawn_resume 2 1%positive 4%positive
      (onPlayerEnterVehicle (Some 9%positive) 1%positive pendingWorld)
    = Some (onPlayerEnterVehicle (Some 9%positive) 1%positive pendingWorld)
  ∧ onPlayerEnterVehicle (Some 9%positive) 7%positive pendingWorld = pendingWorld.
Proof.
  assert (H1 : getStoredVehicle 1%positive pendingWorld = Some 1%positive)
    by reflexivity.
  assert (H7 : getStoredVehicle 7%positive pendingWorld = None) by reflexivity.
  split; [exact H1|]. split; [exact H7|].
  destruct (enter_vehicle_pins_and_cancels (Some 9%positive) 1%positive
              pendingWorld) as [Hmanaged _].
  destruct (Hmanaged 1%positive H1) as (_ & _ & Htok & _ & Hstale & _).
  split; [exact Htok|]. split; [exact (Hstale 2%nat 4%positive)|].
  exact (proj2 (enter_vehicle_pins_and_cancels (Some 9%positive) 7%positive
                  pendingWorld) H7).
Defined.

(** The only occupant leaves vehicle 1 of [leavingWorld], whose
    descriptor has a delay of 30 seconds. *)
Lemma leave_vehicle_schedules_at_full_delay_witness :
  getStoredVehicle 1%positive leavingWorld = Some 1%positive
  ∧ occupantsAfterLeave leavingWorld 1%positive = 0%nat
  ∧ (0 <= StoredVehicle.respawnDelay (descriptors leavingWorld 1%positive))%Q
  ∧ respawnScheduled leavingWorld
      (onPlayerLeaveVehicle (Some 9%positive) 1%positive leavingWorld)
      1%positive
      (StoredVehicle.respawnDelay (descriptors leavingWorld 1%positive)).
Proof.
  assert (Hsv : getStoredVehicle 1%positive leavingWorld = Some 1%positive)
    by reflexivity.
  assert (Hocc : occupantsAfterLeave leavingWorld 1%positive = 0%nat)
    by reflexivity.
  assert (Hd : (0 <= StoredVehicle.respawnDelay
                       (descriptors leavingWorld 1%positive))%Q)
    by (intros H; discriminate H).
  split; [exact Hsv|]. split; [exact Hocc|]. split; [exact Hd|].
  destruct (leave_vehicle_schedules_at_full_delay (Some 9%positive) 1%positive
              1%positive leavingWorld Hsv) as [Hleave _].
  destruct (Hleave Hocc Hd) as (Hsched & _).
  exact Hsched.
Defined.

(** The task of vehicle 1 of [pendingWorld] fires with its token 4: the
    cascade runs over vehicle 1 and its trailer, vehicle 2. *)
Lemma respawn_cascades_through_trailers_witness :
  isConnected pendingWorld 1%positive = true
  ∧ respawnTokens_ pendingWorld !! 1%positive = Some 4%positive
  ∧ trailerChain pendingWorld (Some 1%positive) [1%positive; 2%positive] = true
  ∧ (length [1%positive; 2%positive] ≤ 2)%nat
  ∧ ∃ w', scheduleVehicleForRespawn_resume 2 1%positive 4%positive pendingWorld
          = Some w'
          ∧ trace w'
            = trace pendingWorld
              ++ concat (linkEvents pendingWorld <$> [1%positive; 2%positive]).
Proof.
  assert (Hc : isConnected pendingWorld 1%positive = true) by reflexivity.
  assert (Ht : respawnTokens_ pendingWorld !! 1%positive = Some 4%positive)
    by reflexivity.
  assert (Hch : trailerChain pendingWorld (Some 1%positive)
                  [1%positive; 2%positive] = true) by reflexivity.
  assert (Hf : (length [1%positive; 2%positive] ≤ 2)%nat) by (simpl; lia).
  split; [exact Hc|]. split; [exact Ht|]. split; [exact Hch|].
  split; [exact Hf|].
  destruct (respawn_cascades_through_trailers 2 1%positive 4%positive
              pendingWorld [1%positive; 2%positive] Hc Ht Hch Hf)
    as (w' & Hrun & Htrace & _).
  exists w'. split; [exact Hrun | exact Htrace].
Defined.


(** Vehicle 1 of [pendingWorld] carries token 4, so a task that
    captured token 5 does nothing. In [reenteredWorld] token 5 has been
    made and cleared; the player leaves again (token 6), 30 seconds
    pass, and the task that captured token 5 still does nothing. *)
Lemma stale_respawn_has_no_effect_witness :
  (∃ token', respawnTokens_ pendingWorld !! 1%positive = Some token'
             ∧ token' ≠ 5%positive)
  ∧ scheduleVehicleForRespawn_resume 2 1%positive 5%positive pendingWorld
    = Some pendingWorld
  ∧ (5 < nextToken reenteredWorld)%positive
  ∧ respawnTokens_ reenteredWorld !! 1%positive ≠ Some 5%positive
  ∧ ∃ w, performAll 2
           [OnPlayerLeaveVehicle (Some 9%positive) 1%positive;
            EngineActivity (heap reenteredWorld) 30]
           reenteredWorld = Some w
         ∧ respawnTokens_ w !! 1%positive = Some 6%positive
         ∧ scheduleVehicleForRespawn_resume 2 1%positive 5%positive w = Some w.
Proof.
  assert (H : ∃ token', respawnTokens_ pendingWorld !! 1%positive = Some token'
                        ∧ token' ≠ 5%positive).
  { exists 4%positive. split; [reflexivity | discriminate]. }
  assert (Hmade : (5 < nextToken reenteredWorld)%positive) by reflexivity.
  assert (Hnot : respawnTokens_ reenteredWorld !! 1%positive ≠ Some 5%positive)
    by (vm_compute; discriminate).
  split; [exact H|]. split.
  { apply (proj1 (stale_respawn_has_no_effect 2 1%positive 5%positive
                    pendingWorld)).
    right. left. exact H. }
  split; [exact Hmade|]. split; [exact Hnot|].
  eexists. split; [reflexivity|]. split; [reflexivity|].
  apply (proj2 (stale_respawn_has_no_effect 2 1%positive 5%positive _)
           reenteredWorld 2%nat
           [OnPlayerLeaveVehicle (Some 9%positive) 1%positive;
            EngineActivity (heap reenteredWorld) 30]
           Hmade Hnot).
  reflexivity.
Defined.

(** A schedule superseded by a later one. The only occupant leaves
    vehicle 1 (delay 30 seconds, token 5); 15 seconds later a respawn at
    the half multiplier is scheduled for it (token 6, due 15 seconds
    on). When the first timer elapses nothing is called; when the
    second one elapses the vehicle and its trailer are respawned. *)
Example superseded_schedule_then_respawn :
  option_map trace
    (performAll 2
       [OnPlayerLeaveVehicle (Some 9%positive) 1%positive;
        EngineActivity (heap leavingWorld) 15;
        DoScheduleVehicleForRespawn 1%positive 1%positive (Some Double.half);
        EngineActivity (heap leavingWorld) 30;
        TimerElapses 0]
       leavingWorld)
  = Some []
  ∧ option_map trace
      (performAll 2
         [OnPlayerLeaveVehicle (Some 9%positive) 1%positive;
          EngineActivity (heap leavingWorld) 15;
          DoScheduleVehicleForRespawn 1%positive 1%positive (Some Double.half);
          EngineActivity (heap leavingWorld) 30;
          TimerElapses 0;
          TimerElapses 0]
         leavingWorld)
    = Some [CallDeathFn 7%positive 1%positive 1%positive;
            CallRespawn 1%positive;
            CallDeathFn 7%positive 2%positive 2%positive;
            CallRespawn 2%positive].
Proof. split; vm_compute; reflexivity. Qed.

(** A chain of trailers that closes on itself keeps the loop turning:
    whatever the number of turns allowed, the cascade has not ended. *)
Lemma respawnChain_cycle_never_ends (fuel : nat) (vehicle : VehRef) :
  ∀ w : World,
    Vehicle.trailer (vehicleAt w vehicle) = Some vehicle →
    respawnChain fuel (Some vehicle) w = None.
Proof.
  induction fuel as [|fuel IH]; intros w Hself; simpl; [done|].
  rewrite Hself. apply IH.
  pose proof (respawnLink_spec vehicle w) as Hs. cbv zeta in Hs.
  destruct Hs as (_ & Hh & _). unfold vehicleAt in *. by rewrite Hh.
Qed.

(** * Further properties of the vehicle streamer *)

(** ** Access synchronisation *)

Lemma synchronizeAccess_step_emit (storedVehicle : StoredRef) (vehicle : VehRef)
    (w : World) (player : Player) :
  synchronizeAccess_step storedVehicle vehicle w player
  = emit (accessCall w storedVehicle vehicle player) w.
Proof.
  unfold synchronizeAccess_step, accessCall, lockForPlayer, unlockForPlayer.
  by destruct (hasAccess w storedVehicle player).
Qed.

Lemma synchronizeAccess_players (storedVehicle : StoredRef) (vehicle : VehRef)
    (ps : list Player) :
  ∀ w : World,
    let w' := foldl (synchronizeAccess_step storedVehicle vehicle) w ps in
    sameButTrace w w'
    ∧ trace w' = trace w ++ (accessCall w storedVehicle vehicle <$> ps).
Proof.
  induction ps as [|p ps IH]; intros w; simpl.
  - split; [apply sameButTrace_refl | by rewrite app_nil_r].
  - destruct (IH (synchronizeAccess_step storedVehicle vehicle w p))
      as [Hframe Htrace].
    pose proof (synchronizeAccess_step_frame storedVehicle vehicle w p) as Hstep.
    split; [by eapply sameButTrace_trans|].
    rewrite Htrace, synchronizeAccess_step_emit. simpl.
    by rewrite <- app_assoc.
Qed.

(** X1. [synchronizeAccessForVehicle] on a descriptor that is live
    makes one call for every player of the server, in the order of the
    player manager: the live vehicle is unlocked for a player when the
    descriptor has no access function or the function grants access,
    and locked otherwise. It changes nothing but the trace. For a
    descriptor that is not live it does nothing. *)
Theorem synchronizeAccessForVehicle_calls (storedVehicle : StoredRef) (w : World) :
  (∀ vehicle, getLiveVehicle storedVehicle w = Some vehicle →
     let w' := synchronizeAccessForVehicle storedVehicle w in
     trace w' = trace w ++ (accessCall w storedVehicle vehicle <$> players w)
     ∧ sameButTrace w w'
     ∧ (StoredVehicle.accessFn (descriptors w storedVehicle) = None →
        trace w' = trace w ++ (CallUnlockForPlayer vehicle <$> players w)))
  ∧ (getLiveVehicle storedVehicle w = None →
     synchronizeAccessForVehicle storedVehicle w = w).
Proof.
  unfold getLiveVehicle, synchronizeAccessForVehicle. split.
  - intros vehicle ->.
    destruct (synchronizeAccess_players storedVehicle vehicle (players w) w)
      as [Hframe Htrace].
    split_and!; try done.
    intros Hnone. rewrite Htrace. f_equal. apply list_fmap_ext.
    intros _ p _. unfold accessCall, hasAccess. by rewrite Hnone.
  - by intros ->.
Qed.

Lemma synchronizeAccess_vehicles (player : Player)
    (l : list (StoredRef * VehRef)) :
  ∀ w : World,
    let w' := foldl (λ w entry,
                       synchronizeAccess_step entry.1 entry.2 w player) w l in
    sameButTrace w w'
    ∧ trace w' = trace w ++ ((λ entry, accessCall w entry.1 entry.2 player) <$> l).
Proof.
  induction l as [|e l IH]; intros w; simpl.
  - split; [apply sameButTrace_refl | by rewrite app_nil_r].
  - destruct (IH (synchronizeAccess_step e.1 e.2 w player)) as [Hframe Htrace].
    pose proof (synchronizeAccess_step_frame e.1 e.2 w player) as Hstep.
    split; [by eapply sameButTrace_trans|].
    rewrite Htrace, synchronizeAccess_step_emit. simpl.
    by rewrite <- app_assoc.
Qed.

(** X2. [synchronizeAccessForPlayer] makes one call for every live
    vehicle, in the order of the map: for the given player the vehicle
    is unlocked when its descriptor grants access (or has no access
    function) and locked otherwise. It changes nothing but the trace,
    and with no live vehicle it does nothing at all. *)
Theorem synchronizeAccessForPlayer_calls (player : Player) (w : World) :
  let w' := synchronizeAccessForPlayer player w in
  trace w'
  = trace w ++ ((λ entry, accessCall w entry.1 entry.2 player) <$> vehicles_ w)
  ∧ sameButTrace w w'
  ∧ length (trace w') = (length (trace w) + streamedSize w)%nat
  ∧ (vehicles_ w = [] → w' = w).
Proof.
  intros w'. subst w'. unfold synchronizeAccessForPlayer.
  destruct (synchronizeAccess_vehicles player (vehicles_ w) w) as [Hframe Htrace].
  split_and!; try done.
  - rewrite Htrace, length_app, length_fmap. done.
  - intros ->. done.
Qed.

(** ** Materializing and dematerializing *)

Lemma jsmap_delete_set_new {K V : Type} `{EqDecision K} (k : K) (v : V)
    (m : list (K * V)) :
  JsMap.get k m = None → JsMap.delete k (JsMap.set k v m) = m.
Proof.
  induction m as [|[k' v'] m IH]; simpl.
  - intros _. by rewrite decide_True.
  - destruct (decide (k' = k)) as [->|Hne]; [done|].
    intros Hg. simpl. rewrite decide_False by done. by rewrite IH.
Qed.

Lemma createEntity_maps (storedVehicle : StoredRef) (w : World) :
  JsMap.get storedVehicle (vehicles_ w) = None →
  vehicles_ (createEntity storedVehicle w).2
  = JsMap.set storedVehicle (nextVehicle w) (vehicles_ w)
  ∧ storedVehicles_ (createEntity storedVehicle w).2
    = <[nextVehicle w := storedVehicle]> (storedVehicles_ w).
Proof.
  intros Hget. unfold createEntity, JsMap.has. rewrite Hget. simpl.
  match goal with
  | |- context [synchronizeAccessForVehicle ?sv ?a] =>
      pose proof (synchronizeAccessForVehicle_frame sv a) as Hframe
  end.
  frame_destruct Hframe. by rewrite Hveh, Hstored.
Qed.

Lemma deleteEntity_maps (storedVehicle : StoredRef) (vehicle : VehRef) (w : World) :
  JsMap.get storedVehicle (vehicles_ w) = Some vehicle →
  vehicles_ (deleteEntity storedVehicle w).2
  = JsMap.delete storedVehicle (vehicles_ w)
  ∧ storedVehicles_ (deleteEntity storedVehicle w).2
    = delete vehicle (storedVehicles_ w).
Proof.
  intros Hget. unfold deleteEntity. rewrite Hget.
  unfold callDeathFn, disposeVehicle, isConnected, vehicleAt. simpl.
  destruct (StoredVehicle.deathFn (descriptors w storedVehicle)); simpl;
    destruct (Vehicle.connected (heap w !!! vehicle)); by simpl.
Qed.

Lemma createEntity_spec (storedVehicle : StoredRef) (w : World) :
  getLiveVehicle storedVehicle w = None →
  let vehicle := nextVehicle w in
  let d := descriptors w storedVehicle in
  let w' := (createEntity storedVehicle w).2 in
  (createEntity storedVehicle w).1 = Return vehicle
  ∧ getLiveVehicle storedVehicle w' = Some vehicle
  ∧ getStoredVehicle vehicle w' = Some storedVehicle
  ∧ vehicleAt w' vehicle
    = Vehicle.mk (StoredVehicle.modelId d) (StoredVehicle.position d)
                 (StoredVehicle.interiorId d) (StoredVehicle.virtualWorld d)
                 0 true None None
  ∧ vehicles_ w' = vehicles_ w ++ [(storedVehicle, vehicle)]
  ∧ streamedSize w' = S (streamedSize w)
  ∧ (∀ other, other ≠ storedVehicle →
       getLiveVehicle other w' = getLiveVehicle other w)
  ∧ (∀ other, other ≠ vehicle → vehicleAt w' other = vehicleAt w other)
  ∧ trace w' = trace w ++ (accessCall w storedVehicle vehicle <$> players w)
  ∧ respawnTokens_ w' = respawnTokens_ w ∧ pinned_ w' = pinned_ w
  ∧ timers w' = timers w.
Proof.
  intros Hget vehicle d w'. unfold getLiveVehicle in Hget.
  assert (Hcreate : createEntity storedVehicle w
                    = (Return vehicle,
                       synchronizeAccessForVehicle storedVehicle
                         (set_storedVehicles (insert vehicle storedVehicle)
                            (set_vehicles (JsMap.set storedVehicle vehicle)
                               (createVehicle (StoredVehicle.modelId d)
                                  (StoredVehicle.position d)
                                  (StoredVehicle.interiorId d)
                                  (StoredVehicle.virtualWorld d) w).2)))).
  { unfold createEntity, JsMap.has. by rewrite Hget. }
  subst w'. rewrite Hcreate. simpl fst. simpl snd.
  set (w2 := set_storedVehicles _ _).
  assert (Hlive : JsMap.get storedVehicle (vehicles_ w2) = Some vehicle)
    by apply jsmap_get_set_eq.
  unfold synchronizeAccessForVehicle. rewrite Hlive.
  destruct (synchronizeAccess_players storedVehicle vehicle (players w2) w2)
    as [Hframe Htrace].
  set (w3 := foldl _ w2 (players w2)) in *.
  frame_destruct Hframe.
  unfold getLiveVehicle, getStoredVehicle, vehicleAt, streamedSize.
  rewrite Hveh, Hstored, Hheap, Htokens, Hpinned, Htimers.
  assert (Hset : vehicles_ w2 = vehicles_ w ++ [(storedVehicle, vehicle)])
    by (by apply jsmap_keys_set_new).
  split_and!; try done.
  - simpl. apply lookup_insert_eq.
  - simpl. apply lookup_total_insert_eq.
  - rewrite Hset, length_app. simpl. lia.
  - intros other Hne. simpl. by apply jsmap_get_set_ne.
  - intros other Hne. simpl. by apply lookup_total_insert_ne.
Qed.

(** New objects are handed out in order, so a streamer that only
    creates and deletes vehicles never has an object at a reference it
    has not handed out. *)
Lemma newVehicleStreamer_allocated (descr : StoredRef → StoredVehicle.t)
    (ps : list Player) (t dist : Q) :
  allocated (newVehicleStreamer descr ps t dist).
Proof. intros v [o Ho]. simpl in Ho. by rewrite lookup_empty in Ho. Qed.

Lemma createEntity_allocated (storedVehicle : StoredRef) (w : World) :
  allocated w → allocated (createEntity storedVehicle w).2.
Proof.
  intros Ha. unfold createEntity. destruct (JsMap.has _ _); [done|]. simpl.
  match goal with
  | |- allocated (synchronizeAccessForVehicle ?sv ?a) =>
      pose proof (synchronizeAccessForVehicle_frame sv a) as Hframe
  end.
  frame_destruct Hframe. intros v. unfold allocated in Ha.
  rewrite Hheap, HnextV. simpl. intros Hv.
  destruct (decide (v = nextVehicle w)) as [->|Hne]; [lia|].
  rewrite lookup_insert_ne in Hv by done. apply Ha in Hv. lia.
Qed.

Lemma deleteEntity_allocated (storedVehicle : StoredRef) (w : World) :
  allocated w → allocated (deleteEntity storedVehicle w).2.
Proof.
  intros Ha. unfold deleteEntity.
  destruct (JsMap.get _ _) as [vehicle|]; [|done]. simpl.
  unfold callDeathFn, disposeVehicle.
  destruct (StoredVehicle.deathFn _); destruct (isConnected _ vehicle); simpl;
    intros v Hv; simpl in Hv; try (by apply Ha);
    apply Ha; destruct (decide (v = vehicle)) as [->|Hne];
    try (by rewrite lookup_alter_ne in Hv);
    rewrite lookup_alter_eq in Hv; by apply fmap_is_Some in Hv.
Qed.

Lemma applyEntityOps_allocated (ops : list EntityOp) (w : World) :
  allocated w → allocated (applyEntityOps ops w).
Proof.
  revert w. induction ops as [|op ops IH]; intros w Ha; [done|].
  simpl. apply IH. destruct op; simpl.
  - by apply createEntity_allocated.
  - by apply deleteEntity_allocated.
Qed.

Lemma timedWorld_allocated (occupants : nat) (position : Vector.t)
    (token : option Token) :
  allocated (timedWorld occupants position token).
Proof.
  intros v [o Ho]. simpl in *.
  apply lookup_insert_Some in Ho as [[<- _] | [_ Ho]]; [lia|].
  apply lookup_singleton_Some in Ho as [<- _]. lia.
Qed.

(** X3. On a streamer with consistent maps and no object beyond the
    ones handed out, [createEntity] on a descriptor without a live
    vehicle returns a vehicle object that did not exist before: no
    object was at that reference, the streamer did not manage it and
    no descriptor had it as its live vehicle. The vehicle is connected,
    empty, without trailer, with the model, position, interior and
    virtual world of the descriptor. The descriptor now maps to the
    vehicle, the vehicle back to the descriptor, and no other
    descriptor maps to it; the new entry goes last in the map, so one
    more vehicle is streamed in and no other descriptor changes its
    vehicle. Access to the new vehicle is synchronised for every player;
    tokens, pins and timers are as before, and the two conditions on
    the streamer hold again. *)
Theorem createEntity_materializes (storedVehicle : StoredRef) (w : World) :
  consistent w → allocated w →
  getLiveVehicle storedVehicle w = None →
  let vehicle := nextVehicle w in
  let d := descriptors w storedVehicle in
  let w' := (createEntity storedVehicle w).2 in
  (createEntity storedVehicle w).1 = Return vehicle
  ∧ heap w !! vehicle = None
  ∧ getStoredVehicle vehicle w = None
  ∧ (∀ other, getLiveVehicle other w ≠ Some vehicle)
  ∧ getLiveVehicle storedVehicle w' = Some vehicle
  ∧ getStoredVehicle vehicle w' = Some storedVehicle
  ∧ (∀ other, getLiveVehicle other w' = Some vehicle → other = storedVehicle)
  ∧ vehicleAt w' vehicle
    = Vehicle.mk (StoredVehicle.modelId d) (StoredVehicle.position d)
                 (StoredVehicle.interiorId d) (StoredVehicle.virtualWorld d)
                 0 true None None
  ∧ vehicles_ w' = vehicles_ w ++ [(storedVehicle, vehicle)]
  ∧ streamedSize w' = S (streamedSize w)
  ∧ (∀ other, other ≠ storedVehicle →
       getLiveVehicle other w' = getLiveVehicle other w)
  ∧ (∀ other, other ≠ vehicle → vehicleAt w' other = vehicleAt w other)
  ∧ trace w' = trace w ++ (accessCall w storedVehicle vehicle <$> players w)
  ∧ respawnTokens_ w' = respawnTokens_ w ∧ pinned_ w' = pinned_ w
  ∧ timers w' = timers w
  ∧ consistent w' ∧ allocated w'.
Proof.
  intros Hc Ha Hget vehicle d w'.
  pose proof (createEntity_spec storedVehicle w Hget) as Hs. cbv zeta in Hs.
  fold vehicle d w' in Hs.
  destruct Hs as (Hret & Hlive & Hback & Hobj & Hvs & Hsize & Hothers & Hheap
                  & Htr & Htok & Hpin & Htim).
  assert (Hnew : heap w !! vehicle = None).
  { destruct (heap w !! vehicle) as [o|] eqn:E; [|done].
    assert (Hlt : (vehicle < nextVehicle w)%positive) by (apply Ha; by eexists).
    subst vehicle. lia. }
  assert (Hunmanaged : getStoredVehicle vehicle w = None).
  { unfold getStoredVehicle.
    destruct (storedVehicles_ w !! vehicle) as [sv|] eqn:E; [|done].
    apply (consistent_allocated w Hc) in E. subst vehicle. lia. }
  assert (Hnone : ∀ other, getLiveVehicle other w ≠ Some vehicle).
  { intros other Hother. unfold getLiveVehicle in Hother.
    apply (consistent_inverse w Hc) in Hother.
    unfold getStoredVehicle in Hunmanaged. congruence. }
  split_and!; try done.
  - intros other Hother.
    destruct (decide (other = storedVehicle)) as [|Hne]; [done|].
    rewrite (Hothers other Hne) in Hother. by apply Hnone in Hother.
  - by apply createEntity_consistent.
  - by apply createEntity_allocated.
Qed.

Lemma deleteEntity_spec (storedVehicle : StoredRef) (vehicle : VehRef)
    (w : World) :
  getLiveVehicle storedVehicle w = Some vehicle →
  let w' := (deleteEntity storedVehicle w).2 in
  (deleteEntity storedVehicle w).1 = Return ()
  ∧ getLiveVehicle storedVehicle w' = None
  ∧ getStoredVehicle vehicle w' = None
  ∧ (∀ other, other ≠ storedVehicle →
       getLiveVehicle other w' = getLiveVehicle other w)
  ∧ (∀ other, other ≠ vehicle →
       getStoredVehicle other w' = getStoredVehicle other w)
  ∧ trace w'
    = trace w ++ deathEvents w vehicle storedVehicle
      ++ (if isConnected w vehicle then [CallDispose vehicle] else [])
  ∧ isConnected w' vehicle = false
  ∧ respawnTokens_ w' = respawnTokens_ w ∧ pinned_ w' = pinned_ w
  ∧ timers w' = timers w
  ∧ (∀ fuel token,
       scheduleVehicleForRespawn_resume fuel vehicle token w' = Some w').
Proof.
  intros Hget w'. unfold getLiveVehicle in Hget. subst w'.
  unfold deleteEntity. rewrite Hget. simpl fst. simpl snd.
  unfold getLiveVehicle, getStoredVehicle, callDeathFn, deathEvents,
    disposeVehicle, isConnected, vehicleAt.
  assert (Hoff : ∀ h : gmap VehRef Vehicle.t,
            Vehicle.connected (alter disconnect vehicle h !!! vehicle) = false).
  { intros h. rewrite lookup_total_alter_eq.
    by destruct (h !! vehicle). }
  simpl.
  destruct (StoredVehicle.deathFn (descriptors w storedVehicle)) as [h|];
    simpl; destruct (Vehicle.connected (heap w !!! vehicle)) eqn:Hconn; simpl;
    (split_and!;
     [ done
     | apply jsmap_get_delete_eq
     | apply lookup_delete_eq
     | intros other Hne; by apply jsmap_get_delete_ne
     | intros other Hne; by apply lookup_delete_ne
     | rewrite <- ?app_assoc, ?app_nil_r; done
     | first [apply Hoff | exact Hconn]
     | done | done | done
     | intros fuel token; apply resume_stale; left;
       unfold isConnected, vehicleAt; simpl;
       first [apply Hoff | exact Hconn] ]).
Qed.

(** X4. [deleteEntity] on a descriptor with a live vehicle returns
    normally. Afterwards the descriptor has no live vehicle and the
    vehicle no descriptor, while every other entry of the two maps is as
    before. The death hook of the descriptor is called if there is one,
    then the vehicle is disposed of if it was connected, and it is not
    connected afterwards. The respawn token of the vehicle is not
    removed, nor are pins or timers; a respawn still parked for the
    vehicle does nothing when it is resumed. *)
Theorem deleteEntity_dematerializes (storedVehicle : StoredRef) (vehicle : VehRef)
    (w : World) :
  getLiveVehicle storedVehicle w = Some vehicle →
  let w' := (deleteEntity storedVehicle w).2 in
  (deleteEntity storedVehicle w).1 = Return ()
  ∧ getLiveVehicle storedVehicle w' = None
  ∧ getStoredVehicle vehicle w' = None
  ∧ (∀ other, other ≠ storedVehicle →
       getLiveVehicle other w' = getLiveVehicle other w)
  ∧ (∀ other, other ≠ vehicle →
       getStoredVehicle other w' = getStoredVehicle other w)
  ∧ trace w'
    = trace w ++ deathEvents w vehicle storedVehicle
      ++ (if isConnected w vehicle then [CallDispose vehicle] else [])
  ∧ isConnected w' vehicle = false
  ∧ respawnTokens_ w' = respawnTokens_ w ∧ pinned_ w' = pinned_ w
  ∧ timers w' = timers w
  ∧ (∀ fuel token,
       scheduleVehicleForRespawn_resume fuel vehicle token w' = Some w').
Proof. exact (deleteEntity_spec storedVehicle vehicle w). Qed.

(** X5. Creating the vehicle of a descriptor and deleting it again
    leaves both maps, the number of streamed vehicles, the tokens, the
    pins and the timers exactly as they were, on a streamer whose maps
    are consistent; the vehicle made in between ends up disconnected. *)
Theorem createEntity_deleteEntity_restores (storedVehicle : StoredRef) (w : World) :
  consistent w → getLiveVehicle storedVehicle w = None →
  let w1 := (createEntity storedVehicle w).2 in
  let w2 := (deleteEntity storedVehicle w1).2 in
  (deleteEntity storedVehicle w1).1 = Return ()
  ∧ vehicles_ w2 = vehicles_ w
  ∧ storedVehicles_ w2 = storedVehicles_ w
  ∧ streamedSize w2 = streamedSize w
  ∧ respawnTokens_ w2 = respawnTokens_ w ∧ pinned_ w2 = pinned_ w
  ∧ timers w2 = timers w
  ∧ isConnected w2 (nextVehicle w) = false.
Proof.
  intros Hc Hget w1 w2.
  pose proof (createEntity_spec storedVehicle w Hget) as Hcr.
  cbv zeta in Hcr. fold w1 in Hcr.
  destruct Hcr as (_ & Hlive & Hback & _ & Hvs & _ & _ & _ & _ & Htok & Hpin & Htim).
  pose proof (deleteEntity_spec storedVehicle (nextVehicle w) w1 Hlive)
    as Hdel.
  cbv zeta in Hdel. fold w2 in Hdel.
  destruct Hdel as (Hret & _ & _ & _ & _ & _ & Hoff & Htok2 & Hpin2 & Htim2 & _).
  assert (Hfresh : storedVehicles_ w !! nextVehicle w = None).
  { destruct (storedVehicles_ w !! nextVehicle w) as [sv|] eqn:E; [|done].
    apply (consistent_allocated w Hc) in E. lia. }
  unfold getLiveVehicle in Hget, Hlive.
  destruct (createEntity_maps storedVehicle w Hget) as [Hc1 Hc2].
  destruct (deleteEntity_maps storedVehicle (nextVehicle w) w1 Hlive)
    as [Hd1 Hd2].
  fold w1 in Hc1, Hc2. fold w2 in Hd1, Hd2.
  assert (Hm1 : vehicles_ w2 = vehicles_ w).
  { rewrite Hd1, Hc1. by apply jsmap_delete_set_new. }
  assert (Hm2 : storedVehicles_ w2 = storedVehicles_ w).
  { rewrite Hd2, Hc2. by apply delete_insert_id. }
  split_and!; try congruence.
  unfold streamedSize. by rewrite Hm1.
Qed.

(** ** Death and spawn of a vehicle *)

(** X6. [onVehicleDeath] for a vehicle that the streamer manages and
    that has no occupant schedules a respawn half the respawn delay of
    the descriptor ahead, the half as the product of doubles that the
    code computes, with a fresh token and one new timer, when the delay
    is at least [- MIN_VALUE] (a delay that is not negative, or
    [- MIN_VALUE] itself, half of which is rounded to zero); when the
    delay is below [- MIN_VALUE] (every other negative delay) it gives
    no token, parks nothing and removes the recently-used pin. A vehicle
    with occupants, or one that the streamer does not manage, leaves the
    world as it is. *)
Theorem onVehicleDeath_schedules_at_half_delay (vehicle : VehRef) (w : World) :
  let w' := onVehicleDeath vehicle w in
  (∀ storedVehicle,
     getStoredVehicle vehicle w = Some storedVehicle →
     let delay := StoredVehicle.respawnDelay (descriptors w storedVehicle) in
     (Vehicle.occupantCount (vehicleAt w vehicle) = 0%nat →
      (- MIN_VALUE <= delay)%Q →
        respawnScheduled w w' vehicle (num_mul delay Double.half)
        ∧ respawnTokens_ w' = <[vehicle := nextToken w]> (respawnTokens_ w)
        ∧ timers w'
          = timers w ++ [mkTimer (now w + num_mul delay Double.half)%Q
                                 (RespawnTask vehicle (nextToken w))]
        ∧ pinned_ w' = pinned_ w ∧ trace w' = trace w)
     ∧ (Vehicle.occupantCount (vehicleAt w vehicle) = 0%nat →
        (delay < - MIN_VALUE)%Q →
          respawnTokens_ w' = respawnTokens_ w ∧ timers w' = timers w
          ∧ pinned_ w' = pinned_ w ∖ {[ (storedVehicle, RecentUsagePin) ]}
          ∧ trace w' = trace w)
     ∧ ((0 < Vehicle.occupantCount (vehicleAt w vehicle))%nat → w' = w))
  ∧ (getStoredVehicle vehicle w = None → w' = w).
Proof.
  intros w'. subst w'. unfold getStoredVehicle, onVehicleDeath. split.
  - intros storedVehicle ->. split; [|split].
    + intros Hzero Hdelay. rewrite bool_decide_eq_false_2 by lia.
      apply halved_nonnegative in Hdelay.
      pose proof (scheduleVehicleForRespawn_timed vehicle storedVehicle
                    (Some Double.half) w Hdelay) as Hs. cbv zeta in Hs.
      destruct Hs as (Htok & _ & Htim & Hpin & Htr & _).
      split_and!; try done.
      eexists _, _. split_and!.
      * rewrite Htok. apply lookup_insert_eq.
      * rewrite Htim. apply elem_of_app. right. apply list_elem_of_here.
      * reflexivity.
      * reflexivity.
    + intros Hzero Hdelay. rewrite bool_decide_eq_false_2 by lia.
      apply halved_negative in Hdelay.
      by rewrite (scheduleVehicleForRespawn_never _ _ (Some Double.half) _ Hdelay).
    + intros Hpos. by rewrite bool_decide_eq_true_2.
  - by intros ->.
Qed.

(** X7. [onVehicleSpawn] for a vehicle that the streamer manages puts
    the vehicle back into the interior and the virtual world of its
    descriptor and leaves its other properties and all other vehicles
    alone; then it calls the respawn hook of the descriptor if there is
    one. Afterwards only the position can make the drift sweep consider
    the vehicle out of place. A vehicle that the streamer does not
    manage leaves the world as it is. *)
Theorem onVehicleSpawn_restores_placement (vehicle : VehRef) (w : World) :
  let w' := onVehicleSpawn vehicle w in
  (∀ storedVehicle o,
     getStoredVehicle vehicle w = Some storedVehicle →
     heap w !! vehicle = Some o →
     let d := descriptors w storedVehicle in
     vehicleAt w' vehicle
     = Vehicle.mk (Vehicle.modelId o) (Vehicle.position o)
                  (StoredVehicle.interiorId d) (StoredVehicle.virtualWorld d)
                  (Vehicle.occupantCount o) (Vehicle.connected o)
                  (Vehicle.trailer o) (Vehicle.parent o)
     ∧ (∀ other, other ≠ vehicle → vehicleAt w' other = vehicleAt w other)
     ∧ trace w' = trace w ++ respawnFnEvents w vehicle storedVehicle
     ∧ stillInPlace w' storedVehicle vehicle
       = Vector.closeTo (Vehicle.position o) (StoredVehicle.position d)
                        UnoccupiedRespawnThreshold
     ∧ respawnTokens_ w' = respawnTokens_ w ∧ pinned_ w' = pinned_ w
     ∧ timers w' = timers w ∧ vehicles_ w' = vehicles_ w
     ∧ storedVehicles_ w' = storedVehicles_ w)
  ∧ (getStoredVehicle vehicle w = None → w' = w).
Proof.
  intros w'. subst w'. unfold getStoredVehicle, onVehicleSpawn. split.
  - intros storedVehicle o -> Ho.
    set (d := descriptors w storedVehicle).
    assert (Hat : alter (resetPlacement d) vehicle (heap w) !!! vehicle
                  = resetPlacement d o).
    { by rewrite lookup_total_alter_eq, Ho. }
    unfold respawnFnEvents, stillInPlace, vehicleAt. fold d.
    destruct (StoredVehicle.respawnFn d) as [h|]; simpl; rewrite Hat; simpl;
      rewrite !bool_decide_eq_true_2 by done; rewrite !andb_true_r;
      split_and!; try done;
      try (intros other Hne; by apply lookup_total_alter_ne);
      try (by rewrite ?app_nil_r).
  - by intros ->.
Qed.

(** ** Trailers *)

Lemma onTrailerAttached_spec (trailer : VehRef) (w : World) (chain : list VehRef) :
  ∀ (fuel : nat) (start : option VehRef),
    parentChain w start chain = true → (length chain ≤ fuel)%nat →
    onTrailerAttached fuel start trailer w
    = Some (if existsb (inUse w) chain
            then onPlayerEnterVehicle None trailer w else w).
Proof.
  induction chain as [|link rest IH]; intros fuel start Hchain Hfuel.
  - destruct start as [v|]; [done|]. by destruct fuel.
  - destruct start as [v|]; [|done]. simpl in Hchain.
    apply andb_true_iff in Hchain as [Hv Hrest].
    apply bool_decide_eq_true_1 in Hv as <-.
    destruct fuel as [|fuel]; [simpl in Hfuel; lia|]. simpl in Hfuel.
    cbn [onTrailerAttached existsb]. unfold inUse at 1.
    destruct (storedVehicles_ w !! v) as [sv|].
    + destruct (isPinned sv None w); [done|]. apply IH; [done | lia].
    + apply IH; [done | lia].
Qed.

(** X8. [onTrailerAttached] walks from the towing vehicle up its
    parents. If one of them is managed by the streamer and its
    descriptor is pinned, the trailer is treated as entered: when the
    streamer manages the trailer, its descriptor gets the recently-used
    pin and the trailer loses its respawn token. If no vehicle on the
    way up is in use, nothing changes. The walk ends for every finite
    chain of parents. *)
Theorem onTrailerAttached_marks_trailer_in_use (fuel : nat)
    (vehicle trailer : VehRef) (w : World) (chain : list VehRef) :
  parentChain w (Some vehicle) chain = true → (length chain ≤ fuel)%nat →
  onTrailerAttached fuel (Some vehicle) trailer w
  = Some (if existsb (inUse w) chain
          then onPlayerEnterVehicle None trailer w else w)
  ∧ (existsb (inUse w) chain = true →
     ∀ storedTrailer, getStoredVehicle trailer w = Some storedTrailer →
       ∃ w', onTrailerAttached fuel (Some vehicle) trailer w = Some w'
             ∧ isPinned storedTrailer (Some RecentUsagePin) w' = true
             ∧ respawnTokens_ w' !! trailer = None)
  ∧ (existsb (inUse w) chain = false →
     onTrailerAttached fuel (Some vehicle) trailer w = Some w).
Proof.
  intros Hchain Hfuel.
  pose proof (onTrailerAttached_spec trailer w chain fuel (Some vehicle)
                Hchain Hfuel) as Hspec.
  split; [exact Hspec|]. split.
  - intros Huse storedTrailer Hst. rewrite Hspec, Huse. eexists. split; [done|].
    unfold getStoredVehicle in Hst. unfold onPlayerEnterVehicle. rewrite Hst.
    simpl. split.
    + apply bool_decide_eq_true_2. apply elem_of_union_l.
      by apply elem_of_singleton.
    + apply lookup_delete_eq.
  - intros Huse. by rewrite Hspec, Huse.
Qed.

Lemma nthTrailer_heap (w w' : World) (n : nat) :
  heap w' = heap w → ∀ v, nthTrailer w' n v = nthTrailer w n v.
Proof.
  intros Hh. induction n as [|n IH]; intros v; simpl; [done|].
  unfold vehicleAt. rewrite Hh.
  destruct (Vehicle.trailer (heap w !!! v)); [apply IH | done].
Qed.

Lemma respawnChain_endless (fuel : nat) :
  ∀ (v : VehRef) (w : World),
    (∀ n, is_Some (nthTrailer w n v)) → respawnChain fuel (Some v) w = None.
Proof.
  induction fuel as [|fuel IH]; intros v w Hall; simpl; [done|].
  pose proof (Hall 1%nat) as H1. simpl in H1.
  destruct (Vehicle.trailer (vehicleAt w v)) as [u|] eqn:Hu;
    [|by destruct H1].
  apply IH. intros n.
  pose proof (respawnLink_spec v w) as Hs. cbv zeta in Hs.
  destruct Hs as (_ & Hh & _). rewrite (nthTrailer_heap _ _ _ Hh).
  specialize (Hall (S n)). simpl in Hall. by rewrite Hu in Hall.
Qed.

(** X9. The cascade has no guard against a chain of trailers that
    never ends (one that runs into a loop): when a respawn with a valid
    token fires for a connected vehicle at the head of such a chain, the
    loop over the trailers does not end, whatever number of turns it is
    given. *)
Theorem respawn_cascade_never_ends_on_endless_chain (vehicle : VehRef)
    (token : Token) (w : World) :
  isConnected w vehicle = true →
  respawnTokens_ w !! vehicle = Some token →
  (∀ n, is_Some (nthTrailer w n vehicle)) →
  ∀ fuel, scheduleVehicleForRespawn_resume fuel vehicle token w = None.
Proof.
  intros Hconn Htok Hall fuel. unfold scheduleVehicleForRespawn_resume.
  rewrite Hconn, (bool_decide_eq_true_2 _ Htok). simpl.
  by apply respawnChain_endless.
Qed.

(** ** Disposal of the streamer *)

(** X10. After [dispose] the streamer is marked disposed, no vehicle is
    streamed in, both maps and the tokens are empty, and the timers are
    still parked. Whatever the disposal of the entities does to the live
    vehicles, every task still parked does nothing when it is resumed: a
    respawn finds no token and the drift sweep finds the streamer
    disposed and does not park its next turn. So a timer that elapses
    afterwards only leaves the list of timers and moves the clock. *)
Theorem dispose_silences_parked_tasks (w : World) :
  let w' := dispose w in
  disposed_ w' = true ∧ streamedSize w' = 0%nat
  ∧ (∀ storedVehicle, getLiveVehicle storedVehicle w' = None)
  ∧ (∀ vehicle, getStoredVehicle vehicle w' = None)
  ∧ respawnTokens_ w' = ∅
  ∧ timers w' = timers w
  ∧ (∀ heap' fuel k,
       resume fuel k (set_heap (λ _, heap') w') = Some (set_heap (λ _, heap') w'))
  ∧ (∀ heap' fuel i t, timers w !! i = Some t →
       fireTimer fuel i (set_heap (λ _, heap') w')
       = Some (set_now (due t)
                 (set_timers (λ ts, take i ts ++ drop (S i) ts)
                    (set_heap (λ _, heap') w')))).
Proof.
  intros w'. subst w'. unfold dispose. split_and!; try done.
  - intros heap' fuel [vehicle token|]; [|done]. apply resume_stale. right.
    simpl. by rewrite lookup_empty.
  - intros heap' fuel i t Ht. unfold fireTimer. simpl. rewrite Ht.
    destruct (task t) as [vehicle token|]; [|done].
    apply resume_stale. right. simpl. by rewrite lookup_empty.
Qed.

(** ** A vehicle in use *)

(** X11. The life of a used vehicle. A player enters a connected
    vehicle that the streamer manages, then leaves it as its last
    occupant, and the respawn delay of the descriptor is not negative.
    While the respawn is parked the descriptor stays pinned as recently
    used and the vehicle carries the token of the parked task. When the
    timer fires, for a vehicle without trailer, the pin is removed, the
    token is cleared, the death hook is called if there is one and the
    vehicle is respawned; the entity maps never change. *)
Theorem enter_leave_respawn_cycle (player : option Player) (vehicle : VehRef)
    (storedVehicle : StoredRef) (fuel : nat) (w : World) :
  getStoredVehicle vehicle w = Some storedVehicle →
  (0 <= StoredVehicle.respawnDelay (descriptors w storedVehicle))%Q →
  occupantsAfterLeave w vehicle = 0%nat →
  isConnected w vehicle = true →
  Vehicle.trailer (vehicleAt w vehicle) = None →
  let w1 := onPlayerEnterVehicle player vehicle w in
  let w2 := onPlayerLeaveVehicle player vehicle w1 in
  isPinned storedVehicle (Some RecentUsagePin) w2 = true
  ∧ respawnTokens_ w2 !! vehicle = Some (nextToken w)
  ∧ ∃ w3,
      scheduleVehicleForRespawn_resume (S fuel) vehicle (nextToken w) w2
      = Some w3
      ∧ isPinned storedVehicle (Some RecentUsagePin) w3 = false
      ∧ respawnTokens_ w3 !! vehicle = None
      ∧ trace w3
        = trace w ++ deathEvents w vehicle storedVehicle ++ [CallRespawn vehicle]
      ∧ vehicles_ w3 = vehicles_ w ∧ storedVehicles_ w3 = storedVehicles_ w.
Proof.
  intros Hsv Hdelay Hocc Hconn Htrailer w1 w2.
  unfold getStoredVehicle in Hsv. unfold occupantsAfterLeave in Hocc.
  assert (Hw1 : w1 = set_respawnTokens (delete vehicle)
                       (pin storedVehicle RecentUsagePin w)).
  { subst w1. unfold onPlayerEnterVehicle. by rewrite Hsv. }
  assert (Hguard : num_lt (num_mul (StoredVehicle.respawnDelay
                                      (descriptors w1 storedVehicle))
                                   (default Double.one None)) 0 = false).
  { rewrite Hw1. simpl. apply respawnTime_nonnegative; [done|].
    unfold Qle. simpl. lia. }
  assert (Hw2 : w2 = scheduleVehicleForRespawn vehicle storedVehicle None w1).
  { subst w2. unfold onPlayerLeaveVehicle.
    replace (storedVehicles_ w1) with (storedVehicles_ w) by (by rewrite Hw1).
    rewrite Hsv.
    replace (vehicleAt w1 vehicle) with (vehicleAt w vehicle)
      by (by rewrite Hw1).
    by rewrite bool_decide_eq_false_2 by lia. }
  pose proof (scheduleVehicleForRespawn_timed vehicle storedVehicle None w1
                Hguard) as Hs.
  cbv zeta in Hs. rewrite <- Hw2 in Hs.
  destruct Hs as (Htok & _ & _ & Hpin & Htr & Hh & Hd & _ & Hv & Hs & _).
  assert (Htok2 : respawnTokens_ w2 !! vehicle = Some (nextToken w)).
  { rewrite Htok, Hw1. simpl. apply lookup_insert_eq. }
  assert (Hconn2 : isConnected w2 vehicle = true).
  { unfold isConnected, vehicleAt in *. rewrite Hh, Hw1. exact Hconn. }
  split_and!.
  - apply bool_decide_eq_true_2. rewrite Hpin, Hw1. simpl.
    apply elem_of_union_l. by apply elem_of_singleton.
  - exact Htok2.
  - exists (respawnLink vehicle w2). split.
    + unfold scheduleVehicleForRespawn_resume.
      rewrite Hconn2, (bool_decide_eq_true_2 _ Htok2). simpl.
      replace (vehicleAt w2 vehicle) with (vehicleAt w vehicle)
        by (unfold vehicleAt; by rewrite Hh, Hw1).
      rewrite Htrailer. by destruct fuel.
    + pose proof (respawnLink_spec vehicle w2) as Hl. cbv zeta in Hl.
      destruct Hl as (_ & _ & Hv3 & Hs3 & _ & _ & Htr3 & Hp3 & Hk3).
      assert (Hsv2 : storedVehicles_ w2 !! vehicle = Some storedVehicle)
        by (by rewrite Hs, Hw1).
      rewrite Hsv2 in Hp3, Hk3.
      split_and!.
      * apply bool_decide_eq_false_2. rewrite Hp3.
        rewrite elem_of_difference, elem_of_singleton. by intros [_ Hn].
      * rewrite Hk3. apply lookup_delete_eq.
      * rewrite Htr3, Htr, Hw1. simpl. f_equal.
        unfold linkEvents, deathEvents, respawnEvents.
        by rewrite Hsv2, Hconn2, Hd, Hw1.
      * by rewrite Hv3, Hv, Hw1.
      * by rewrite Hs3, Hs, Hw1.
Qed.

(** ** The number of streamed vehicles *)

Lemma consistent_streamedSize (w : World) :
  consistent w → streamedSize w = size (storedVehicles_ w).
Proof.
  intros Hc. pose proof (consistent_values_nodup w Hc) as Hvals.
  destruct Hc as [Hk Hi Ha]. unfold JsMap.values, JsMap.keys in *.
  unfold streamedSize.
  set (l := prod_swap <$> vehicles_ w).
  assert (Hl1 : l.*1 = (vehicles_ w).*2).
  { subst l. rewrite <- list_fmap_compose. by apply list_fmap_ext; intros _ [] _. }
  assert (Hnd : NoDup l.*1) by (by rewrite Hl1).
  assert (Hmap : (list_to_map l : gmap VehRef StoredRef) = storedVehicles_ w).
  { apply map_eq. intros v. apply option_eq. intros sv.
    rewrite <- (elem_of_list_to_map l v sv Hnd), <- Hi. subst l.
    rewrite list_elem_of_fmap. split.
    - intros ([sv' v'] & Heq & Hin). simpl in Heq. injection Heq as -> ->.
      by apply jsmap_elem_get.
    - intros Hg. exists (sv, v). split; [done|].
      by apply jsmap_get_Some_elem. }
  rewrite <- Hmap, (map_size_list_to_map l Hnd). subst l.
  by rewrite length_fmap.
Qed.

(** X12. Whatever happens to a streamer after its construction, the
    number of streamed vehicles it reports is the number of vehicles that
    map back to a descriptor, and the two maps are inverse to each
    other. *)
Theorem streamedSize_counts_managed_vehicles
    (descr : StoredRef → StoredVehicle.t) (ps : list Player) (t dist : Q)
    (fuel : nat) (history : list Action) (w : World) :
  performAll fuel history (newVehicleStreamer descr ps t dist) = Some w →
  streamedSize w = size (storedVehicles_ w)
  ∧ (∀ storedVehicle vehicle,
       getLiveVehicle storedVehicle w = Some vehicle
       ↔ getStoredVehicle vehicle w = Some storedVehicle).
Proof.
  intros Hrun.
  assert (Hc : consistent w).
  { eapply performAll_consistent; [|exact Hrun].
    apply newVehicleStreamer_consistent. }
  split; [by apply consistent_streamedSize | apply (consistent_inverse w Hc)].
Qed.

(** ** The drift sweep stays parked once *)

Lemma sweepKept_refl (w : World) : sweepKept w w.
Proof. by split. Qed.

Lemma sweepKept_trans (w1 w2 w3 : World) :
  sweepKept w1 w2 → sweepKept w2 w3 → sweepKept w1 w3.
Proof. intros [? ?] [? ?]. split; congruence. Qed.

Lemma sweepKept_fields (w w' : World) :
  timers w' = timers w → disposed_ w' = disposed_ w → sweepKept w w'.
Proof. intros Ht Hd. split; [|done]. unfold sweepsParked. by rewrite Ht. Qed.

Lemma sweepKept_sameButTrace (w w' : World) : sameButTrace w w' → sweepKept w w'.
Proof. intros H. frame_destruct H. by apply sweepKept_fields. Qed.

Lemma sweepKept_foldl {A : Type} (step : World → A → World) (l : list A) :
  (∀ w a, sweepKept w (step w a)) → ∀ w, sweepKept w (foldl step w l).
Proof.
  intros Hstep. induction l as [|a l IH]; intros w; [apply sweepKept_refl|].
  simpl. eapply sweepKept_trans; [apply Hstep | apply IH].
Qed.

Lemma scheduleVehicleForRespawn_sweepKept (vehicle : VehRef)
    (storedVehicle : StoredRef) (timeMultipler : option Double.t) (w : World) :
  sweepKept w (scheduleVehicleForRespawn vehicle storedVehicle timeMultipler w).
Proof.
  unfold scheduleVehicleForRespawn.
  destruct (num_lt _ _); [by apply sweepKept_fields|].
  split; [|done]. unfold sweepsParked. simpl.
  rewrite filter_app, filter_cons_False by (simpl; done).
  by rewrite filter_nil, app_nil_r.
Qed.

Lemma respawnLink_sweepKept (vehicle : VehRef) (w : World) :
  sweepKept w (respawnLink vehicle w).
Proof.
  unfold respawnLink, callDeathFn, respawnIfConnected, respawn.
  destruct (storedVehicles_ w !! vehicle) as [sv|];
    [destruct (StoredVehicle.deathFn _)|];
    destruct (isConnected _ vehicle); by apply sweepKept_fields.
Qed.

Lemma respawnChain_sweepKept (fuel : nat) :
  ∀ (start : option VehRef) (w w' : World),
    respawnChain fuel start w = Some w' → sweepKept w w'.
Proof.
  induction fuel as [|fuel IH]; intros [v|] w w'; simpl; try done.
  - intros [= <-]. apply sweepKept_refl.
  - intros H. eapply sweepKept_trans; [apply respawnLink_sweepKept|].
    by eapply IH.
  - intros [= <-]. apply sweepKept_refl.
Qed.

Lemma respawnUnoccupied_step_sweepKept (w : World) (entry : StoredRef * VehRef) :
  sweepKept w (respawnUnoccupied_step w entry).
Proof.
  destruct entry as [sv v].
  unfold respawnUnoccupied_step, callDeathFn, respawnIfConnected, respawn.
  destruct (bool_decide _); [apply sweepKept_refl|].
  destruct (StoredVehicle.deathFn _); destruct (isConnected _ v);
    by apply sweepKept_fields.
Qed.

Lemma driftSweep_step_sweepKept (w : World) (entry : StoredRef * VehRef) :
  sweepKept w (driftSweep_step w entry).
Proof.
  destruct entry as [sv v]. rewrite driftSweep_step_unfold.
  destruct (needsDriftRespawn w sv v);
    [apply scheduleVehicleForRespawn_sweepKept | apply sweepKept_refl].
Qed.

Lemma onPlayerEnterVehicle_sweepKept (player : option Player) (vehicle : VehRef)
    (w : World) :
  sweepKept w (onPlayerEnterVehicle player vehicle w).
Proof.
  unfold onPlayerEnterVehicle.
  destruct (storedVehicles_ w !! vehicle); by apply sweepKept_fields.
Qed.

Lemma onPlayerLeaveVehicle_sweepKept (player : option Player) (vehicle : VehRef)
    (w : World) :
  sweepKept w (onPlayerLeaveVehicle player vehicle w).
Proof.
  unfold onPlayerLeaveVehicle.
  destruct (storedVehicles_ w !! vehicle); [|apply sweepKept_refl].
  destruct (bool_decide _);
    [apply sweepKept_refl | apply scheduleVehicleForRespawn_sweepKept].
Qed.

Lemma onTrailerAttached_sweepKept (fuel : nat) (trailer : VehRef) (w w' : World) :
  ∀ vehicle, onTrailerAttached fuel vehicle trailer w = Some w' →
             sweepKept w w'.
Proof.
  induction fuel as [|fuel IH]; intros [v|]; simpl; try done.
  - intros [= <-]. apply sweepKept_refl.
  - destruct (storedVehicles_ w !! v) as [sv|]; [|apply IH].
    destruct (bool_decide _); [|apply IH].
    intros [= <-]. apply onPlayerEnterVehicle_sweepKept.
  - intros [= <-]. apply sweepKept_refl.
Qed.

Lemma createEntity_sweepKept (storedVehicle : StoredRef) (w : World) :
  sweepKept w (createEntity storedVehicle w).2.
Proof.
  unfold createEntity. destruct (JsMap.has _ _); [apply sweepKept_refl|].
  simpl. eapply sweepKept_trans;
    [|apply sweepKept_sameButTrace, synchronizeAccessForVehicle_frame].
  by apply sweepKept_fields.
Qed.

Lemma deleteEntity_sweepKept (storedVehicle : StoredRef) (w : World) :
  sweepKept w (deleteEntity storedVehicle w).2.
Proof.
  unfold deleteEntity.
  destruct (JsMap.get _ _) as [vehicle|]; [|apply sweepKept_refl]. simpl.
  unfold callDeathFn, disposeVehicle.
  destruct (StoredVehicle.deathFn _); destruct (isConnected _ vehicle);
    by apply sweepKept_fields.
Qed.

Lemma sweepsParked_remove (w : World) (i : nat) (t : Timer) :
  timers w !! i = Some t →
  sweepsParked w
  = (sweepsParked (set_timers (λ ts, take i ts ++ drop (S i) ts) w)
     + if decide (task t = DriftSweepTask) then 1 else 0)%nat.
Proof.
  intros Ht. unfold sweepsParked. simpl.
  rewrite <- (take_drop_middle _ _ _ Ht) at 1.
  rewrite !filter_app, !length_app.
  destruct (decide (task t = DriftSweepTask)) as [Heq|Hne].
  - rewrite filter_cons_True by done. simpl. lia.
  - rewrite filter_cons_False by done. lia.
Qed.

(** The state of the parked sweep: one turn while the streamer runs, at
    most one once it is disposed. *)
Lemma perform_sweep_parked (fuel : nat) (a : Action) (w w' : World) :
  (disposed_ w = false → sweepsParked w = 1%nat) → (sweepsParked w ≤ 1)%nat →
  perform fuel a w = Some w' →
  (disposed_ w' = false → sweepsParked w' = 1%nat) ∧ (sweepsParked w' ≤ 1)%nat.
Proof.
  intros Hrun Hmax.
  assert (Hkept : ∀ w0, sweepKept w w0 →
            (disposed_ w0 = false → sweepsParked w0 = 1%nat)
            ∧ (sweepsParked w0 ≤ 1)%nat).
  { intros w0 [Hs Hd]. rewrite Hs, Hd. by split. }
  destruct a; simpl; try (intros [= <-]).
  - apply Hkept, createEntity_sweepKept.
  - apply Hkept, deleteEntity_sweepKept.
  - apply Hkept. unfold respawnUnoccupiedVehicles.
    apply sweepKept_foldl, respawnUnoccupied_step_sweepKept.
  - apply Hkept, sweepKept_sameButTrace, synchronizeAccessForVehicle_frame.
  - apply Hkept. unfold synchronizeAccessForPlayer.
    apply sweepKept_foldl. intros w0 e.
    apply sweepKept_sameButTrace, synchronizeAccess_step_frame.
  - apply Hkept, scheduleVehicleForRespawn_sweepKept.
  - apply Hkept, onPlayerEnterVehicle_sweepKept.
  - apply Hkept, onPlayerLeaveVehicle_sweepKept.
  - intros H. by eapply Hkept, onTrailerAttached_sweepKept.
  - apply Hkept, onPlayerLeaveVehicle_sweepKept.
  - apply Hkept. unfold onVehicleSpawn.
    destruct (storedVehicles_ w !! vehicle) as [sv|]; [|apply sweepKept_refl].
    destruct (StoredVehicle.respawnFn _); by apply sweepKept_fields.
  - apply Hkept. unfold onVehicleDeath.
    destruct (storedVehicles_ w !! vehicle); [|apply sweepKept_refl].
    destruct (bool_decide _);
      [apply sweepKept_refl | apply scheduleVehicleForRespawn_sweepKept].
  - unfold fireTimer. destruct (timers w !! i) as [t|] eqn:Ht;
      [|by intros [= <-]].
    pose proof (sweepsParked_remove w i t Ht) as Hrem.
    set (w0 := set_now (due t) (set_timers _ w)).
    assert (Hs0 : sweepsParked w0
                  = sweepsParked (set_timers (λ ts, take i ts ++ drop (S i) ts) w))
      by done.
    assert (Hd0 : disposed_ w0 = disposed_ w) by done.
    destruct (task t) as [vehicle token|] eqn:Htask; simpl.
    + rewrite decide_False in Hrem by done.
      intros H. assert (Hk : sweepKept w0 w').
      { unfold scheduleVehicleForRespawn_resume in H. destruct (_ || _).
        - injection H as <-. apply sweepKept_refl.
        - by eapply respawnChain_sweepKept. }
      destruct Hk as [Hs Hd]. rewrite Hs, Hd, Hs0, Hd0.
      split; [intros Hf; specialize (Hrun Hf)|]; lia.
    + rewrite decide_True in Hrem by done.
      intros [= <-]. unfold processUnoccupiedVehicleUpdates.
      change (disposed_ w0) with (disposed_ w) in *. clear Hd0.
      destruct (disposed_ w) eqn:Hdis.
      * change (disposed_ w0) with (disposed_ w). rewrite Hdis, Hs0.
        split; [done | lia].
      * assert (Hk : sweepKept w0 (driftSweep w0)).
        { unfold driftSweep. apply sweepKept_foldl, driftSweep_step_sweepKept. }
        destruct Hk as [Hs Hd].
        assert (Hone : sweepsParked
                         (seconds UnoccupiedVehicleStatusUpdateSec
                            DriftSweepTask (driftSweep w0))
                       = S (sweepsParked (driftSweep w0))).
        { unfold sweepsParked. simpl.
          rewrite filter_app, filter_cons_True by done.
          rewrite length_app. simpl. lia. }
        rewrite Hone, Hs, Hs0. specialize (Hrun eq_refl).
        split; [intros _|]; lia.
  - split; [done|]. exact Hmax.
  - apply Hkept. by apply sweepKept_fields.
Qed.

(** X13. The constructor parks one turn of the drift sweep, and
    whatever happens to the streamer afterwards exactly one turn is
    parked for as long as the streamer is not disposed: the sweep is
    never lost and never doubled. Once the streamer is disposed at most
    one turn is parked. *)
Theorem drift_sweep_parked_exactly_once
    (descr : StoredRef → StoredVehicle.t) (ps : list Player) (t dist : Q)
    (fuel : nat) (history : list Action) (w : World) :
  performAll fuel history (newVehicleStreamer descr ps t dist) = Some w →
  (disposed_ w = false → sweepsParked w = 1%nat) ∧ (sweepsParked w ≤ 1)%nat.
Proof.
  assert (Hgen : ∀ history w0 w1,
            (disposed_ w0 = false → sweepsParked w0 = 1%nat) →
            (sweepsParked w0 ≤ 1)%nat →
            performAll fuel history w0 = Some w1 →
            (disposed_ w1 = false → sweepsParked w1 = 1%nat)
            ∧ (sweepsParked w1 ≤ 1)%nat).
  { clear history w. induction history as [|a rest IH]; intros w0 w1 Hrun Hmax.
    - simpl. by intros [= <-].
    - simpl. destruct (perform fuel a w0) as [w2|] eqn:Ha; [|done].
      destruct (perform_sweep_parked fuel a w0 w2 Hrun Hmax Ha) as [H1 H2].
      by apply IH. }
  apply Hgen; [done | by cbv].
Qed.

(** ** The closest live vehicle *)

Section ClosestVehicle.
Variable distanceTo : Vector.t → Vector.t → Q.
Variable w : World.
Variable position : Vector.t.

Lemma closest_fold_last (vs : list VehRef) :
  ∀ acc : option VehRef * Q,
    let r := foldl (closest_step distanceTo w position) acc vs in
    (r = acc
     ∧ ∀ v, v ∈ vs → (acc.2 < vehicleDistance distanceTo w position v)%Q)
    ∨ ∃ before v after,
        vs = before ++ v :: after
        ∧ r = (Some v, vehicleDistance distanceTo w position v)
        ∧ (vehicleDistance distanceTo w position v <= acc.2)%Q
        ∧ (∀ u, u ∈ before →
             (vehicleDistance distanceTo w position v
              <= vehicleDistance distanceTo w position u)%Q)
        ∧ (∀ u, u ∈ after →
             (vehicleDistance distanceTo w position v
              < vehicleDistance distanceTo w position u)%Q).
Proof.
  induction vs as [|v0 vs IH]; intros acc; simpl.
  - left. split; [done|]. intros v Hin. by apply elem_of_nil in Hin.
  - specialize (IH (closest_step distanceTo w position acc v0)). simpl in IH.
    unfold closest_step in IH |- *.
    change (distanceTo (Vehicle.position (vehicleAt w v0)) position)
      with (vehicleDistance distanceTo w position v0) in *.
    unfold num_gt in *.
    destruct (num_lt acc.2 (vehicleDistance distanceTo w position v0)) eqn:Hcmp.
    + apply num_lt_true in Hcmp.
      destruct IH as [[Heq Hfar] | (before & v & after & -> & Hr & Hle & Hb & Ha)].
      * left. split; [done|]. intros v Hin.
        apply elem_of_cons in Hin as [-> | Hin]; [done | by apply Hfar].
      * right. exists (v0 :: before), v, after. split_and!; try done.
        intros u Hin. apply elem_of_cons in Hin as [-> | Hin]; [|by apply Hb].
        apply Qlt_le_weak. by eapply Qle_lt_trans.
    + apply num_lt_false in Hcmp. simpl in IH. right.
      destruct IH as [[Heq Hfar] | (before & v & after & -> & Hr & Hle & Hb & Ha)].
      * exists [], v0, vs. split_and!; try done.
        intros u Hin. by apply elem_of_nil in Hin.
      * exists (v0 :: before), v, after. split_and!; try done.
        -- by eapply Qle_trans.
        -- intros u Hin. apply elem_of_cons in Hin as [-> | Hin];
             [done | by apply Hb].
Qed.

(** X14. When some live vehicle is within [Number.MAX_SAFE_INTEGER]
    of the position, [query] answers with a live vehicle that no live
    vehicle is closer than; among several at that least distance it is
    the one that comes last in the map, that is the one streamed in most
    recently. With no live vehicle the answer is no vehicle. *)
Theorem query_closest_is_last_nearest :
  ((∃ v, v ∈ JsMap.values (vehicles_ w)
         ∧ (vehicleDistance distanceTo w position v <= MAX_SAFE_INTEGER)%Q) →
   ∃ before v after,
     JsMap.values (vehicles_ w) = before ++ v :: after
     ∧ closestVehicle (query distanceTo position w) = Some v
     ∧ (∀ u, u ∈ before →
          (vehicleDistance distanceTo w position v
           <= vehicleDistance distanceTo w position u)%Q)
     ∧ (∀ u, u ∈ after →
          (vehicleDistance distanceTo w position v
           < vehicleDistance distanceTo w position u)%Q))
  ∧ (vehicles_ w = [] → closestVehicle (query distanceTo position w) = None).
Proof.
  split.
  - intros (v0 & Hin0 & Hnear). unfold query. simpl.
    destruct (closest_fold_last (JsMap.values (vehicles_ w))
                (None, MAX_SAFE_INTEGER))
      as [[_ Hfar] | (before & v & after & Hsplit & Hr & _ & Hb & Ha)].
    + exfalso. apply (Qlt_not_le _ _ (Hfar v0 Hin0) Hnear).
    + exists before, v, after. rewrite Hr. by split_and!.
  - intros Hempty. unfold query. by rewrite Hempty.
Qed.
End ClosestVehicle.

(** * Properties of the pickup *)

Ltac pickup_run :=
  unfold pickupRun, pickupPerform, scheduleRespawn, scheduleRespawn_resume,
    disposePickup, invokeCreatePickup, pickupIsConnected, pickupIsRespawning,
    getPickup, putPickup, call, throw, set_id, set_respawning, set_manager,
    mbind, mret, pickupM_bind, pickupM_ret in *;
  simpl in *.

(** X15. A respawn of a pickup that is not respawning and has a
    manager: [scheduleRespawn] destroys the pickup on the server and
    leaves it without id, yet connected, for as long as it is
    respawning; when the delay has elapsed and the server creates the
    pickup again, the pickup has the new id, is no longer respawning,
    its manager is told, and everything else about it is as before. *)
Theorem pickup_respawn_round_trip (s : PickupState) (manager : Manager)
    (created : Z) :
  Pickup.manager_ (pickup s) = Some manager →
  Pickup.respawning_ (pickup s) = false →
  created ≠ -1 →
  let s1 := (scheduleRespawn s).2 in
  let s2 := (scheduleRespawn_resume created s1).2 in
  (scheduleRespawn s).1 = Return ()
  ∧ Pickup.id_ (pickup s1) = None
  ∧ pickupIsRespawning (pickup s1) = true
  ∧ pickupIsConnected (pickup s1) = true
  ∧ calls s1 = calls s ++ [InvokeDestroyPickup (Pickup.id_ (pickup s))]
  ∧ (scheduleRespawn_resume created s1).1 = Return ()
  ∧ pickup s2 = set_id (Some created) (pickup s)
  ∧ pickupIsConnected (pickup s2) = true
  ∧ calls s2
    = calls s
      ++ [InvokeDestroyPickup (Pickup.id_ (pickup s));
          InvokeCreatePickup (Pickup.modelId_ (pickup s)) (Pickup.type_ (pickup s))
                             (Pickup.position_ (pickup s))
                             (Pickup.virtualWorld_ (pickup s));
          DidRecreatePickup manager].
Proof.
  destruct s as [[m modelId type position virtualWorld delay respawning id] cs].
  simpl. intros -> -> Hcreated. pickup_run.
  rewrite (bool_decide_eq_false_2 _ Hcreated). simpl.
  rewrite <- !app_assoc. by split_and!.
Qed.

(** X16. Disposing of a pickup while it is respawning: the pickup is
    not destroyed a second time and its manager is not told of the
    disposal; the pickup is disconnected at once, and when the delay of
    the respawn has elapsed nothing is created. Over the whole course
    the one call made is the [DestroyPickup] of [scheduleRespawn]. *)
Theorem pickup_dispose_cancels_respawn (s : PickupState) (created : Z) :
  Pickup.respawning_ (pickup s) = false →
  let s1 := (scheduleRespawn s).2 in
  let s2 := (disposePickup s1).2 in
  let s3 := (scheduleRespawn_resume created s2).2 in
  (disposePickup s1).1 = Return ()
  ∧ pickupIsConnected (pickup s2) = false
  ∧ Pickup.manager_ (pickup s2) = None
  ∧ (scheduleRespawn_resume created s2).1 = Return ()
  ∧ s3 = s2
  ∧ calls s3 = calls s ++ [InvokeDestroyPickup (Pickup.id_ (pickup s))].
Proof.
  destruct s as [[m modelId type position virtualWorld delay respawning id] cs].
  simpl. intros ->. pickup_run. by split_and!.
Qed.

(** X17. Disposing of a pickup that is not respawning and has a
    manager destroys it on the server, tells the manager, and leaves it
    disconnected, without id and without manager. A resumed respawn
    then does nothing. [dispose] is not idempotent: a second call asks
    the server to destroy a pickup without id and then throws, because
    the manager it wants to tell is gone. *)
Theorem pickup_dispose_then_dispose_throws (s : PickupState) (manager : Manager)
    (created : Z) :
  Pickup.manager_ (pickup s) = Some manager →
  Pickup.respawning_ (pickup s) = false →
  let s1 := (disposePickup s).2 in
  (disposePickup s).1 = Return ()
  ∧ calls s1
    = calls s ++ [InvokeDestroyPickup (Pickup.id_ (pickup s));
                  DidDisposePickup manager]
  ∧ pickupIsConnected (pickup s1) = false
  ∧ Pickup.id_ (pickup s1) = None ∧ Pickup.manager_ (pickup s1) = None
  ∧ scheduleRespawn_resume created s1 = (Return (), s1)
  ∧ (disposePickup s1).1 = Throw "TypeError"
  ∧ pickup (disposePickup s1).2 = pickup s1
  ∧ calls (disposePickup s1).2 = calls s1 ++ [InvokeDestroyPickup None].
Proof.
  destruct s as [[m modelId type position virtualWorld delay respawning id] cs].
  simpl. intros -> ->. pickup_run. rewrite <- !app_assoc. by split_and!.
Qed.

(** X18. When the server fails to create the pickup again (it answers
    -1), the resumed [scheduleRespawn] keeps -1 as the id and ends in a
    [ReferenceError] at the line that would log the failure, which names
    a variable that does not exist there. The manager is not told, and
    the pickup still reports that it is connected. *)
Theorem pickup_failed_recreation (s : PickupState) :
  pickupIsConnected (pickup s) = true →
  let s1 := (scheduleRespawn_resume (-1) s).2 in
  (scheduleRespawn_resume (-1) s).1 = Throw "ReferenceError"
  ∧ Pickup.id_ (pickup s1) = Some (-1)
  ∧ Pickup.respawning_ (pickup s1) = false
  ∧ pickupIsConnected (pickup s1) = true
  ∧ calls s1
    = calls s
      ++ [InvokeCreatePickup (Pickup.modelId_ (pickup s)) (Pickup.type_ (pickup s))
                             (Pickup.position_ (pickup s))
                             (Pickup.virtualWorld_ (pickup s))].
Proof.
  destruct s as [[m modelId type position virtualWorld delay respawning id] cs].
  simpl. intros Hconn. pickup_run. rewrite Hconn. simpl. by split_and!.
Qed.

Lemma pickupPerform_keeps_connected (op : PickupOp) (s : PickupState)
    (manager : Manager) :
  op ≠ PickupDispose →
  pickupIsConnected (pickup s) = true →
  Pickup.manager_ (pickup s) = Some manager →
  pickupIsConnected (pickup (pickupPerform op s).2) = true
  ∧ Pickup.manager_ (pickup (pickupPerform op s).2) = Some manager.
Proof.
  destruct s as [[m modelId type position virtualWorld delay respawning id] cs].
  simpl. intros Hop Hconn ->. destruct op as [|created|]; [| |done].
  - pickup_run. by split.
  - pickup_run. rewrite Hconn. simpl.
    destruct (bool_decide (created = -1)); by simpl.
Qed.

(** X19. A pickup reports that it is connected from its construction
    until it is disposed of: after any run of [scheduleRespawn] calls
    and resumptions, in any order and number, whatever the server
    answers (also when it fails to create the pickup, at construction or
    later), [isConnected] is true and the manager is still set. *)
Theorem pickup_connected_until_disposed (manager : Manager) (modelId type : Z)
    (position : Vector.t) (virtualWorld : Z) (respawnDelay : Q) (created : Z)
    (ops : list PickupOp) :
  Forall (λ op, op ≠ PickupDispose) ops →
  let s := pickupRun ops
             (newPickup manager modelId type position virtualWorld
                        respawnDelay created) in
  pickupIsConnected (pickup s) = true
  ∧ Pickup.manager_ (pickup s) = Some manager.
Proof.
  intros Hops.
  assert (Hgen : ∀ s0,
            pickupIsConnected (pickup s0) = true →
            Pickup.manager_ (pickup s0) = Some manager →
            pickupIsConnected (pickup (pickupRun ops s0)) = true
            ∧ Pickup.manager_ (pickup (pickupRun ops s0)) = Some manager).
  { induction Hops as [|op ops Hop Hops IH]; intros s0 Hc Hm; [done|].
    unfold pickupRun. simpl. apply IH.
    - by apply (pickupPerform_keeps_connected op s0 manager).
    - by apply (pickupPerform_keeps_connected op s0 manager). }
  apply Hgen; reflexivity.
Qed.

Lemma scheduleRespawn_eq (s : PickupState) :
  scheduleRespawn s
  = (Return (),
     mkPickupState (set_id None (set_respawning true (pickup s)))
                   (calls s ++ [InvokeDestroyPickup (Pickup.id_ (pickup s))])).
Proof. reflexivity. Qed.

Lemma scheduleRespawn_resume_recreated (created : Z) (manager : Manager)
    (s : PickupState) :
  pickupIsConnected (pickup s) = true → created ≠ -1 →
  Pickup.manager_ (pickup s) = Some manager →
  scheduleRespawn_resume created s
  = (Return (),
     mkPickupState (set_id (Some created) (set_respawning false (pickup s)))
                   (calls s
                    ++ [InvokeCreatePickup (Pickup.modelId_ (pickup s))
                                           (Pickup.type_ (pickup s))
                                           (Pickup.position_ (pickup s))
                                           (Pickup.virtualWorld_ (pickup s));
                        DidRecreatePickup manager])).
Proof.
  destruct s as [[m modelId type position virtualWorld delay respawning id] cs].
  simpl. intros Hconn Hcreated ->.
  unfold scheduleRespawn_resume, invokeCreatePickup, getPickup, putPickup,
    call, throw, mbind, mret, pickupM_bind, pickupM_ret.
  cbn [pickup]. rewrite Hconn. cbn [negb pickup calls].
  rewrite (bool_decide_eq_false_2 _ Hcreated).
  cbn [Pickup.manager_ set_id set_respawning pickup calls Pickup.modelId_
       Pickup.type_ Pickup.position_ Pickup.virtualWorld_
       Pickup.respawnDelay_ Pickup.respawning_ Pickup.id_].
  by rewrite <- app_assoc.
Qed.

(** X20. Nothing tells the respawns of a pickup apart: when
    [scheduleRespawn] is called twice before the first delay has
    elapsed, both resumptions create the pickup, the id of the first
    creation is overwritten by the second without a [DestroyPickup] for
    it, and the manager is told twice. *)
Theorem pickup_overlapping_respawns_create_twice (s : PickupState)
    (manager : Manager) (created1 created2 : Z) :
  Pickup.manager_ (pickup s) = Some manager →
  created1 ≠ -1 → created2 ≠ -1 →
  let create :=
    InvokeCreatePickup (Pickup.modelId_ (pickup s)) (Pickup.type_ (pickup s))
                       (Pickup.position_ (pickup s))
                       (Pickup.virtualWorld_ (pickup s)) in
  let s' := pickupRun [PickupScheduleRespawn; PickupScheduleRespawn;
                       PickupResume created1; PickupResume created2] s in
  Pickup.id_ (pickup s') = Some created2
  ∧ calls s'
    = calls s
      ++ [InvokeDestroyPickup (Pickup.id_ (pickup s));
          InvokeDestroyPickup None;
          create; DidRecreatePickup manager;
          create; DidRecreatePickup manager].
Proof.
  intros Hm H1 H2 create s'. subst s' create.
  unfold pickupRun. cbn [foldl pickupPerform].
  rewrite !scheduleRespawn_eq. cbn [snd].
  rewrite (scheduleRespawn_resume_recreated created1 manager);
    [|reflexivity | exact H1 | exact Hm].
  cbn [snd].
  rewrite (scheduleRespawn_resume_recreated created2 manager);
    [|reflexivity | exact H2 | exact Hm].
  cbn [snd pickup calls]. split; [reflexivity|].
  cbn [set_id set_respawning Pickup.id_ Pickup.modelId_ Pickup.type_
       Pickup.position_ Pickup.virtualWorld_].
  by rewrite <- !app_assoc.
Qed.

(** * One parked respawn per token *)

Lemma parkedOnce_shrink (w w' : World) :
  nextToken w' = nextToken w → timers w' = timers w →
  (∀ v t, respawnTokens_ w' !! v = Some t → respawnTokens_ w !! v = Some t) →
  tokensParkedOnce w → tokensParkedOnce w'.
Proof.
  intros Hn Ht Hsub (Ha & Hb & Hc). unfold tokensParkedOnce.
  rewrite Hn, Ht. split_and!; [|done|done].
  intros v t Hv. by apply (Ha v), Hsub.
Qed.

Lemma parkedOnce_sameButTrace (w w' : World) :
  sameButTrace w w' → tokensParkedOnce w → tokensParkedOnce w'.
Proof.
  intros H. frame_destruct H. apply parkedOnce_shrink; try done.
  intros v t. by rewrite Htokens.
Qed.

Lemma parkedOnce_foldl {A : Type} (step : World → A → World) (l : list A) :
  (∀ w a, tokensParkedOnce w → tokensParkedOnce (step w a)) →
  ∀ w, tokensParkedOnce w → tokensParkedOnce (foldl step w l).
Proof.
  intros Hstep. induction l as [|a l IH]; intros w Hw; [done|].
  simpl. by apply IH, Hstep.
Qed.

Lemma parkedOnce_schedule (vehicle : VehRef) (storedVehicle : StoredRef)
    (timeMultipler : option Double.t) (w : World) :
  tokensParkedOnce w →
  tokensParkedOnce
    (scheduleVehicleForRespawn vehicle storedVehicle timeMultipler w).
Proof.
  intros Hk.
  destruct (num_lt (num_mul (StoredVehicle.respawnDelay
                               (descriptors w storedVehicle))
                            (default Double.one timeMultipler)) 0) eqn:Hguard.
  - rewrite (scheduleVehicleForRespawn_never _ _ _ _ Hguard).
    by apply (parkedOnce_shrink w).
  - pose proof (scheduleVehicleForRespawn_timed vehicle storedVehicle
                  timeMultipler w Hguard) as Hs. cbv zeta in Hs.
    destruct Hs as (Htok & Hnext & Htim & _).
    destruct Hk as (Ha & Hb & Hc). unfold tokensParkedOnce.
    rewrite Htok, Hnext, Htim. split_and!.
    + intros v t. rewrite lookup_insert. case_decide.
      * intros [= <-]. lia.
      * intros Hv. apply Ha in Hv. lia.
    + intros t v tok Hin Htask. apply elem_of_app in Hin as [Hin | Hin].
      * specialize (Hb t v tok Hin Htask). lia.
      * apply list_elem_of_singleton in Hin as ->. simpl in Htask.
        injection Htask as _ <-. lia.
    + intros i j ti tj v1 v2 tok Hi Hj Hti Htj.
      apply lookup_app_Some in Hi as [Hi | [Hli Hi]];
        apply lookup_app_Some in Hj as [Hj | [Hlj Hj]].
      * by eapply Hc.
      * apply list_lookup_singleton_Some in Hj as [_ <-]. simpl in Htj.
        injection Htj as _ <-.
        apply list_elem_of_lookup_2 in Hi. specialize (Hb ti v1 _ Hi Hti). lia.
      * apply list_lookup_singleton_Some in Hi as [_ <-]. simpl in Hti.
        injection Hti as _ <-.
        apply list_elem_of_lookup_2 in Hj. specialize (Hb tj v2 _ Hj Htj). lia.
      * apply list_lookup_singleton_Some in Hi as [Hi _].
        apply list_lookup_singleton_Some in Hj as [Hj _]. lia.
Qed.

Lemma lookup_without (l : list Timer) (k i : nat) (t : Timer) :
  (take k l ++ drop (S k) l) !! i = Some t →
  l !! (if decide (i < k)%nat then i else S i) = Some t.
Proof.
  intros H. apply lookup_app_Some in H as [H | [Hlen H]].
  - apply lookup_take_Some in H as [H Hlt]. by rewrite decide_True.
  - rewrite lookup_drop in H. pose proof (lookup_lt_Some _ _ _ H) as Hlt.
    rewrite length_take in Hlen, Hlt, H.
    rewrite decide_False by lia.
    replace (S i) with (S k + (i - k `min` length l))%nat by lia. done.
Qed.

Lemma parkedOnce_remove (k : nat) (now' : Q) (w : World) :
  tokensParkedOnce w →
  tokensParkedOnce
    (set_now now' (set_timers (λ ts, take k ts ++ drop (S k) ts) w)).
Proof.
  intros (Ha & Hb & Hc). unfold tokensParkedOnce. simpl. split_and!.
  - done.
  - intros t v tok Hin Htask. apply list_elem_of_lookup in Hin as [i Hi].
    apply lookup_without in Hi. apply list_elem_of_lookup_2 in Hi.
    by eapply Hb.
  - intros i j ti tj v1 v2 tok Hi Hj Hti Htj.
    apply lookup_without in Hi, Hj.
    pose proof (Hc _ _ _ _ _ _ _ Hi Hj Hti Htj) as Heq.
    repeat case_decide; lia.
Qed.

Lemma parkedOnce_park_sweep (t : Q) (w : World) :
  tokensParkedOnce w → tokensParkedOnce (seconds t DriftSweepTask w).
Proof.
  intros (Ha & Hb & Hc). unfold tokensParkedOnce. simpl. split_and!.
  - done.
  - intros tm v tok Hin Htask. apply elem_of_app in Hin as [Hin | Hin].
    + by eapply Hb.
    + apply list_elem_of_singleton in Hin as ->. discriminate.
  - intros i j ti tj v1 v2 tok Hi Hj Hti Htj.
    apply lookup_app_Some in Hi as [Hi | [_ Hi]];
      [|apply list_lookup_singleton_Some in Hi as [_ <-]; discriminate].
    apply lookup_app_Some in Hj as [Hj | [_ Hj]];
      [|apply list_lookup_singleton_Some in Hj as [_ <-]; discriminate].
    by eapply Hc.
Qed.

Lemma parkedOnce_respawnLink (vehicle : VehRef) (w : World) :
  tokensParkedOnce w → tokensParkedOnce (respawnLink vehicle w).
Proof.
  pose proof (respawnLink_spec vehicle w) as Hs. cbv zeta in Hs.
  destruct Hs as (_ & _ & _ & _ & Ht & Hn & _ & _ & Hk).
  apply parkedOnce_shrink; try done. intros v t. rewrite Hk.
  destruct (storedVehicles_ w !! vehicle); [|done].
  intros H. by apply lookup_delete_Some in H as [_ H].
Qed.

Lemma parkedOnce_respawnChain (fuel : nat) :
  ∀ (start : option VehRef) (w w' : World),
    tokensParkedOnce w → respawnChain fuel start w = Some w' →
    tokensParkedOnce w'.
Proof.
  induction fuel as [|fuel IH]; intros [v|] w w' Hk; simpl; try done.
  - by intros [= <-].
  - apply IH. by apply parkedOnce_respawnLink.
  - by intros [= <-].
Qed.

Lemma parkedOnce_enter (player : option Player) (vehicle : VehRef) (w : World) :
  tokensParkedOnce w → tokensParkedOnce (onPlayerEnterVehicle player vehicle w).
Proof.
  unfold onPlayerEnterVehicle.
  destruct (storedVehicles_ w !! vehicle); [|done].
  apply parkedOnce_shrink; try done. simpl. intros v t H.
  by apply lookup_delete_Some in H as [_ H].
Qed.

Lemma parkedOnce_leave (player : option Player) (vehicle : VehRef) (w : World) :
  tokensParkedOnce w → tokensParkedOnce (onPlayerLeaveVehicle player vehicle w).
Proof.
  unfold onPlayerLeaveVehicle.
  destruct (storedVehicles_ w !! vehicle); [|done].
  destruct (bool_decide _); [done | apply parkedOnce_schedule].
Qed.

Lemma parkedOnce_perform (fuel : nat) (a : Action) (w w' : World) :
  tokensParkedOnce w → perform fuel a w = Some w' → tokensParkedOnce w'.
Proof.
  intros Hk. destruct a; simpl; try (intros [= <-]).
  - unfold createEntity. destruct (JsMap.has _ _); [done|]. simpl.
    eapply parkedOnce_sameButTrace; [apply synchronizeAccessForVehicle_frame|].
    by apply (parkedOnce_shrink w).
  - unfold deleteEntity. destruct (JsMap.get _ _) as [vehicle|]; [|done].
    simpl. unfold callDeathFn, disposeVehicle.
    destruct (StoredVehicle.deathFn _); destruct (isConnected _ vehicle);
      by apply (parkedOnce_shrink w).
  - unfold respawnUnoccupiedVehicles. apply parkedOnce_foldl; [|done].
    intros w0 e Hk0.
    pose proof (respawnUnoccupied_step_spec w0 e) as Hs. cbv zeta in Hs.
    destruct Hs as (_ & _ & _ & _ & Ht & Hn & _ & _ & Htok).
    apply (parkedOnce_shrink w0); try done. intros v t. rewrite Htok.
    destruct (bool_decide _); [done|].
    intros H. by apply lookup_delete_Some in H as [_ H].
  - eapply parkedOnce_sameButTrace; [|exact Hk].
    apply synchronizeAccessForVehicle_frame.
  - unfold synchronizeAccessForPlayer. apply parkedOnce_foldl; [|done].
    intros w0 e. apply parkedOnce_sameButTrace, synchronizeAccess_step_frame.
  - by apply parkedOnce_schedule.
  - by apply parkedOnce_enter.
  - by apply parkedOnce_leave.
  - generalize (Some vehicle). induction fuel as [|fuel IH];
      intros [v|]; simpl; try done.
    + by intros [= <-].
    + destruct (storedVehicles_ w !! v) as [sv|]; [|apply IH].
      destruct (bool_decide _); [|apply IH].
      intros [= <-]. by apply parkedOnce_enter.
    + by intros [= <-].
  - by apply parkedOnce_leave.
  - unfold onVehicleSpawn.
    destruct (storedVehicles_ w !! vehicle) as [sv|]; [|done].
    destruct (StoredVehicle.respawnFn _); by apply (parkedOnce_shrink w).
  - unfold onVehicleDeath.
    destruct (storedVehicles_ w !! vehicle); [|done].
    destruct (bool_decide _); [done | by apply parkedOnce_schedule].
  - unfold fireTimer. destruct (timers w !! i) as [t|]; [|by intros [= <-]].
    pose proof (parkedOnce_remove i (due t) w Hk) as Hk0.
    destruct (task t) as [vehicle token|]; simpl.
    + unfold scheduleVehicleForRespawn_resume. destruct (_ || _).
      * by intros [= <-].
      * by apply parkedOnce_respawnChain.
    + intros [= <-]. unfold processUnoccupiedVehicleUpdates.
      destruct (disposed_ _); [done|].
      apply parkedOnce_park_sweep. unfold driftSweep.
      apply parkedOnce_foldl; [|done].
      intros w0 [sv v] Hk1. rewrite driftSweep_step_unfold.
      destruct (needsDriftRespawn w0 sv v); [by apply parkedOnce_schedule | done].
  - by apply (parkedOnce_shrink w).
  - by apply (parkedOnce_shrink w).
Qed.

Lemma parkedOnce_performAll (fuel : nat) (history : list Action) :
  ∀ w w', tokensParkedOnce w → performAll fuel history w = Some w' →
          tokensParkedOnce w'.
Proof.
  induction history as [|a rest IH]; intros w w' Hk; simpl.
  - by intros [= <-].
  - destruct (perform fuel a w) as [w1|] eqn:Ha; [|done].
    apply IH. by eapply parkedOnce_perform.
Qed.

(** X21. Whatever happens to a streamer after its construction, every
    token carried by a vehicle or captured by a parked respawn is a
    symbol that has been made, and no two parked respawns captured the
    same token. So of the respawns parked for a vehicle at most one can
    find its token still current when it fires: overlapping schedules
    never respawn a vehicle twice. *)
Theorem parked_respawns_have_distinct_tokens
    (descr : StoredRef → StoredVehicle.t) (ps : list Player) (t dist : Q)
    (fuel : nat) (history : list Action) (w : World) :
  performAll fuel history (newVehicleStreamer descr ps t dist) = Some w →
  (∀ vehicle token,
     respawnTokens_ w !! vehicle = Some token → (token < nextToken w)%positive)
  ∧ (∀ tm vehicle token,
       tm ∈ timers w → task tm = RespawnTask vehicle token →
       (token < nextToken w)%positive)
  ∧ (∀ i j ti tj vehicle1 vehicle2 token,
       timers w !! i = Some ti → timers w !! j = Some tj →
       task ti = RespawnTask vehicle1 token →
       task tj = RespawnTask vehicle2 token →
       i = j)
  ∧ (∀ i j ti tj vehicle token1 token2,
       timers w !! i = Some ti → timers w !! j = Some tj →
       task ti = RespawnTask vehicle token1 →
       task tj = RespawnTask vehicle token2 →
       respawnTokens_ w !! vehicle = Some token1 →
       respawnTokens_ w !! vehicle = Some token2 →
       i = j).
Proof.
  intros Hrun.
  assert (Hinit : tokensParkedOnce (newVehicleStreamer descr ps t dist)).
  { unfold tokensParkedOnce. simpl. split_and!.
    - intros v tok. by rewrite lookup_empty.
    - intros tm v tok Hin. apply list_elem_of_singleton in Hin as ->.
      discriminate.
    - intros i j ti tj v1 v2 tok Hi _ Hti.
      apply list_lookup_singleton_Some in Hi as [_ <-]. discriminate. }
  destruct (parkedOnce_performAll fuel history _ w Hinit Hrun)
    as (Ha & Hb & Hc).
  split_and!; [done | done | done |].
  intros i j ti tj v tok1 tok2 Hi Hj Hti Htj H1 H2.
  assert (tok1 = tok2) as <- by congruence.
  by eapply Hc.
Qed.

(** X22. Two respawns scheduled for the same vehicle, one after the
    other, with delays that are not negative, for a connected vehicle
    that the streamer manages and that tows nothing: the two parked
    tasks hold different tokens and the vehicle carries the second. The
    first task does nothing when it fires, before or after the second;
    the second calls the death hook if there is one, respawns the
    vehicle once and clears the token. *)
Theorem overlapping_schedules_respawn_once (fuel : nat) (vehicle : VehRef)
    (storedVehicle : StoredRef) (m1 m2 : option Double.t) (w : World) :
  getStoredVehicle vehicle w = Some storedVehicle →
  num_lt (num_mul (StoredVehicle.respawnDelay (descriptors w storedVehicle))
                  (default Double.one m1)) 0 = false →
  num_lt (num_mul (StoredVehicle.respawnDelay (descriptors w storedVehicle))
                  (default Double.one m2)) 0 = false →
  isConnected w vehicle = true →
  Vehicle.trailer (vehicleAt w vehicle) = None →
  let first := nextToken w in
  let second := Pos.succ (nextToken w) in
  let w2 := scheduleVehicleForRespawn vehicle storedVehicle m2
              (scheduleVehicleForRespawn vehicle storedVehicle m1 w) in
  task <$> timers w2
  = (task <$> timers w)
    ++ [RespawnTask vehicle first; RespawnTask vehicle second]
  ∧ respawnTokens_ w2 !! vehicle = Some second
  ∧ scheduleVehicleForRespawn_resume (S fuel) vehicle first w2 = Some w2
  ∧ ∃ w3,
      scheduleVehicleForRespawn_resume (S fuel) vehicle second w2 = Some w3
      ∧ trace w3
        = trace w ++ deathEvents w vehicle storedVehicle ++ [CallRespawn vehicle]
      ∧ respawnTokens_ w3 !! vehicle = None
      ∧ scheduleVehicleForRespawn_resume (S fuel) vehicle first w3 = Some w3.
Proof.
  intros Hsv Hg1 Hg2 Hconn Htrailer first second w2. subst first second.
  unfold getStoredVehicle in Hsv.
  pose proof (scheduleVehicleForRespawn_timed vehicle storedVehicle m1 w Hg1)
    as Hs1. cbv zeta in Hs1.
  set (w1 := scheduleVehicleForRespawn vehicle storedVehicle m1 w) in *.
  destruct Hs1 as (Htok1 & Hnext1 & Htim1 & _ & Htr1 & Hh1 & Hd1 & _ & _ & Hst1 & _).
  assert (Hg2' : num_lt (num_mul (StoredVehicle.respawnDelay
                                    (descriptors w1 storedVehicle))
                                 (default Double.one m2)) 0 = false)
    by (by rewrite Hd1).
  pose proof (scheduleVehicleForRespawn_timed vehicle storedVehicle m2 w1 Hg2')
    as Hs2. cbv zeta in Hs2. fold w2 in Hs2.
  destruct Hs2 as (Htok2 & _ & Htim2 & _ & Htr2 & Hh2 & Hd2 & _ & _ & Hst2 & _).
  assert (Hcarried : respawnTokens_ w2 !! vehicle = Some (Pos.succ (nextToken w))).
  { rewrite Htok2, Hnext1. apply lookup_insert_eq. }
  assert (Hconn2 : isConnected w2 vehicle = true).
  { unfold isConnected, vehicleAt in *. by rewrite Hh2, Hh1. }
  split_and!.
  - rewrite Htim2, Htim1, Hnext1, !fmap_app. simpl. by rewrite <- app_assoc.
  - exact Hcarried.
  - apply resume_stale. right. intros H.
    pose proof (eq_trans (eq_sym Hcarried) H) as [= H']. lia.
  - exists (respawnLink vehicle w2).
    pose proof (respawnLink_spec vehicle w2) as Hl. cbv zeta in Hl.
    destruct Hl as (_ & _ & _ & _ & _ & _ & Htr3 & _ & Hk3).
    assert (Hsv2 : storedVehicles_ w2 !! vehicle = Some storedVehicle)
      by (by rewrite Hst2, Hst1).
    rewrite Hsv2 in Hk3.
    assert (Hcleared : respawnTokens_ (respawnLink vehicle w2) !! vehicle = None)
      by (rewrite Hk3; apply lookup_delete_eq).
    split_and!.
    + unfold scheduleVehicleForRespawn_resume.
      rewrite Hconn2, (bool_decide_eq_true_2 _ Hcarried). simpl.
      replace (vehicleAt w2 vehicle) with (vehicleAt w vehicle)
        by (unfold vehicleAt; by rewrite Hh2, Hh1).
      rewrite Htrailer. by destruct fuel.
    + rewrite Htr3, Htr2, Htr1. f_equal.
      unfold linkEvents, deathEvents, respawnEvents.
      by rewrite Hsv2, Hconn2, Hd2, Hd1.
    + exact Hcleared.
    + apply resume_stale. right. intros H.
      pose proof (eq_trans (eq_sym Hcleared) H) as H'. discriminate H'.
Qed.

(** * The properties at work

    Each property above that has premises, on a concrete streamer or
    pickup that meets them. *)

Lemma synchronizeAccessForVehicle_calls_witness :
  getLiveVehicle 1%positive pendingWorld = Some 1%positive
  ∧ StoredVehicle.accessFn (descriptors pendingWorld 1%positive) = None
  ∧ trace (synchronizeAccessForVehicle 1%positive pendingWorld)
    = trace pendingWorld ++ (CallUnlockForPlayer 1%positive <$> players pendingWorld).
Proof.
  assert (Hlive : getLiveVehicle 1%positive pendingWorld = Some 1%positive)
    by reflexivity.
  assert (Hfn : StoredVehicle.accessFn (descriptors pendingWorld 1%positive) = None)
    by reflexivity.
  split; [exact Hlive|]. split; [exact Hfn|].
  destruct (synchronizeAccessForVehicle_calls 1%positive pendingWorld) as [H _].
  destruct (H 1%positive Hlive) as (_ & _ & Hopen).
  exact (Hopen Hfn).
Defined.

Lemma createEntity_materializes_witness :
  consistent pendingWorld
  ∧ allocated pendingWorld
  ∧ getLiveVehicle 3%positive pendingWorld = None
  ∧ (createEntity 3%positive pendingWorld).1 = Return 3%positive
  ∧ heap pendingWorld !! 3%positive = None
  ∧ getLiveVehicle 3%positive (createEntity 3%positive pendingWorld).2
    = Some 3%positive
  ∧ getStoredVehicle 3%positive (createEntity 3%positive pendingWorld).2
    = Some 3%positive.
Proof.
  assert (Hc : consistent pendingWorld) by apply timedWorld_consistent.
  assert (Ha : allocated pendingWorld) by apply timedWorld_allocated.
  assert (Hnone : getLiveVehicle 3%positive pendingWorld = None) by reflexivity.
  split; [exact Hc|]. split; [exact Ha|]. split; [exact Hnone|].
  destruct (createEntity_materializes 3%positive pendingWorld Hc Ha Hnone)
    as (Hret & Hnew & _ & _ & Hlive & Hstored & _).
  split; [exact Hret|]. split; [exact Hnew|].
  split; [exact Hlive | exact Hstored].
Defined.

Lemma deleteEntity_dematerializes_witness :
  getLiveVehicle 1%positive pendingWorld = Some 1%positive
  ∧ (deleteEntity 1%positive pendingWorld).1 = Return ()
  ∧ getLiveVehicle 1%positive (deleteEntity 1%positive pendingWorld).2 = None
  ∧ getStoredVehicle 1%positive (deleteEntity 1%positive pendingWorld).2 = None.
Proof.
  assert (Hlive : getLiveVehicle 1%positive pendingWorld = Some 1%positive)
    by reflexivity.
  split; [exact Hlive|].
  destruct (deleteEntity_dematerializes 1%positive 1%positive pendingWorld Hlive)
    as (Hret & Hgone & Hunmanaged & _).
  split; [exact Hret|]. split; [exact Hgone | exact Hunmanaged].
Defined.

Lemma createEntity_deleteEntity_restores_witness :
  consistent pendingWorld
  ∧ getLiveVehicle 3%positive pendingWorld = None
  ∧ vehicles_ (deleteEntity 3%positive (createEntity 3%positive pendingWorld).2).2
    = vehicles_ pendingWorld
  ∧ storedVehicles_
      (deleteEntity 3%positive (createEntity 3%positive pendingWorld).2).2
    = storedVehicles_ pendingWorld.
Proof.
  assert (Hc : consistent pendingWorld) by apply timedWorld_consistent.
  assert (Hnone : getLiveVehicle 3%positive pendingWorld = None) by reflexivity.
  split; [exact Hc|]. split; [exact Hnone|].
  destruct (createEntity_deleteEntity_restores 3%positive pendingWorld Hc Hnone)
    as (_ & Hveh & Hstored & _).
  split; [exact Hveh | exact Hstored].
Defined.

Lemma onVehicleDeath_schedules_at_half_delay_witness :
  getStoredVehicle 1%positive driftedWorld = Some 1%positive
  ∧ Vehicle.occupantCount (vehicleAt driftedWorld 1%positive) = 0%nat
  ∧ (- MIN_VALUE
     <= StoredVehicle.respawnDelay (descriptors driftedWorld 1%positive))%Q
  ∧ (num_mul (StoredVehicle.respawnDelay (descriptors driftedWorld 1%positive))
             Double.half == 15)%Q
  ∧ respawnScheduled driftedWorld (onVehicleDeath 1%positive driftedWorld)
      1%positive
      (num_mul (StoredVehicle.respawnDelay (descriptors driftedWorld 1%positive))
               Double.half).
Proof.
  assert (Hsv : getStoredVehicle 1%positive driftedWorld = Some 1%positive)
    by reflexivity.
  assert (Hocc : Vehicle.occupantCount (vehicleAt driftedWorld 1%positive) = 0%nat)
    by reflexivity.
  assert (Hd : (- MIN_VALUE
                <= StoredVehicle.respawnDelay
                     (descriptors driftedWorld 1%positive))%Q)
    by (intros H; discriminate H).
  split; [exact Hsv|]. split; [exact Hocc|]. split; [exact Hd|].
  split; [vm_compute; reflexivity|].
  destruct (onVehicleDeath_schedules_at_half_delay 1%positive driftedWorld)
    as [H _].
  destruct (H 1%positive Hsv) as (Htimed & _).
  destruct (Htimed Hocc Hd) as (Hsched & _).
  exact Hsched.
Defined.

Lemma onVehicleSpawn_restores_placement_witness :
  getStoredVehicle 1%positive driftedWorld = Some 1%positive
  ∧ stillInPlace (onVehicleSpawn 1%positive driftedWorld) 1%positive 1%positive
    = Vector.closeTo (Vector.mk 10 0 0)
        (StoredVehicle.position (descriptors driftedWorld 1%positive))
        UnoccupiedRespawnThreshold.
Proof.
  assert (Hsv : getStoredVehicle 1%positive driftedWorld = Some 1%positive)
    by reflexivity.
  split; [exact Hsv|].
  destruct (onVehicleSpawn_restores_placement 1%positive driftedWorld) as [H _].
  destruct (H 1%positive
              (Vehicle.mk 520 (Vector.mk 10 0 0) 0 0 0 true (Some 2%positive) None)
              Hsv eq_refl) as (_ & _ & _ & Hplace & _).
  exact Hplace.
Defined.

Lemma onTrailerAttached_marks_trailer_in_use_witness :
  parentChain pendingWorld (Some 1%positive) [1%positive] = true
  ∧ (length [1%positive] ≤ 1)%nat
  ∧ existsb (inUse pendingWorld) [1%positive] = true
  ∧ getStoredVehicle 2%positive pendingWorld = Some 2%positive
  ∧ ∃ w', onTrailerAttached 1 (Some 1%positive) 2%positive pendingWorld = Some w'
          ∧ isPinned 2%positive (Some RecentUsagePin) w' = true
          ∧ respawnTokens_ w' !! 2%positive = None.
Proof.
  assert (Hch : parentChain pendingWorld (Some 1%positive) [1%positive] = true)
    by reflexivity.
  assert (Hf : (length [1%positive] ≤ 1)%nat) by (simpl; lia).
  assert (Hused : existsb (inUse pendingWorld) [1%positive] = true)
    by reflexivity.
  assert (Hsv : getStoredVehicle 2%positive pendingWorld = Some 2%positive)
    by reflexivity.
  split; [exact Hch|]. split; [exact Hf|]. split; [exact Hused|].
  split; [exact Hsv|].
  destruct (onTrailerAttached_marks_trailer_in_use 1 1%positive 2%positive
              pendingWorld [1%positive] Hch Hf) as (_ & Hin & _).
  exact (Hin Hused 2%positive Hsv).
Defined.

Lemma loopWorld_endless (n : nat) :
  is_Some (nthTrailer loopWorld n 1%positive)
  ∧ is_Some (nthTrailer loopWorld n 2%positive).
Proof.
  induction n as [|n [IH1 IH2]]; [by split; eexists|].
  split; simpl.
  - exact IH2.
  - exact IH1.
Qed.

Lemma respawn_cascade_never_ends_on_endless_chain_witness :
  isConnected loopWorld 1%positive = true
  ∧ respawnTokens_ loopWorld !! 1%positive = Some 4%positive
  ∧ scheduleVehicleForRespawn_resume 1000 1%positive 4%positive loopWorld = None.
Proof.
  assert (Hc : isConnected loopWorld 1%positive = true) by reflexivity.
  assert (Ht : respawnTokens_ loopWorld !! 1%positive = Some 4%positive)
    by reflexivity.
  split; [exact Hc|]. split; [exact Ht|].
  exact (respawn_cascade_never_ends_on_endless_chain 1%positive 4%positive
           loopWorld Hc Ht (λ n, proj1 (loopWorld_endless n)) 1000%nat).
Defined.

Lemma enter_leave_respawn_cycle_witness :
  getStoredVehicle 1%positive soloWorld = Some 1%positive
  ∧ occupantsAfterLeave soloWorld 1%positive = 0%nat
  ∧ isConnected soloWorld 1%positive = true
  ∧ Vehicle.trailer (vehicleAt soloWorld 1%positive) = None
  ∧ respawnTokens_
      (onPlayerLeaveVehicle (Some 9%positive) 1%positive
         (onPlayerEnterVehicle (Some 9%positive) 1%positive soloWorld))
    !! 1%positive
    = Some (nextToken soloWorld).
Proof.
  assert (Hsv : getStoredVehicle 1%positive soloWorld = Some 1%positive)
    by reflexivity.
  assert (Hd : (0 <= StoredVehicle.respawnDelay
                       (descriptors soloWorld 1%positive))%Q)
    by (intros H; discriminate H).
  assert (Hocc : occupantsAfterLeave soloWorld 1%positive = 0%nat)
    by reflexivity.
  assert (Hc : isConnected soloWorld 1%positive = true) by reflexivity.
  assert (Ht : Vehicle.trailer (vehicleAt soloWorld 1%positive) = None)
    by reflexivity.
  split; [exact Hsv|]. split; [exact Hocc|]. split; [exact Hc|].
  split; [exact Ht|].
  destruct (enter_leave_respawn_cycle (Some 9%positive) 1%positive 1%positive
              0 soloWorld Hsv Hd Hocc Hc Ht) as (_ & Htok & _).
  exact Htok.
Defined.

Lemma sampleWorld_reached :
  performAll 2 sampleHistory sampleStart = Some sampleWorld.
Proof. vm_compute. reflexivity. Qed.

Lemma streamedSize_counts_managed_vehicles_witness :
  performAll 2 sampleHistory sampleStart = Some sampleWorld
  ∧ streamedSize sampleWorld = size (storedVehicles_ sampleWorld).
Proof.
  split; [exact sampleWorld_reached|].
  destruct (streamedSize_counts_managed_vehicles (λ _, timedDescriptor)
              [9%positive] 0 300 2 sampleHistory sampleWorld sampleWorld_reached)
    as [Hsize _].
  exact Hsize.
Defined.

Lemma drift_sweep_parked_exactly_once_witness :
  performAll 2 sampleHistory sampleStart = Some sampleWorld
  ∧ disposed_ sampleWorld = false
  ∧ sweepsParked sampleWorld = 1%nat.
Proof.
  assert (Hd : disposed_ sampleWorld = false) by (vm_compute; reflexivity).
  split; [exact sampleWorld_reached|]. split; [exact Hd|].
  destruct (drift_sweep_parked_exactly_once (λ _, timedDescriptor)
              [9%positive] 0 300 2 sampleHistory sampleWorld sampleWorld_reached)
    as [Hone _].
  exact (Hone Hd).
Defined.

Lemma query_closest_is_last_nearest_witness :
  (∃ v, v ∈ JsMap.values (vehicles_ driftedWorld)
        ∧ (vehicleDistance axisDistance driftedWorld (Vector.mk 5 0 0) v
           <= MAX_SAFE_INTEGER)%Q)
  ∧ ∃ before v after,
      JsMap.values (vehicles_ driftedWorld) = before ++ v :: after
      ∧ closestVehicle (query axisDistance (Vector.mk 5 0 0) driftedWorld)
        = Some v
      ∧ (∀ u, u ∈ before →
           (vehicleDistance axisDistance driftedWorld (Vector.mk 5 0 0) v
            <= vehicleDistance axisDistance driftedWorld (Vector.mk 5 0 0) u)%Q)
      ∧ (∀ u, u ∈ after →
           (vehicleDistance axisDistance driftedWorld (Vector.mk 5 0 0) v
            < vehicleDistance axisDistance driftedWorld (Vector.mk 5 0 0) u)%Q).
Proof.
  assert (Hnear : ∃ v, v ∈ JsMap.values (vehicles_ driftedWorld)
                       ∧ (vehicleDistance axisDistance driftedWorld
                            (Vector.mk 5 0 0) v <= MAX_SAFE_INTEGER)%Q).
  { exists 1%positive. split; [apply list_elem_of_here|].
    intros H. discriminate H. }
  split; [exact Hnear|].
  destruct (query_closest_is_last_nearest axisDistance driftedWorld
              (Vector.mk 5 0 0)) as [H _].
  exact (H Hnear).
Defined.

Lemma pickup_respawn_round_trip_witness :
  Pickup.manager_ (pickup samplePickup) = Some 1%positive
  ∧ Pickup.respawning_ (pickup samplePickup) = false
  ∧ 78 ≠ -1
  ∧ pickup (scheduleRespawn_resume 78 (scheduleRespawn samplePickup).2).2
    = set_id (Some 78) (pickup samplePickup).
Proof.
  assert (Hm : Pickup.manager_ (pickup samplePickup) = Some 1%positive)
    by reflexivity.
  assert (Hr : Pickup.respawning_ (pickup samplePickup) = false) by reflexivity.
  assert (Hid : 78 ≠ -1) by (intros H; discriminate H).
  split; [exact Hm|]. split; [exact Hr|]. split; [exact Hid|].
  destruct (pickup_respawn_round_trip samplePickup 1%positive 78 Hm Hr Hid)
    as (_ & _ & _ & _ & _ & _ & Hback & _).
  exact Hback.
Defined.

Lemma pickup_dispose_cancels_respawn_witness :
  Pickup.respawning_ (pickup samplePickup) = false
  ∧ calls (scheduleRespawn_resume 78
             (disposePickup (scheduleRespawn samplePickup).2).2).2
    = calls samplePickup
      ++ [InvokeDestroyPickup (Pickup.id_ (pickup samplePickup))].
Proof.
  assert (Hr : Pickup.respawning_ (pickup samplePickup) = false) by reflexivity.
  split; [exact Hr|].
  destruct (pickup_dispose_cancels_respawn samplePickup 78 Hr)
    as (_ & _ & _ & _ & _ & Hcalls).
  exact Hcalls.
Defined.

Lemma pickup_dispose_then_dispose_throws_witness :
  Pickup.manager_ (pickup samplePickup) = Some 1%positive
  ∧ Pickup.respawning_ (pickup samplePickup) = false
  ∧ (disposePickup samplePickup).1 = Return ()
  ∧ (disposePickup (disposePickup samplePickup).2).1 = Throw "TypeError".
Proof.
  assert (Hm : Pickup.manager_ (pickup samplePickup) = Some 1%positive)
    by reflexivity.
  assert (Hr : Pickup.respawning_ (pickup samplePickup) = false) by reflexivity.
  split; [exact Hm|]. split; [exact Hr|].
  destruct (pickup_dispose_then_dispose_throws samplePickup 1%positive 78 Hm Hr)
    as (Hfirst & _ & _ & _ & _ & _ & Hsecond & _).
  split; [exact Hfirst | exact Hsecond].
Defined.

Lemma pickup_failed_recreation_witness :
  pickupIsConnected (pickup (scheduleRespawn samplePickup).2) = true
  ∧ (scheduleRespawn_resume (-1) (scheduleRespawn samplePickup).2).1
    = Throw "ReferenceError"
  ∧ Pickup.id_
      (pickup (scheduleRespawn_resume (-1) (scheduleRespawn samplePickup).2).2)
    = Some (-1).
Proof.
  assert (Hc : pickupIsConnected (pickup (scheduleRespawn samplePickup).2) = true)
    by reflexivity.
  split; [exact Hc|].
  destruct (pickup_failed_recreation (scheduleRespawn samplePickup).2 Hc)
    as (Hthrow & Hid & _).
  split; [exact Hthrow | exact Hid].
Defined.

Lemma pickup_connected_until_disposed_witness :
  Forall (λ op, op ≠ PickupDispose)
    [PickupScheduleRespawn; PickupResume (-1); PickupScheduleRespawn;
     PickupResume 5]
  ∧ pickupIsConnected
      (pickup (pickupRun [PickupScheduleRespawn; PickupResume (-1);
                          PickupScheduleRespawn; PickupResume 5]
                 samplePickup))
    = true.
Proof.
  assert (Hops : Forall (λ op, op ≠ PickupDispose)
                   [PickupScheduleRespawn; PickupResume (-1);
                    PickupScheduleRespawn; PickupResume 5]).
  { repeat constructor; intros H; discriminate H. }
  split; [exact Hops|].
  destruct (pickup_connected_until_disposed 1%positive 1240 1 (Vector.mk 0 0 0)
              0 30 77 _ Hops) as [Hc _].
  exact Hc.
Defined.

Lemma pickup_overlapping_respawns_create_twice_witness :
  Pickup.manager_ (pickup samplePickup) = Some 1%positive
  ∧ 78 ≠ -1 ∧ 79 ≠ -1
  ∧ Pickup.id_
      (pickup (pickupRun [PickupScheduleRespawn; PickupScheduleRespawn;
                          PickupResume 78; PickupResume 79] samplePickup))
    = Some 79.
Proof.
  assert (Hm : Pickup.manager_ (pickup samplePickup) = Some 1%positive)
    by reflexivity.
  assert (H1 : 78 ≠ -1) by (intros H; discriminate H).
  assert (H2 : 79 ≠ -1) by (intros H; discriminate H).
  split; [exact Hm|]. split; [exact H1|]. split; [exact H2|].
  destruct (pickup_overlapping_respawns_create_twice samplePickup 1%positive
              78 79 Hm H1 H2) as [Hid _].
  exact Hid.
Defined.

Lemma parked_respawns_have_distinct_tokens_witness :
  performAll 2 sampleHistory sampleStart = Some sampleWorld
  ∧ (∃ tm, tm ∈ timers sampleWorld
           ∧ task tm = RespawnTask 1%positive 1%positive)
  ∧ (∀ tm vehicle token,
       tm ∈ timers sampleWorld → task tm = RespawnTask vehicle token →
       (token < nextToken sampleWorld)%positive).
Proof.
  split; [exact sampleWorld_reached|]. split.
  { eexists. split; [vm_compute; apply list_elem_of_here | reflexivity]. }
  destruct (parked_respawns_have_distinct_tokens (λ _, timedDescriptor)
              [9%positive] 0 300 2 sampleHistory sampleWorld sampleWorld_reached)
    as (_ & Hmade & _).
  exact Hmade.
Defined.

Lemma overlapping_schedules_respawn_once_witness :
  getStoredVehicle 1%positive soloWorld = Some 1%positive
  ∧ isConnected soloWorld 1%positive = true
  ∧ Vehicle.trailer (vehicleAt soloWorld 1%positive) = None
  ∧ scheduleVehicleForRespawn_resume 1 1%positive (nextToken soloWorld)
      (scheduleVehicleForRespawn 1%positive 1%positive (Some Double.half)
         (scheduleVehicleForRespawn 1%positive 1%positive None soloWorld))
    = Some (scheduleVehicleForRespawn 1%positive 1%positive (Some Double.half)
              (scheduleVehicleForRespawn 1%positive 1%positive None soloWorld)).
Proof.
  assert (Hsv : getStoredVehicle 1%positive soloWorld = Some 1%positive)
    by reflexivity.
  assert (Hc : isConnected soloWorld 1%positive = true) by reflexivity.
  assert (Ht : Vehicle.trailer (vehicleAt soloWorld 1%positive) = None)
    by reflexivity.
  split; [exact Hsv|]. split; [exact Hc|]. split; [exact Ht|].
  destruct (overlapping_schedules_respawn_once 0 1%positive 1%positive None
              (Some Double.half) soloWorld Hsv eq_refl eq_refl Hc Ht)
    as (_ & _ & Hstale & _).
  exact Hstale.
Defined.
